(** * Rede de Amizades: the graph engine of [CodigoChatGptBase.c]

    A shallow embedding of the C graph engine (vertex array, adjacency
    lists, mirror adjacency matrix, breadth-first and depth-first
    traversals) together with the properties its specification states.

    Conventions of the embedding.
    - A C [int] is a [Z].  Every [int] the engine computes is an index or
      a counter that stays between [-2] and [MAX_VERTICES + 5], so no
      wrap-around can occur and none is written out.
    - A C array is a [list]; [a[i]] is [arr_get a i] and [a[i] = x] is
      [arr_set a i x].  On a graph satisfying [wf] every access of the
      source is in range (behind a range guard or a loop bound, or an
      adjacency entry); in the model an out-of-range write does nothing
      and an out-of-range read returns the default element.
    - A linked adjacency list ([AdjNode*]) is the [list Z] of its [v]
      fields, head first; [NULL] is [[]].
    - A [char*] name is an [option string]; [NULL] is [None].  The name
      arguments of the functions are [string]s: their callers,
      [insert_sample_graph] and [main], pass literals and input buffers,
      never [NULL].
    - [malloc] is assumed to succeed; [free] has no effect on the model,
      so [strdup_local], [create_adj_node] and [free_adj_list] leave no
      trace beyond the value stored or dropped.
    - Functions receiving the [Graph*] are computations in the state
      monad [St] over [Graph].
    - The two traversals take a [fuel] bounding their loop and their
      recursion; [None] is the answer of the model when it runs out. *)

From stdpp Require Import base numbers option list strings relations.

Local Open Scope Z_scope.

(** ** Arrays indexed by a C [int] *)

Definition arr_get {A} `{Inhabited A} (a : list A) (i : Z) : A :=
  a !!! Z.to_nat i.

Definition arr_set {A} (a : list A) (i : Z) (x : A) : list A :=
  <[Z.to_nat i := x]> a.

(** ** Structures *)

Definition MAX_VERTICES : Z := 20.
Global Arguments MAX_VERTICES : simpl never.

Record Vertex := mkVertex {
  name : option string;
  head : list Z
}.

Global Instance Vertex_inhabited : Inhabited Vertex :=
  populate (mkVertex None []).

Record Graph := mkGraph {
  vertices : list Vertex;
  n : Z;
  adjMatrix : list (list Z)
}.

Definition with_vertices (g : Graph) (vs : list Vertex) : Graph :=
  mkGraph vs (n g) (adjMatrix g).

Definition with_n (g : Graph) (k : Z) : Graph :=
  mkGraph (vertices g) k (adjMatrix g).

Definition with_adjMatrix (g : Graph) (m : list (list Z)) : Graph :=
  mkGraph (vertices g) (n g) m.

(** ** The state monad over the graph *)

Definition St (A : Type) : Type := Graph → A * Graph.

Definition St_ret {A} (a : A) : St A := λ g, (a, g).

Definition St_bind {A B} (k : A → St B) (m : St A) : St B :=
  λ g, let r := m g in k (fst r) (snd r).

Global Instance St_mret : MRet St := @St_ret.
Global Instance St_mbind : MBind St := @St_bind.

Definition gets {A} (f : Graph → A) : St A := λ g, (f g, g).
Definition modify (f : Graph → Graph) : St unit := λ g, (tt, f g).

(** The result and the final graph of a computation. *)
Definition eval {A} (m : St A) (g : Graph) : A := fst (m g).
Definition exec {A} (m : St A) (g : Graph) : Graph := snd (m g).

(** Field reads and writes through the [Graph*]. *)

Definition get_n : St Z := gets n.
Definition set_n (k : Z) : St unit := modify (λ g, with_n g k).

Definition get_vertex (i : Z) : St Vertex :=
  gets (λ g, arr_get (vertices g) i).
Definition set_vertex (i : Z) (x : Vertex) : St unit :=
  modify (λ g, with_vertices g (arr_set (vertices g) i x)).

Definition get_name (i : Z) : St (option string) :=
  gets (λ g, name (arr_get (vertices g) i)).
Definition get_head (i : Z) : St (list Z) :=
  gets (λ g, head (arr_get (vertices g) i)).

Definition set_name (i : Z) (s : option string) : St unit :=
  modify (λ g, with_vertices g
    (arr_set (vertices g) i (mkVertex s (head (arr_get (vertices g) i))))).
Definition set_head (i : Z) (l : list Z) : St unit :=
  modify (λ g, with_vertices g
    (arr_set (vertices g) i (mkVertex (name (arr_get (vertices g) i)) l))).

Definition get_adj (i j : Z) : St Z :=
  gets (λ g, arr_get (arr_get (adjMatrix g) i) j).
Definition set_adj (i j x : Z) : St unit :=
  modify (λ g, with_adjMatrix g
    (arr_set (adjMatrix g) i (arr_set (arr_get (adjMatrix g) i) j x))).

(** [for (int i = lo; i < hi; ++i) body(i)] *)

Fixpoint for_range (cnt : nat) (i : Z) (body : Z → St unit) : St unit :=
  match cnt with
  | O => mret tt
  | S c => body i ;; for_range c (i + 1) body
  end.

Definition for_loop (lo hi : Z) (body : Z → St unit) : St unit :=
  for_range (Z.to_nat (hi - lo)) lo body.

(** ** Utility functions *)

Definition init_graph : St unit :=
  set_n 0;;
  for_loop 0 MAX_VERTICES (λ i,
    set_name i None;;
    set_head i [];;
    for_loop 0 MAX_VERTICES (λ j, set_adj i j 0)).

(** [g->vertices[i].name && strcmp(g->vertices[i].name, name) == 0] *)
Definition name_matches (nm : option string) (s : string) : bool :=
  match nm with
  | Some s' => bool_decide (s' = s)
  | None => false
  end.

(** The loop of [find_vertex_index], from index [i], [cnt] iterations
    left; it returns from inside the loop at the first match. *)
Fixpoint find_from (cnt : nat) (i : Z) (s : string) : St Z :=
  match cnt with
  | O => mret (-1)
  | S c =>
      nm ← get_name i;
      if name_matches nm s then mret i else find_from c (i + 1) s
  end.

Definition find_vertex_index (s : string) : St Z :=
  cnt ← get_n;
  find_from (Z.to_nat cnt) 0 s.

(** ** Graph operations *)

Definition add_vertex (s : string) : St Z :=
  cnt ← get_n;
  if cnt >=? MAX_VERTICES then mret (-1) else
  idx ← find_vertex_index s;
  if negb (idx =? -1) then mret (-2) else
  set_name cnt (Some s);;
  set_head cnt [];;
  set_n (cnt + 1);;
  mret 0.

Definition add_edge_by_index (u v : Z) : St Z :=
  cnt ← get_n;
  if (u <? 0) || (u >=? cnt) || (v <? 0) || (v >=? cnt) then mret (-1) else
  if u =? v then mret (-1) else
  muv ← get_adj u v;
  if negb (muv =? 0) then mret (-1) else
  hu ← get_head u;
  set_head u (v :: hu);;
  hv ← get_head v;
  set_head v (u :: hv);;
  set_adj v u 1;;
  set_adj u v 1;;
  mret 0.

Definition add_edge (name1 name2 : string) : St Z :=
  u ← find_vertex_index name1;
  v ← find_vertex_index name2;
  if (u =? -1) || (v =? -1) then mret (-1) else
  add_edge_by_index u v.

(** Unlinks every node whose [v] is [target]. *)
Fixpoint remove_occurrences_from_list (curr : list Z) (target : Z) : list Z :=
  match curr with
  | [] => []
  | v :: next =>
      if v =? target then remove_occurrences_from_list next target
      else v :: remove_occurrences_from_list next target
  end.

(** The unlink loops of [remove_edge_by_index]: the first node whose [v]
    is [x] is unlinked, then [break]. *)
Fixpoint unlink_first (curr : list Z) (x : Z) : list Z :=
  match curr with
  | [] => []
  | v :: next => if v =? x then next else v :: unlink_first next x
  end.

Definition remove_edge_by_index (u v : Z) : St Z :=
  cnt ← get_n;
  if (u <? 0) || (v <? 0) || (u >=? cnt) || (v >=? cnt) then mret (-1) else
  muv ← get_adj u v;
  if muv =? 0 then mret (-1) else
  hu ← get_head u;
  set_head u (unlink_first hu v);;
  hv ← get_head v;
  set_head v (unlink_first hv u);;
  set_adj v u 0;;
  set_adj u v 0;;
  mret 0.

Definition remove_edge (name1 name2 : string) : St Z :=
  u ← find_vertex_index name1;
  v ← find_vertex_index name2;
  if (u =? -1) || (v =? -1) then mret (-1) else
  remove_edge_by_index u v.

(** Step 5 of [remove_vertex_by_index] on one list:
    [if (curr->v > target) curr->v--]. *)
Fixpoint renumber_list (curr : list Z) (target : Z) : list Z :=
  match curr with
  | [] => []
  | v :: next =>
      (if v >? target then v - 1 else v) :: renumber_list next target
  end.

Definition remove_vertex_by_index (target : Z) : St Z :=
  cnt ← get_n;
  if (target <? 0) || (target >=? cnt) then mret (-1) else
  (* 1) drop target from the lists of the other vertices *)
  for_loop 0 cnt (λ i,
    if i =? target then mret tt else
    h ← get_head i;
    set_head i (remove_occurrences_from_list h target));;
  (* 2) free the vertex's own list and name *)
  set_head target [];;
  set_name target None;;
  (* 3) shift the vertex array left *)
  for_loop target (cnt - 1) (λ i,
    x ← get_vertex (i + 1);
    set_vertex i x);;
  set_head (cnt - 1) [];;
  set_name (cnt - 1) None;;
  (* 4) shift rows and columns of the matrix, clear the last ones *)
  for_loop target (cnt - 1) (λ i,
    for_loop 0 cnt (λ j,
      x ← get_adj (i + 1) j;
      set_adj i j x));;
  for_loop target (cnt - 1) (λ j,
    for_loop 0 (cnt - 1) (λ i,
      x ← get_adj i (j + 1);
      set_adj i j x));;
  for_loop 0 cnt (λ i,
    set_adj (cnt - 1) i 0;;
    set_adj i (cnt - 1) 0);;
  (* 5) renumber the entries above target *)
  for_loop 0 (cnt - 1) (λ i,
    h ← get_head i;
    set_head i (renumber_list h target));;
  set_n (cnt - 1);;
  mret 0.

Definition remove_vertex (s : string) : St Z :=
  idx ← find_vertex_index s;
  if idx =? -1 then mret (-1) else
  remove_vertex_by_index idx.

(** ** Traversals *)

(** The array queue of the breadth-first search.  [q_head] and [q_tail]
    are the source's [head] and [tail] (renamed: [head] is the field of
    [Vertex]).  [malloc]'ed cells hold [0] until written; they are never
    read before. *)
Record Queue := mkQueue {
  q_data : list Z;
  q_head : Z;
  q_tail : Z;
  q_cap : Z
}.

Definition queue_create (cap : Z) : Queue :=
  mkQueue (replicate (Z.to_nat cap) 0) 0 0 cap.

Definition queue_empty (q : Queue) : bool := q_head q =? q_tail q.

Definition queue_push (q : Queue) (x : Z) : Queue :=
  mkQueue (arr_set (q_data q) (q_tail q) x) (q_head q) (q_tail q + 1) (q_cap q).

Definition queue_pop (q : Queue) : Z * Queue :=
  (arr_get (q_data q) (q_head q),
   mkQueue (q_data q) (q_head q + 1) (q_tail q) (q_cap q)).

(** The inner [while (curr)] of [bfs]: [curr] walks one adjacency list. *)
Fixpoint bfs_scan (curr : list Z) (visited : list Z) (q : Queue)
  : list Z * Queue :=
  match curr with
  | [] => (visited, q)
  | v :: next =>
      if arr_get visited v =? 0
      then bfs_scan next (arr_set visited v 1) (queue_push q v)
      else bfs_scan next visited q
  end.

(** The outer [while (!queue_empty(q))] of [bfs].  [fuel] bounds the
    number of times the loop condition is tested; [None] means the bound
    was reached before the loop exited.  The result is the output buffer
    and [count]. *)
Fixpoint bfs_loop (fuel : nat) (visited : list Z) (q : Queue)
    (visited_order : list Z) (max_out count : Z)
  : St (option (list Z * Z)) :=
  match fuel with
  | O => mret None
  | S f =>
      if queue_empty q then mret (Some (visited_order, count)) else
      let p := queue_pop q in
      let u := fst p in
      let visited_order' :=
        if count <? max_out then arr_set visited_order count u
        else visited_order in
      curr ← get_head u;
      let r := bfs_scan curr visited (snd p) in
      bfs_loop f (fst r) (snd r) visited_order' max_out (count + 1)
  end.

Definition bfs (fuel : nat) (start : Z) (visited_order : list Z) (max_out : Z)
  : St (option (list Z * Z)) :=
  cnt ← get_n;
  if (start <? 0) || (start >=? cnt) then mret (Some (visited_order, 0)) else
  let visited := replicate (Z.to_nat cnt) 0 in
  let q := queue_create (cnt + 5) in
  let visited := arr_set visited start 1 in
  let q := queue_push q start in
  bfs_loop fuel visited q visited_order max_out 0.

(** The locals the recursive search threads through its calls by
    pointer: [visited], [order] and [*pos]. *)
Record DfsState := mkDfs {
  d_visited : list Z;
  d_order : list Z;
  d_pos : Z
}.

(** The [while (curr)] of [dfs_util]; [rec] is the recursive call. *)
Fixpoint dfs_scan (rec : Z → DfsState → St (option DfsState))
    (curr : list Z) (s : DfsState) : St (option DfsState) :=
  match curr with
  | [] => mret (Some s)
  | v :: next =>
      if arr_get (d_visited s) v =? 0 then
        r ← rec v s;
        match r with
        | None => mret None
        | Some s' => dfs_scan rec next s'
        end
      else dfs_scan rec next s
  end.

(** [fuel] bounds the recursion depth; [None] means it was reached. *)
Fixpoint dfs_util (fuel : nat) (u : Z) (s : DfsState)
  : St (option DfsState) :=
  match fuel with
  | O => mret None
  | S f =>
      let s1 := mkDfs (arr_set (d_visited s) u 1)
                      (arr_set (d_order s) (d_pos s) u)
                      (d_pos s + 1) in
      curr ← get_head u;
      dfs_scan (dfs_util f) curr s1
  end.

(** [max_out] is not used by the source. *)
Definition dfs (fuel : nat) (start : Z) (order : list Z) (max_out : Z)
  : St (option (list Z * Z)) :=
  cnt ← get_n;
  if (start <? 0) || (start >=? cnt) then mret (Some (order, 0)) else
  let visited := replicate (Z.to_nat cnt) 0 in
  r ← dfs_util fuel start (mkDfs visited order 0);
  mret (match r with
        | None => None
        | Some s => Some (d_order s, d_pos s)
        end).

(** The first [k] cells of a result buffer: the sequence a traversal
    returns. *)
Definition visit_sequence (r : list Z * Z) : list Z :=
  take (Z.to_nat (snd r)) (fst r).

(** ** The sample graph and the final clean-up *)

(** The array [names] of [insert_sample_graph]. *)
Definition sample_names : list string :=
  ["Alice"; "Bob"; "Carol"; "Dave"; "Eve"; "Frank"].

(** Its loop: [add_vertex] on each name in turn, the result dropped. *)
Fixpoint add_names (l : list string) : St unit :=
  match l with
  | [] => mret tt
  | s :: rest => add_vertex s;; add_names rest
  end.

(** [insert_sample_graph]: the loop over [names], then the seven calls
    of [add_edge]; the results of the calls are dropped. *)
Definition insert_sample_graph : St unit :=
  add_names sample_names;;
  add_edge "Alice" "Bob";;
  add_edge "Alice" "Carol";;
  add_edge "Bob" "Dave";;
  add_edge "Carol" "Eve";;
  add_edge "Eve" "Frank";;
  add_edge "Bob" "Carol";;
  add_edge "Dave" "Frank";;
  mret tt.

(** [free_graph]: the lists and names of the vertices in use are freed
    and their pointers cleared, then the count is reset.  The matrix is
    not touched. *)
Definition free_graph : St unit :=
  cnt ← get_n;
  for_loop 0 cnt (λ i,
    set_head i [];;
    set_name i None);;
  set_n 0.

(** * Specification vocabulary *)

(** The length of an array, as a C [int]. *)
Definition alen {A} (a : list A) : Z := Z.of_nat (length a).

(** ** The representation invariant *)

(** The adjacency list and the name of position [i], and a matrix
    cell. *)
Definition hd_of (g : Graph) (i : Z) : list Z := head (arr_get (vertices g) i).
Definition nm_of (g : Graph) (i : Z) : option string :=
  name (arr_get (vertices g) i).
Definition cell (g : Graph) (i j : Z) : Z :=
  arr_get (arr_get (adjMatrix g) i) j.

(** What the C types of the [Graph] fields guarantee: the array sizes. *)
Record shape (g : Graph) : Prop := mkShape {
  shape_vertices : alen (vertices g) = MAX_VERTICES;
  shape_rows : alen (adjMatrix g) = MAX_VERTICES;
  shape_cols : ∀ i, 0 ≤ i < MAX_VERTICES →
    alen (arr_get (adjMatrix g) i) = MAX_VERTICES
}.

(** What [init_graph] establishes and every operation preserves: the
    count is within capacity; adjacency entries are positions of the
    graph and are not repeated; the matrix holds [0] or [1], mirrors the
    lists, is symmetric with a zero diagonal, and is zero outside the
    positions in use. *)
Record wf (g : Graph) : Prop := mkWf {
  wf_shape : shape g;
  wf_n : 0 ≤ n g ≤ MAX_VERTICES;
  wf_entries : ∀ i v, 0 ≤ i < n g → v ∈ hd_of g i → 0 ≤ v < n g;
  wf_nodup : ∀ i, 0 ≤ i < n g → NoDup (hd_of g i);
  wf_mirror : ∀ i j, 0 ≤ i < n g → 0 ≤ j < n g →
    cell g i j = 1 ↔ j ∈ hd_of g i;
  wf_bit : ∀ i j, 0 ≤ i < MAX_VERTICES → 0 ≤ j < MAX_VERTICES →
    cell g i j = 0 ∨ cell g i j = 1;
  wf_sym : ∀ i j, 0 ≤ i < MAX_VERTICES → 0 ≤ j < MAX_VERTICES →
    cell g i j = cell g j i;
  wf_irrefl : ∀ i, 0 ≤ i < MAX_VERTICES → cell g i i = 0;
  wf_blank : ∀ i j, 0 ≤ i < MAX_VERTICES → 0 ≤ j < MAX_VERTICES →
    n g ≤ i → cell g i j = 0
}.

(** ** The writes of the mutators, once their guards have passed *)

Definition add_edge_state (u v : Z) (g : Graph) : Graph :=
  let g1 := exec (set_head u (v :: hd_of g u)) g in
  let g2 := exec (set_head v (u :: hd_of g1 v)) g1 in
  exec (set_adj u v 1) (exec (set_adj v u 1) g2).

Definition remove_edge_state (u v : Z) (g : Graph) : Graph :=
  let g1 := exec (set_head u (unlink_first (hd_of g u) v)) g in
  let g2 := exec (set_head v (unlink_first (hd_of g1 v) u)) g1 in
  exec (set_adj u v 0) (exec (set_adj v u 0) g2).

(** A computation that only writes the matrix, with the cells it leaves. *)
Definition mat_step (g g' : Graph) (f : Z → Z → Z) : Prop :=
  shape g' ∧ n g' = n g ∧ vertices g' = vertices g ∧
  ∀ a b, 0 ≤ a → 0 ≤ b → cell g' a b = f a b.

(** A computation that only writes the vertex array. *)
Definition vtx_step (g g' : Graph) (f : Z → Vertex) : Prop :=
  shape g' ∧ n g' = n g ∧ adjMatrix g' = adjMatrix g ∧
  ∀ a, 0 ≤ a → arr_get (vertices g') a = f a.

(** Step 4, rows: [M[i][j] = M[i+1][j]] for [target <= i < n-1], [j < n]. *)
Definition shift_rows (t cnt : Z) : St unit :=
  for_loop t (cnt - 1) (λ i,
    for_loop 0 cnt (λ j, x ← get_adj (i + 1) j; set_adj i j x)).

(** Step 4, columns: [M[i][j] = M[i][j+1]] for [target <= j < n-1],
    [i < n-1]. *)
Definition shift_cols (t cnt : Z) : St unit :=
  for_loop t (cnt - 1) (λ j,
    for_loop 0 (cnt - 1) (λ i, x ← get_adj i (j + 1); set_adj i j x)).

(** Step 4, last row and column cleared. *)
Definition clear_last (cnt : Z) : St unit :=
  for_loop 0 cnt (λ i, set_adj (cnt - 1) i 0;; set_adj i (cnt - 1) 0).

(** A loop rewriting the adjacency list of every vertex of a range, but
    for the skipped ones: steps 1 and 5. *)
Definition map_heads (skip : Z → bool) (f : list Z → list Z) (lo hi : Z)
  : St unit :=
  for_loop lo hi (λ i,
    if skip i then mret tt else
    h ← get_head i;
    set_head i (f h)).

(** Step 3: [vertices[i] = vertices[i+1]] for [target <= i < n-1]. *)
Definition shift_vertices (t cnt : Z) : St unit :=
  for_loop t (cnt - 1) (λ i, x ← get_vertex (i + 1); set_vertex i x).

(** The position, before the removal of [t], of the vertex found at
    position [a] after it. *)
Definition shift_up (t a : Z) : Z := if decide (t ≤ a) then a + 1 else a.

Definition remove_vertex_state (t : Z) (g : Graph) : Graph :=
  let cnt := n g in
  let g1 := exec (map_heads (λ i, i =? t)
                    (λ h, remove_occurrences_from_list h t) 0 cnt) g in
  let g2 := exec (set_name t None) (exec (set_head t []) g1) in
  let g3 := exec (shift_vertices t cnt) g2 in
  let g4 := exec (set_name (cnt - 1) None) (exec (set_head (cnt - 1) []) g3) in
  let g5 := exec (shift_rows t cnt) g4 in
  let g6 := exec (shift_cols t cnt) g5 in
  let g7 := exec (clear_last cnt) g6 in
  let g8 := exec (map_heads (λ _, false)
                    (λ h, renumber_list h t) 0 (cnt - 1)) g7 in
  exec (set_n (cnt - 1)) g8.

(** [curr->v--] when [curr->v > target]. *)
Definition renumber (t v : Z) : Z := if v >? t then v - 1 else v.

(** ** Reachable graphs *)

Inductive Op :=
  | AddVertex (s : string)
  | AddEdgeByIndex (u v : Z)
  | AddEdge (name1 name2 : string)
  | RemoveEdgeByIndex (u v : Z)
  | RemoveEdge (name1 name2 : string)
  | RemoveVertexByIndex (target : Z)
  | RemoveVertex (s : string).

Definition run_op (o : Op) : St Z :=
  match o with
  | AddVertex s => add_vertex s
  | AddEdgeByIndex u v => add_edge_by_index u v
  | AddEdge a b => add_edge a b
  | RemoveEdgeByIndex u v => remove_edge_by_index u v
  | RemoveEdge a b => remove_edge a b
  | RemoveVertexByIndex t => remove_vertex_by_index t
  | RemoveVertex s => remove_vertex s
  end.

(** The graphs a caller can build: [init_graph] on the caller's
    storage, then any sequence of mutating operations. *)
Inductive reachable : Graph → Prop :=
  | reachable_init g0 : shape g0 → reachable (exec init_graph g0)
  | reachable_step g o : reachable g → reachable (exec (run_op o) g).

(** ** Reachability in the adjacency lists *)

Definition valid_entries (g : Graph) : Prop :=
  ∀ i v, 0 ≤ i < n g → v ∈ hd_of g i → 0 ≤ v < n g.

Definition edge (g : Graph) (u v : Z) : Prop :=
  0 ≤ u < n g ∧ v ∈ hd_of g u.

Definition reach (g : Graph) (u v : Z) : Prop := rtc (edge g) u v.

(** The prefix of an output buffer or of the queue array. *)
Definition prefix_to (k : Z) (a : list Z) : list Z := take (Z.to_nat k) a.

(** Everything ever pushed on the queue, oldest first. *)
Definition pushed (q : Queue) : list Z := prefix_to (q_tail q) (q_data q).

(** ** Invariants of the breadth-first search *)

(** What the marks and the queue of the breadth-first search satisfy
    between two pushes. *)
Record scan_inv (g : Graph) (start : Z) (visited : list Z) (q : Queue)
  : Prop := mkScanInv {
  si_head : 0 ≤ q_head q ≤ q_tail q;
  si_tail : q_tail q ≤ alen (q_data q);
  si_cap : n g ≤ alen (q_data q);
  si_visited : alen visited = n g;
  si_nodup : NoDup (pushed q);
  si_range : ∀ v, v ∈ pushed q → 0 ≤ v < n g;
  si_marks : ∀ v, 0 ≤ v < n g → arr_get visited v ≠ 0 ↔ v ∈ pushed q;
  si_reach : ∀ v, v ∈ pushed q → reach g start v
}.

(** What holds each time the outer loop of [bfs] tests its condition. *)
Record loop_inv (g : Graph) (start max_out : Z) (visited : list Z)
    (q : Queue) (buf : list Z) (count : Z) : Prop := mkLoopInv {
  li_scan : scan_inv g start visited q;
  li_count : count = q_head q;
  li_buf : max_out ≤ alen buf;
  li_first : pushed q !! 0%nat = Some start;
  li_out : prefix_to count buf = prefix_to count (pushed q);
  li_closed : ∀ u w,
    u ∈ prefix_to count (pushed q) → w ∈ hd_of g u → w ∈ pushed q
}.

(** ** Invariants of the depth-first search *)

(** The positions recorded so far. *)
Definition recorded (s : DfsState) : list Z := prefix_to (d_pos s) (d_order s).

Record dfs_inv (g : Graph) (start : Z) (s : DfsState) : Prop := mkDfsInv {
  di_visited : alen (d_visited s) = n g;
  di_pos : 0 ≤ d_pos s ≤ alen (d_order s);
  di_cap : n g ≤ alen (d_order s);
  di_nodup : NoDup (recorded s);
  di_range : ∀ v, v ∈ recorded s → 0 ≤ v < n g;
  di_marks : ∀ v, 0 ≤ v < n g → arr_get (d_visited s) v ≠ 0 ↔ v ∈ recorded s;
  di_reach : ∀ v, v ∈ recorded s → reach g start v
}.

(** What a call, or a run of the neighbour loop, adds to the record:
    [s'] extends [s] by [ext], and every neighbour of a vertex of [ext]
    is recorded in [s']. *)
Definition dfs_extends (g : Graph) (s s' : DfsState) (ext : list Z) : Prop :=
  recorded s' = recorded s ++ ext ∧
  ∀ x w, x ∈ ext → w ∈ hd_of g x → w ∈ recorded s'.

Definition dfs_util_ok (g : Graph) (start : Z) (f : nat) : Prop :=
  ∀ u s,
    dfs_inv g start s → 0 ≤ u < n g → reach g start u →
    arr_get (d_visited s) u = 0 →
    n g - alen (recorded s) ≤ Z.of_nat f →
    ∃ s' ext, eval (dfs_util f u s) g = Some s' ∧ dfs_inv g start s' ∧
              dfs_extends g s s' ext ∧ ext !! 0%nat = Some u.

(** ** Sequences of operations and the scenarios of the specification *)

Fixpoint run_ops (ops : list Op) : St unit :=
  match ops with
  | [] => mret tt
  | o :: rest => run_op o;; run_ops rest
  end.

(** Caller storage before [init_graph]: arbitrary contents. *)
Definition uninit_graph : Graph :=
  mkGraph (replicate 20 (mkVertex (Some "?") [7]))
          5
          (replicate 20 (replicate 20 9)).

Definition zero_matrix : list (list Z) := replicate 20 (replicate 20 0).

Definition blank_vertices (k : nat) : list Vertex :=
  replicate k (mkVertex None []).

(** The graph [init_graph] leaves. *)
Definition empty_graph : Graph := mkGraph (blank_vertices 20) 0 zero_matrix.

Definition build (ops : list Op) : Graph := exec (run_ops ops) empty_graph.

(** [edges[m]] as [display_incidence_matrix] and [generate_dot] collect
    it: the pairs [u < v] with a non-zero matrix cell, in loop order. *)
Definition edges (g : Graph) : list (Z * Z) :=
  u ← seqZ 0 (n g);
  v ← seqZ (u + 1) (n g - (u + 1));
  if cell g u v =? 0 then [] else [(u, v)].

Definition names (g : Graph) : list (option string) :=
  name <$> take (Z.to_nat (n g)) (vertices g).

Definition heads (g : Graph) : list (list Z) :=
  head <$> take (Z.to_nat (n g)) (vertices g).

(** An output buffer as [main] passes: [int order[MAX_VERTICES]]. *)
Definition out_buffer : list Z := replicate 20 0.

Definition abcd_graph : Graph :=
  build [AddVertex "A"; AddVertex "B"; AddVertex "C"; AddVertex "D";
         AddEdge "A" "C"; AddEdge "B" "D"].

Definition acd_graph : Graph :=
  mkGraph
    ([mkVertex (Some "A") [1]; mkVertex (Some "C") [0]; mkVertex (Some "D") []]
       ++ blank_vertices 17)
    3
    (arr_set (arr_set zero_matrix 0 (arr_set (replicate 20 0) 1 1))
             1 (arr_set (replicate 20 0) 0 1)).

Definition alice_graph : Graph :=
  build [AddVertex "Alice"; AddVertex "Bob"; AddVertex "Carol";
         AddEdge "Alice" "Bob"; AddEdge "Alice" "Carol"].

Definition bob_carol_graph : Graph :=
  mkGraph
    ([mkVertex (Some "Bob") []; mkVertex (Some "Carol") []]
       ++ blank_vertices 18)
    2 zero_matrix.

Definition triangle_graph : Graph :=
  build [AddVertex "A"; AddVertex "B"; AddVertex "C";
         AddEdge "A" "B"; AddEdge "B" "C"; AddEdge "C" "A"].

Definition twenty_names : list string :=
  ["p0"; "p1"; "p2"; "p3"; "p4"; "p5"; "p6"; "p7"; "p8"; "p9";
   "p10"; "p11"; "p12"; "p13"; "p14"; "p15"; "p16"; "p17"; "p18"; "p19"].

Definition full_graph : Graph := build (AddVertex <$> twenty_names).

Definition has_name (g : Graph) (s : string) : Prop :=
  ∃ i, 0 ≤ i < n g ∧ nm_of g i = Some s.

(** ** Names, cleared slots, the incidence grid and the queue *)

(** The vertices in use are named, with pairwise distinct names. *)
Record names_ok (g : Graph) : Prop := mkNamesOk {
  no_named : ∀ i, 0 ≤ i < n g → is_Some (nm_of g i);
  no_distinct : ∀ i j, 0 ≤ i < n g → 0 ≤ j < n g →
    nm_of g i = nm_of g j → i = j
}.

(** The slots past the count are cleared. *)
Definition blank_beyond (g : Graph) : Prop :=
  ∀ i, n g ≤ i < MAX_VERTICES → arr_get (vertices g) i = mkVertex None [].

(** The grid [display_incidence_matrix] prints: row [i], column [e] is
    [1] when vertex [i] is an end of edge [e] of [edges], else [0]. *)
Definition incidence_cell (i : Z) (e : Z * Z) : Z :=
  if (i =? fst e) || (i =? snd e) then 1 else 0.

Definition incidence_matrix (g : Graph) : list (list Z) :=
  (λ i, incidence_cell i <$> edges g) <$> seqZ 0 (n g).

(** The sum of a column of the incidence grid. *)
Definition incidence_column_sum (g : Graph) (e : Z * Z) : Z :=
  foldr Z.add 0 ((λ i, incidence_cell i e) <$> seqZ 0 (n g)).

(** The sum of column [j] of a grid. *)
Definition column_sum (j : nat) (m : list (list Z)) : Z :=
  foldr Z.add 0 ((λ row, row !!! j) <$> m).

(** What the queue holds: pushed and not yet popped, oldest first. *)
Definition queue_contents (q : Queue) : list Z :=
  drop (Z.to_nat (q_head q)) (pushed q).

(** The indices of a queue are within its array. *)
Definition queue_ok (q : Queue) : Prop :=
  0 ≤ q_head q ≤ q_tail q ∧ q_tail q ≤ alen (q_data q).

(** ** Sequences of additions *)

(** What [insert_sample_graph] runs, as a sequence of operations. *)
Definition sample_ops : list Op :=
  (AddVertex <$> sample_names) ++
  [AddEdge "Alice" "Bob"; AddEdge "Alice" "Carol"; AddEdge "Bob" "Dave";
   AddEdge "Carol" "Eve"; AddEdge "Eve" "Frank"; AddEdge "Bob" "Carol";
   AddEdge "Dave" "Frank"].

Definition is_add (o : Op) : bool :=
  match o with
  | AddVertex _ | AddEdge _ _ => true
  | _ => false
  end.

Definition is_add_edge (o : Op) : bool :=
  match o with
  | AddEdge _ _ => true
  | _ => false
  end.

(** Additions only, no vertex added after an edge. *)
Fixpoint adds_in_order (l : list Op) : bool :=
  match l with
  | [] => true
  | AddVertex _ :: rest => forallb is_add rest && adds_in_order rest
  | AddEdge _ _ :: rest => forallb is_add_edge rest && adds_in_order rest
  | _ => false
  end.

(** * Reasoning principles *)

(** ** The monad and the arrays *)

Lemma exec_bind {A B} (m : St A) (k : A → St B) g :
  exec (m ≫= k) g = exec (k (eval m g)) (exec m g).
Proof. reflexivity. Qed.

Lemma eval_bind {A B} (m : St A) (k : A → St B) g :
  eval (m ≫= k) g = eval (k (eval m g)) (exec m g).
Proof. reflexivity. Qed.

Lemma exec_ret {A} (a : A) g : exec (mret a) g = g.
Proof. reflexivity. Qed.

Lemma eval_ret {A} (a : A) g : eval (mret a) g = a.
Proof. reflexivity. Qed.

Lemma exec_gets {A} (f : Graph → A) g : exec (gets f) g = g.
Proof. reflexivity. Qed.

Lemma eval_gets {A} (f : Graph → A) g : eval (gets f) g = f g.
Proof. reflexivity. Qed.

Lemma exec_modify f g : exec (modify f) g = f g.
Proof. reflexivity. Qed.

Lemma alen_set {A} (a : list A) i x : alen (arr_set a i x) = alen a.
Proof. unfold alen, arr_set. by rewrite length_insert. Qed.

Lemma arr_get_set_eq {A} `{Inhabited A} (a : list A) i x :
  0 ≤ i < alen a → arr_get (arr_set a i x) i = x.
Proof.
  unfold alen, arr_get, arr_set. intros Hi.
  apply list_lookup_total_insert_eq. lia.
Qed.

Lemma arr_get_set_ne {A} `{Inhabited A} (a : list A) i j x :
  0 ≤ i → 0 ≤ j → i ≠ j → arr_get (arr_set a i x) j = arr_get a j.
Proof.
  unfold arr_get, arr_set. intros Hi Hj Hne.
  apply list_lookup_total_insert_ne. lia.
Qed.

Lemma arr_get_set {A} `{Inhabited A} (a : list A) i j x :
  0 ≤ i < alen a → 0 ≤ j →
  arr_get (arr_set a i x) j = if decide (j = i) then x else arr_get a j.
Proof.
  intros Hi Hj. case_decide as Hd.
  - subst j. by apply arr_get_set_eq.
  - apply arr_get_set_ne; lia.
Qed.

Lemma arr_get_replicate {A} `{Inhabited A} (x : A) k i :
  0 ≤ i < Z.of_nat k → arr_get (replicate k x) i = x.
Proof.
  intros Hi. unfold arr_get. apply list_lookup_total_correct.
  apply lookup_replicate_2. lia.
Qed.

(** Two arrays with the same length and the same cells are equal. *)
Lemma arr_ext {A} `{Inhabited A} (a b : list A) :
  alen a = alen b →
  (∀ i, 0 ≤ i < alen a → arr_get a i = arr_get b i) →
  a = b.
Proof.
  unfold alen, arr_get. intros Hlen Hcell.
  apply list_eq_same_length with (length a); [lia | done |].
  intros i x y Hi Hx Hy.
  specialize (Hcell (Z.of_nat i)). rewrite Nat2Z.id in Hcell.
  rewrite (list_lookup_total_correct _ _ _ Hx) in Hcell.
  rewrite (list_lookup_total_correct _ _ _ Hy) in Hcell.
  apply Hcell. lia.
Qed.

(** ** Counted loops *)

Lemma for_range_inv (I : Z → Graph → Prop) body cnt lo g :
  I lo g →
  (∀ i s, lo ≤ i < lo + Z.of_nat cnt → I i s → I (i + 1) (exec (body i) s)) →
  I (lo + Z.of_nat cnt) (exec (for_range cnt lo body) g).
Proof.
  revert lo g. induction cnt as [|c IH]; intros lo g H0 Hstep.
  - simpl. by replace (lo + Z.of_nat 0) with lo by lia.
  - simpl for_range. rewrite exec_bind.
    replace (lo + Z.of_nat (S c)) with ((lo + 1) + Z.of_nat c) by lia.
    apply IH.
    + apply Hstep; [lia | done].
    + intros i s Hi. apply Hstep. lia.
Qed.

Lemma for_loop_inv (I : Z → Graph → Prop) body lo hi g :
  lo ≤ hi →
  I lo g →
  (∀ i s, lo ≤ i < hi → I i s → I (i + 1) (exec (body i) s)) →
  I hi (exec (for_loop lo hi body) g).
Proof.
  intros Hle H0 Hstep. unfold for_loop.
  replace hi with (lo + Z.of_nat (Z.to_nat (hi - lo))) at 1 by lia.
  apply for_range_inv; [done |].
  intros i s Hi. apply Hstep. lia.
Qed.

Lemma for_loop_empty body lo hi g :
  hi ≤ lo → exec (for_loop lo hi body) g = g.
Proof.
  intros Hle. unfold for_loop.
  by replace (Z.to_nat (hi - lo)) with 0%nat by lia.
Qed.

(** ** Single writes *)

Section writes.
Context (g : Graph) (Hs : shape g).

Lemma shape_set_adj i j x :
0 ≤ i < MAX_VERTICES → shape (exec (set_adj i j x) g).
Proof.
intros Hi. destruct Hs as [Hv Hr Hc]. split; simpl.
- done.
- by rewrite alen_set.
- intros a Ha. rewrite arr_get_set by lia.
  case_decide; [subst; rewrite alen_set|]; by apply Hc.
Qed.

Lemma cell_set_adj i j x a b :
0 ≤ i < MAX_VERTICES → 0 ≤ j < MAX_VERTICES → 0 ≤ a → 0 ≤ b →
cell (exec (set_adj i j x) g) a b =
  if decide (a = i ∧ b = j) then x else cell g a b.
Proof.
intros Hi Hj Ha Hb. destruct Hs as [Hv Hr Hc]. unfold cell. simpl.
rewrite arr_get_set by lia.
destruct (decide (a = i)) as [->|Hai].
- rewrite arr_get_set by (rewrite ?Hc; lia).
  destruct (decide (b = j)) as [->|Hbj].
  + by rewrite decide_True.
  + rewrite decide_False; [done | tauto].
- rewrite decide_False; [done | tauto].
Qed.

Lemma shape_with_vertices vs :
alen vs = MAX_VERTICES → shape (with_vertices g vs).
Proof. intros H. destruct Hs. by split. Qed.

Lemma shape_set_head i l : shape (exec (set_head i l) g).
Proof. apply shape_with_vertices. rewrite alen_set. apply Hs. Qed.

Lemma shape_set_name i s : shape (exec (set_name i s) g).
Proof. apply shape_with_vertices. rewrite alen_set. apply Hs. Qed.

Lemma shape_set_vertex i x : shape (exec (set_vertex i x) g).
Proof. apply shape_with_vertices. rewrite alen_set. apply Hs. Qed.

Lemma shape_set_n k : shape (exec (set_n k) g).
Proof. destruct Hs. by split. Qed.

Lemma vertex_set_head i l a :
0 ≤ i < MAX_VERTICES → 0 ≤ a →
arr_get (vertices (exec (set_head i l) g)) a =
  if decide (a = i) then mkVertex (nm_of g i) l
  else arr_get (vertices g) a.
Proof.
intros Hi Ha. simpl. apply arr_get_set; [|done].
rewrite (shape_vertices _ Hs). lia.
Qed.

Lemma vertex_set_name i s a :
0 ≤ i < MAX_VERTICES → 0 ≤ a →
arr_get (vertices (exec (set_name i s) g)) a =
  if decide (a = i) then mkVertex s (hd_of g i)
  else arr_get (vertices g) a.
Proof.
intros Hi Ha. simpl. apply arr_get_set; [|done].
rewrite (shape_vertices _ Hs). lia.
Qed.

Lemma vertex_set_vertex i x a :
  0 ≤ i < MAX_VERTICES → 0 ≤ a →
  arr_get (vertices (exec (set_vertex i x) g)) a =
    if decide (a = i) then x else arr_get (vertices g) a.
Proof.
  intros Hi Ha. simpl. apply arr_get_set; [|done].
  rewrite (shape_vertices _ Hs). lia.
Qed.
End writes.

(** ** Reads *)

Lemma exec_get_n g : exec get_n g = g.
Proof. reflexivity. Qed.
Lemma eval_get_n g : eval get_n g = n g.
Proof. reflexivity. Qed.
Lemma exec_get_name i g : exec (get_name i) g = g.
Proof. reflexivity. Qed.
Lemma eval_get_name i g : eval (get_name i) g = nm_of g i.
Proof. reflexivity. Qed.
Lemma exec_get_head i g : exec (get_head i) g = g.
Proof. reflexivity. Qed.
Lemma eval_get_head i g : eval (get_head i) g = hd_of g i.
Proof. reflexivity. Qed.
Lemma exec_get_vertex i g : exec (get_vertex i) g = g.
Proof. reflexivity. Qed.
Lemma eval_get_vertex i g : eval (get_vertex i) g = arr_get (vertices g) i.
Proof. reflexivity. Qed.
Lemma exec_get_adj i j g : exec (get_adj i j) g = g.
Proof. reflexivity. Qed.
Lemma eval_get_adj i j g : eval (get_adj i j) g = cell g i j.
Proof. reflexivity. Qed.

Create Rewrite HintDb st.
#[global] Hint Rewrite @exec_bind @eval_bind @exec_ret @eval_ret
  exec_get_n eval_get_n exec_get_name eval_get_name
  exec_get_head eval_get_head exec_get_vertex eval_get_vertex
  exec_get_adj eval_get_adj : st.

Ltac st := autorewrite with st.

(** * The operations preserve the invariant *)

(** ** [find_vertex_index] *)

Lemma find_from_exec cnt i s g : exec (find_from cnt i s) g = g.
Proof.
  revert i. induction cnt as [|c IH]; intros i; [done|].
  simpl find_from. st.
  destruct (name_matches _ s); [done|]. apply IH.
Qed.

Lemma find_from_spec cnt i s g :
  (eval (find_from cnt i s) g = -1 ∧
   ∀ k, i ≤ k < i + Z.of_nat cnt → name_matches (nm_of g k) s = false) ∨
  (i ≤ eval (find_from cnt i s) g < i + Z.of_nat cnt ∧
   name_matches (nm_of g (eval (find_from cnt i s) g)) s = true ∧
   ∀ k, i ≤ k < eval (find_from cnt i s) g →
     name_matches (nm_of g k) s = false).
Proof.
  revert i. induction cnt as [|c IH]; intros i.
  - left. split; [done | intros k Hk; lia].
  - simpl find_from. st.
    destruct (name_matches (nm_of g i) s) eqn:E; st.
    + right. split; [lia|]. split; [done | intros k Hk; lia].
    + destruct (IH (i + 1)) as [[Hr Hall]|(Hr & Hm & Hall)].
      * left. split; [done|]. intros k Hk.
        destruct (decide (k = i)) as [->|]; [done | apply Hall; lia].
      * right. split; [lia|]. split; [done|]. intros k Hk.
        destruct (decide (k = i)) as [->|]; [done | apply Hall; lia].
Qed.

Lemma find_vertex_index_exec s g : exec (find_vertex_index s) g = g.
Proof. unfold find_vertex_index. st. apply find_from_exec. Qed.

Lemma find_vertex_index_spec s g :
  (eval (find_vertex_index s) g = -1 ∧
   ∀ k, 0 ≤ k < n g → name_matches (nm_of g k) s = false) ∨
  (0 ≤ eval (find_vertex_index s) g < n g ∧
   name_matches (nm_of g (eval (find_vertex_index s) g)) s = true ∧
   ∀ k, 0 ≤ k < eval (find_vertex_index s) g →
     name_matches (nm_of g k) s = false).
Proof.
  unfold find_vertex_index. st.
  destruct (find_from_spec (Z.to_nat (n g)) 0 s g) as [[Hr Hall]|(Hr & Hm & Hall)].
  - left. split; [done|]. intros k Hk. apply Hall. lia.
  - right. split; [lia|]. done.
Qed.

(** ** [add_vertex] *)

Lemma add_vertex_exec s g :
  exec (add_vertex s) g =
    if n g >=? MAX_VERTICES then g
    else if negb (eval (find_vertex_index s) g =? -1) then g
    else exec (set_n (n g + 1)) (exec (set_head (n g) []) (exec (set_name (n g) (Some s)) g)).
Proof.
  unfold add_vertex. st. destruct (n g >=? MAX_VERTICES); st; [done|].
  rewrite find_vertex_index_exec.
  destruct (negb _); st; done.
Qed.

Section vertex_writes.
Context (g : Graph) (Hs : shape g).

Lemma hd_set_head i l a :
0 ≤ i < MAX_VERTICES → 0 ≤ a →
hd_of (exec (set_head i l) g) a = if decide (a = i) then l else hd_of g a.
Proof.
intros Hi Ha. unfold hd_of. rewrite vertex_set_head by done.
by case_decide.
Qed.

Lemma nm_set_head i l a :
0 ≤ i < MAX_VERTICES → 0 ≤ a →
nm_of (exec (set_head i l) g) a = nm_of g a.
Proof.
intros Hi Ha. unfold nm_of at 1. rewrite vertex_set_head by done.
case_decide; by subst.
Qed.

Lemma hd_set_name i s a :
0 ≤ i < MAX_VERTICES → 0 ≤ a →
hd_of (exec (set_name i s) g) a = hd_of g a.
Proof.
intros Hi Ha. unfold hd_of at 1. rewrite vertex_set_name by done.
case_decide; by subst.
Qed.

Lemma nm_set_name i s a :
  0 ≤ i < MAX_VERTICES → 0 ≤ a →
  nm_of (exec (set_name i s) g) a = if decide (a = i) then s else nm_of g a.
Proof.
  intros Hi Ha. unfold nm_of. rewrite vertex_set_name by done.
  by case_decide.
Qed.
End vertex_writes.

Lemma add_vertex_wf s g : wf g → wf (exec (add_vertex s) g).
Proof.
  intros Hwf. rewrite add_vertex_exec.
  destruct (n g >=? MAX_VERTICES) eqn:Hfull; [done|].
  destruct (negb _); [done|].
  destruct Hwf as [Hs Hn Hent Hnd Hmir Hbit Hsym Hirr Hbl].
  assert (Hlt : 0 ≤ n g < MAX_VERTICES) by lia.
  set (g1 := exec (set_name (n g) (Some s)) g).
  assert (Hs1 : shape g1) by by apply shape_set_name.
  set (g2 := exec (set_head (n g) []) g1).
  assert (Hs2 : shape g2) by by apply shape_set_head.
  assert (Hhd : ∀ a, 0 ≤ a →
    hd_of (exec (set_n (n g + 1)) g2) a = if decide (a = n g) then [] else hd_of g a).
  { intros a Ha. change (hd_of (exec (set_n (n g + 1)) g2) a) with (hd_of g2 a).
    unfold g2. rewrite hd_set_head by done. case_decide; [done|].
    unfold g1. by rewrite hd_set_name. }
  split.
  - by apply shape_set_n.
  - simpl. lia.
  - intros i v Hi. rewrite Hhd by lia. simpl in Hi. case_decide.
    + by intros ?%elem_of_nil.
    + intros Hv. apply Hent in Hv; simpl; lia.
  - intros i Hi. rewrite Hhd by lia. simpl in Hi. case_decide.
    + constructor.
    + apply Hnd. lia.
  - intros i j Hi Hj. rewrite Hhd by lia. simpl in Hi, Hj.
    change (cell (exec (set_n (n g + 1)) g2) i j) with (cell g i j).
    case_decide as Hin.
    + rewrite Hbl by lia. split; [done | by intros ?%elem_of_nil].
    + destruct (decide (j = n g)) as [->|Hjn].
      * rewrite Hsym, Hbl by lia. split; [done|].
        intros Hv. apply Hent in Hv; lia.
      * apply Hmir; lia.
  - apply Hbit.
  - apply Hsym.
  - apply Hirr.
  - intros i j Hi Hj Hni. simpl in Hni. apply Hbl; lia.
Qed.

(** ** [add_edge_by_index] *)

Lemma add_edge_by_index_run u v g :
  add_edge_by_index u v g =
    if (u <? 0) || (u >=? n g) || (v <? 0) || (v >=? n g) then (-1, g)
    else if u =? v then (-1, g)
    else if negb (cell g u v =? 0) then (-1, g)
    else (0, add_edge_state u v g).
Proof.
  unfold add_edge_by_index.
  cbv [mbind St_mbind St_bind mret St_mret St_ret get_n gets get_adj get_head].
  cbn [fst snd].
  destruct (_ || _); [done|]. destruct (u =? v); [done|].
  fold (cell g u v). destruct (negb _); [done|]. reflexivity.
Qed.

Section add_edge_state.
Context (g : Graph) (Hs : shape g) (u v : Z).
Context (Hu : 0 ≤ u < MAX_VERTICES) (Hv : 0 ≤ v < MAX_VERTICES) (Huv : u ≠ v).

Lemma add_edge_state_shape : shape (add_edge_state u v g).
Proof.
unfold add_edge_state.
apply shape_set_adj; [|done]. apply shape_set_adj; [|done].
apply shape_set_head. by apply shape_set_head.
Qed.

Lemma add_edge_state_n : n (add_edge_state u v g) = n g.
Proof. reflexivity. Qed.

Lemma add_edge_state_hd a :
0 ≤ a →
hd_of (add_edge_state u v g) a =
  if decide (a = u) then v :: hd_of g u
  else if decide (a = v) then u :: hd_of g v
  else hd_of g a.
Proof.
intros Ha. unfold add_edge_state.
set (g1 := exec (set_head u (v :: hd_of g u)) g).
assert (Hs1 : shape g1) by by apply shape_set_head.
change (hd_of (exec (set_head v (u :: hd_of g1 v)) g1) a =
  if decide (a = u) then v :: hd_of g u
  else if decide (a = v) then u :: hd_of g v else hd_of g a).
rewrite hd_set_head by done. unfold g1.
rewrite !hd_set_head by (done || lia).
repeat case_decide; subst; done.
Qed.

Lemma add_edge_state_cell a b :
  0 ≤ a → 0 ≤ b →
  cell (add_edge_state u v g) a b =
    if decide ((a = u ∧ b = v) ∨ (a = v ∧ b = u)) then 1 else cell g a b.
Proof.
  intros Ha Hb. unfold add_edge_state.
  set (g1 := exec (set_head u (v :: hd_of g u)) g).
  set (g2 := exec (set_head v (u :: hd_of g1 v)) g1).
  assert (Hs2 : shape g2) by (apply shape_set_head; by apply shape_set_head).
  rewrite cell_set_adj by (done || by apply shape_set_adj).
  rewrite cell_set_adj by done.
  change (cell g2 a b) with (cell g a b).
  repeat case_decide; (done || tauto).
Qed.
End add_edge_state.

Lemma add_edge_by_index_wf u v g : wf g → wf (exec (add_edge_by_index u v) g).
Proof.
  intros Hwf. unfold exec. rewrite add_edge_by_index_run.
  destruct (_ || _) eqn:Hrange; [done|].
  destruct (u =? v) eqn:Huv; [done|].
  destruct (negb _) eqn:Hcell; [done|]. simpl.
  destruct Hwf as [Hs Hn Hent Hnd Hmir Hbit Hsym Hirr Hbl].
  assert (Hu : 0 ≤ u < n g) by lia. assert (Hv : 0 ≤ v < n g) by lia.
  assert (Hne : u ≠ v) by lia.
  assert (Hc0 : cell g u v = 0) by (apply negb_false_iff in Hcell; lia).
  assert (Hnin : v ∉ hd_of g u).
  { intros Hin. apply Hmir in Hin; [|done..]. lia. }
  assert (Hnin' : u ∉ hd_of g v).
  { intros Hin. apply Hmir in Hin; [|done..]. rewrite Hsym in Hin by lia. lia. }
  split.
  - apply add_edge_state_shape; (done || lia).
  - by rewrite add_edge_state_n.
  - intros i w. rewrite add_edge_state_n. intros Hi.
    rewrite add_edge_state_hd by (done || lia).
    repeat case_decide; subst; rewrite ?elem_of_cons;
      try (intros [->|Hw]; [lia|]); try intros Hw; by eapply Hent.
  - intros i. rewrite add_edge_state_n. intros Hi.
    rewrite add_edge_state_hd by (done || lia).
    repeat case_decide; subst; rewrite ?NoDup_cons; auto.
  - intros i j. rewrite add_edge_state_n. intros Hi Hj.
    rewrite add_edge_state_hd, add_edge_state_cell by (done || lia).
    specialize (Hmir i j Hi Hj).
    repeat case_decide; subst; rewrite ?elem_of_cons; try tauto;
      try (split; [intros H'; right; tauto | intros [->|H']; [tauto | tauto]]).
    all: split; auto.
  - intros i j Hi Hj. rewrite add_edge_state_cell by (done || lia).
    case_decide; auto.
  - intros i j Hi Hj. rewrite !add_edge_state_cell by (done || lia).
    repeat case_decide; try tauto; try done. by apply Hsym.
  - intros i Hi. rewrite add_edge_state_cell by (done || lia).
    case_decide; [lia | by apply Hirr].
  - intros i j Hi Hj. rewrite add_edge_state_n. intros Hni.
    rewrite add_edge_state_cell by (done || lia).
    case_decide; [lia | by apply Hbl].
Qed.

(** ** [remove_edge_by_index] *)

Lemma elem_of_unlink_first l v x :
  NoDup l → x ∈ unlink_first l v ↔ x ∈ l ∧ x ≠ v.
Proof.
  induction 1 as [|y l Hy Hnd IH]; simpl.
  - split; [by intros ?%elem_of_nil | by intros [?%elem_of_nil _]].
  - destruct (y =? v) eqn:E.
    + apply Z.eqb_eq in E. subst y. rewrite elem_of_cons.
      split; [|intros [[->|?] ?]; done].
      intros Hx. split; [by right|]. by intros ->.
    + apply Z.eqb_neq in E. rewrite !elem_of_cons, IH.
      split; [intros [->|[??]]|intros [[->|?] ?]]; auto.
Qed.

Lemma NoDup_unlink_first l v : NoDup l → NoDup (unlink_first l v).
Proof.
  induction 1 as [|y l Hy Hnd IH]; simpl; [constructor|].
  destruct (y =? v); [done|].
  constructor; [|done]. rewrite elem_of_unlink_first by done. tauto.
Qed.

Lemma remove_edge_by_index_run u v g :
  remove_edge_by_index u v g =
    if (u <? 0) || (v <? 0) || (u >=? n g) || (v >=? n g) then (-1, g)
    else if cell g u v =? 0 then (-1, g)
    else (0, remove_edge_state u v g).
Proof.
  unfold remove_edge_by_index.
  cbv [mbind St_mbind St_bind mret St_mret St_ret get_n gets get_adj get_head].
  cbn [fst snd].
  destruct (_ || _); [done|].
  fold (cell g u v). destruct (_ =? 0); [done|]. reflexivity.
Qed.

Section remove_edge_state.
Context (g : Graph) (Hs : shape g) (u v : Z).
Context (Hu : 0 ≤ u < MAX_VERTICES) (Hv : 0 ≤ v < MAX_VERTICES) (Huv : u ≠ v).

Lemma remove_edge_state_shape : shape (remove_edge_state u v g).
Proof.
unfold remove_edge_state.
apply shape_set_adj; [|done]. apply shape_set_adj; [|done].
apply shape_set_head. by apply shape_set_head.
Qed.

Lemma remove_edge_state_n : n (remove_edge_state u v g) = n g.
Proof. reflexivity. Qed.

Lemma remove_edge_state_hd a :
0 ≤ a →
hd_of (remove_edge_state u v g) a =
  if decide (a = u) then unlink_first (hd_of g u) v
  else if decide (a = v) then unlink_first (hd_of g v) u
  else hd_of g a.
Proof.
intros Ha. unfold remove_edge_state.
set (g1 := exec (set_head u (unlink_first (hd_of g u) v)) g).
assert (Hs1 : shape g1) by by apply shape_set_head.
change (hd_of (exec (set_head v (unlink_first (hd_of g1 v) u)) g1) a =
  if decide (a = u) then unlink_first (hd_of g u) v
  else if decide (a = v) then unlink_first (hd_of g v) u else hd_of g a).
rewrite hd_set_head by done. unfold g1.
rewrite !hd_set_head by (done || lia).
repeat case_decide; subst; done.
Qed.

Lemma remove_edge_state_cell a b :
  0 ≤ a → 0 ≤ b →
  cell (remove_edge_state u v g) a b =
    if decide ((a = u ∧ b = v) ∨ (a = v ∧ b = u)) then 0 else cell g a b.
Proof.
  intros Ha Hb. unfold remove_edge_state.
  set (g1 := exec (set_head u (unlink_first (hd_of g u) v)) g).
  set (g2 := exec (set_head v (unlink_first (hd_of g1 v) u)) g1).
  assert (Hs2 : shape g2) by (apply shape_set_head; by apply shape_set_head).
  rewrite cell_set_adj by (done || by apply shape_set_adj).
  rewrite cell_set_adj by done.
  change (cell g2 a b) with (cell g a b).
  repeat case_decide; (done || tauto).
Qed.
End remove_edge_state.

Lemma remove_edge_by_index_wf u v g :
  wf g → wf (exec (remove_edge_by_index u v) g).
Proof.
  intros Hwf. unfold exec. rewrite remove_edge_by_index_run.
  destruct (_ || _) eqn:Hrange; [done|].
  destruct (_ =? 0) eqn:Hcell; [done|]. simpl.
  destruct Hwf as [Hs Hn Hent Hnd Hmir Hbit Hsym Hirr Hbl].
  assert (Hu : 0 ≤ u < n g) by lia. assert (Hv : 0 ≤ v < n g) by lia.
  assert (Hne : u ≠ v).
  { intros ->. rewrite Hirr in Hcell by lia. done. }
  split.
  - apply remove_edge_state_shape; (done || lia).
  - by rewrite remove_edge_state_n.
  - intros i w. rewrite remove_edge_state_n. intros Hi.
    rewrite remove_edge_state_hd by (done || lia).
    repeat case_decide; subst; rewrite ?elem_of_unlink_first by auto;
      try intros [Hw _]; try intros Hw; by eapply Hent.
  - intros i. rewrite remove_edge_state_n. intros Hi.
    rewrite remove_edge_state_hd by (done || lia).
    repeat case_decide; subst; auto using NoDup_unlink_first.
  - intros i j. rewrite remove_edge_state_n. intros Hi Hj.
    rewrite remove_edge_state_hd, remove_edge_state_cell by (done || lia).
    specialize (Hmir i j Hi Hj).
    repeat case_decide; subst; rewrite ?elem_of_unlink_first by auto;
      try tauto; split; try tauto; try done; intros [??]; tauto.
  - intros i j Hi Hj. rewrite remove_edge_state_cell by (done || lia).
    case_decide; auto.
  - intros i j Hi Hj. rewrite !remove_edge_state_cell by (done || lia).
    repeat case_decide; try tauto; try done. by apply Hsym.
  - intros i Hi. rewrite remove_edge_state_cell by (done || lia).
    case_decide; [lia | by apply Hirr].
  - intros i j Hi Hj. rewrite remove_edge_state_n. intros Hni.
    rewrite remove_edge_state_cell by (done || lia).
    case_decide; [lia | by apply Hbl].
Qed.

(** ** [remove_vertex_by_index]: the loops *)

Lemma mat_step_refl g : shape g → mat_step g g (cell g).
Proof. intros Hs. by split_and!. Qed.

Lemma vtx_step_refl g : shape g → vtx_step g g (arr_get (vertices g)).
Proof. intros Hs. by split_and!. Qed.

Lemma mat_step_set_adj g g' f i j x :
  mat_step g g' f → 0 ≤ i < MAX_VERTICES → 0 ≤ j < MAX_VERTICES →
  mat_step g (exec (set_adj i j x) g')
    (λ a b, if decide (a = i ∧ b = j) then x else f a b).
Proof.
  intros (Hs & Hn & Hv & Hc) Hi Hj. split_and!; try done.
  - by apply shape_set_adj.
  - intros a b Ha Hb. rewrite cell_set_adj by done.
    case_decide; [done | by apply Hc].
Qed.

Lemma mat_step_ext g g' f f' :
  mat_step g g' f → (∀ a b, 0 ≤ a → 0 ≤ b → f a b = f' a b) →
  mat_step g g' f'.
Proof.
  intros (Hs & Hn & Hv & Hc) Hf. split_and!; try done.
  intros a b Ha Hb. rewrite Hc by done. by apply Hf.
Qed.

Lemma vtx_step_ext g g' f f' :
  vtx_step g g' f → (∀ a, 0 ≤ a → f a = f' a) → vtx_step g g' f'.
Proof.
  intros (Hs & Hn & Hv & Hc) Hf. split_and!; try done.
  intros a Ha. rewrite Hc by done. by apply Hf.
Qed.

(** [for (j = 0; j < m; ++j) M[dst][j] = M[src][j]] *)
Lemma copy_row_spec g src dst m :
  shape g → 0 ≤ src → 0 ≤ dst < MAX_VERTICES → src ≠ dst →
  0 ≤ m ≤ MAX_VERTICES →
  mat_step g
    (exec (for_loop 0 m (λ j, x ← get_adj src j; set_adj dst j x)) g)
    (λ a b, if decide (a = dst ∧ b < m) then cell g src b else cell g a b).
Proof.
  intros Hs Hsrc Hdst Hne Hm.
  pose (I := λ (k : Z) (s : Graph), mat_step g s
    (λ a b, if decide (a = dst ∧ b < k) then cell g src b else cell g a b)).
  change (I m (exec (for_loop 0 m (λ j, x ← get_adj src j; set_adj dst j x)) g)).
  apply for_loop_inv; unfold I; [lia | |].
  - eapply mat_step_ext; [by apply mat_step_refl|].
    intros a b Ha Hb. simpl. case_decide; [lia | done].
  - intros j s Hj Hstep. st.
    eapply mat_step_ext; [apply mat_step_set_adj; [apply Hstep | lia..]|].
    intros a b Ha Hb. simpl. destruct Hstep as (_ & _ & _ & Hc).
    rewrite Hc by lia. rewrite (decide_False (P := src = dst ∧ _)) by lia.
    repeat case_decide; destruct_and?; subst; (done || lia).
Qed.

(** [for (i = 0; i < m; ++i) M[i][dst] = M[i][src]] *)
Lemma copy_col_spec g src dst m :
  shape g → 0 ≤ src → 0 ≤ dst < MAX_VERTICES → src ≠ dst →
  0 ≤ m ≤ MAX_VERTICES →
  mat_step g
    (exec (for_loop 0 m (λ i, x ← get_adj i src; set_adj i dst x)) g)
    (λ a b, if decide (b = dst ∧ a < m) then cell g a src else cell g a b).
Proof.
  intros Hs Hsrc Hdst Hne Hm.
  pose (I := λ (k : Z) (s : Graph), mat_step g s
    (λ a b, if decide (b = dst ∧ a < k) then cell g a src else cell g a b)).
  change (I m (exec (for_loop 0 m (λ i, x ← get_adj i src; set_adj i dst x)) g)).
  apply for_loop_inv; unfold I; [lia | |].
  - eapply mat_step_ext; [by apply mat_step_refl|].
    intros a b Ha Hb. simpl. case_decide; [lia | done].
  - intros i s Hi Hstep. st.
    eapply mat_step_ext; [apply mat_step_set_adj; [apply Hstep | lia..]|].
    intros a b Ha Hb. simpl. destruct Hstep as (_ & _ & _ & Hc).
    rewrite Hc by lia. rewrite (decide_False (P := src = dst ∧ _)) by lia.
    repeat case_decide; destruct_and?; subst; (done || lia).
Qed.

Lemma mat_step_trans g s s' f f' :
  mat_step g s f → mat_step s s' f' → mat_step g s' f'.
Proof.
  intros (Hs & Hn & Hv & Hc) (Hs' & Hn' & Hv' & Hc').
  split_and!; [done | congruence | congruence | done].
Qed.

Lemma vtx_step_trans g s s' f f' :
  vtx_step g s f → vtx_step s s' f' → vtx_step g s' f'.
Proof.
  intros (Hs & Hn & Hv & Hc) (Hs' & Hn' & Hv' & Hc').
  split_and!; [done | congruence | congruence | done].
Qed.

Ltac cases := repeat case_decide; destruct_and?; subst; try (done || lia).

Lemma shift_rows_spec g t cnt :
  shape g → 0 ≤ t ≤ cnt - 1 → cnt ≤ MAX_VERTICES →
  mat_step g (exec (shift_rows t cnt) g)
    (λ a b, if decide (t ≤ a < cnt - 1 ∧ b < cnt)
            then cell g (a + 1) b else cell g a b).
Proof.
  intros Hs Ht Hcnt.
  pose (I := λ (k : Z) (s : Graph), mat_step g s
    (λ a b, if decide (t ≤ a < k ∧ b < cnt)
            then cell g (a + 1) b else cell g a b)).
  change (I (cnt - 1) (exec (shift_rows t cnt) g)).
  unfold shift_rows. apply for_loop_inv; unfold I; [lia | |].
  - eapply mat_step_ext; [by apply mat_step_refl|].
    intros a b Ha Hb. simpl. cases.
  - intros i s Hi Hstep.
    eapply mat_step_ext.
    { eapply mat_step_trans; [apply Hstep|].
      apply copy_row_spec; [apply Hstep | lia..]. }
    intros a b Ha Hb. simpl. destruct Hstep as (_ & _ & _ & Hc).
    rewrite !Hc by lia. cases.
Qed.

Lemma shift_cols_spec g t cnt :
  shape g → 0 ≤ t ≤ cnt - 1 → cnt ≤ MAX_VERTICES →
  mat_step g (exec (shift_cols t cnt) g)
    (λ a b, if decide (t ≤ b < cnt - 1 ∧ a < cnt - 1)
            then cell g a (b + 1) else cell g a b).
Proof.
  intros Hs Ht Hcnt.
  pose (I := λ (k : Z) (s : Graph), mat_step g s
    (λ a b, if decide (t ≤ b < k ∧ a < cnt - 1)
            then cell g a (b + 1) else cell g a b)).
  change (I (cnt - 1) (exec (shift_cols t cnt) g)).
  unfold shift_cols. apply for_loop_inv; unfold I; [lia | |].
  - eapply mat_step_ext; [by apply mat_step_refl|].
    intros a b Ha Hb. simpl. cases.
  - intros j s Hj Hstep.
    eapply mat_step_ext.
    { eapply mat_step_trans; [apply Hstep|].
      apply copy_col_spec; [apply Hstep | lia..]. }
    intros a b Ha Hb. simpl. destruct Hstep as (_ & _ & _ & Hc).
    rewrite !Hc by lia. cases.
Qed.

Lemma clear_last_spec g cnt :
  shape g → 1 ≤ cnt ≤ MAX_VERTICES →
  mat_step g (exec (clear_last cnt) g)
    (λ a b, if decide ((a = cnt - 1 ∧ b < cnt) ∨ (b = cnt - 1 ∧ a < cnt))
            then 0 else cell g a b).
Proof.
  intros Hs Hcnt.
  pose (I := λ (k : Z) (s : Graph), mat_step g s
    (λ a b, if decide ((a = cnt - 1 ∧ b < k) ∨ (b = cnt - 1 ∧ a < k))
            then 0 else cell g a b)).
  change (I cnt (exec (clear_last cnt) g)).
  unfold clear_last. apply for_loop_inv; unfold I; [lia | |].
  - eapply mat_step_ext; [by apply mat_step_refl|].
    intros a b Ha Hb. simpl. cases.
  - intros i s Hi Hstep. st.
    eapply mat_step_ext.
    { apply mat_step_set_adj; [|lia..].
      apply mat_step_set_adj; [apply Hstep | lia..]. }
    intros a b Ha Hb. simpl. cases.
Qed.

Lemma vtx_step_set_head g g' f i l :
  vtx_step g g' f → 0 ≤ i < MAX_VERTICES →
  vtx_step g (exec (set_head i l) g')
    (λ a, if decide (a = i) then mkVertex (name (f i)) l else f a).
Proof.
  intros (Hs & Hn & Hm & Hc) Hi. split_and!; try done.
  - by apply shape_set_head.
  - intros a Ha. rewrite vertex_set_head by done. unfold nm_of.
    rewrite Hc by lia. case_decide; [done | by apply Hc].
Qed.

Lemma vtx_step_set_name g g' f i s :
  vtx_step g g' f → 0 ≤ i < MAX_VERTICES →
  vtx_step g (exec (set_name i s) g')
    (λ a, if decide (a = i) then mkVertex s (head (f i)) else f a).
Proof.
  intros (Hs & Hn & Hm & Hc) Hi. split_and!; try done.
  - by apply shape_set_name.
  - intros a Ha. rewrite vertex_set_name by done. unfold hd_of.
    rewrite Hc by lia. case_decide; [done | by apply Hc].
Qed.

Lemma vtx_step_set_vertex g g' f i x :
  vtx_step g g' f → 0 ≤ i < MAX_VERTICES →
  vtx_step g (exec (set_vertex i x) g')
    (λ a, if decide (a = i) then x else f a).
Proof.
  intros (Hs & Hn & Hm & Hc) Hi. split_and!; try done.
  - by apply shape_set_vertex.
  - intros a Ha. rewrite vertex_set_vertex by done.
    case_decide; [done | by apply Hc].
Qed.

Lemma map_heads_spec g skip f lo hi :
  shape g → 0 ≤ lo ≤ hi → hi ≤ MAX_VERTICES →
  vtx_step g (exec (map_heads skip f lo hi) g)
    (λ a, if decide (lo ≤ a < hi ∧ skip a = false)
          then mkVertex (nm_of g a) (f (hd_of g a))
          else arr_get (vertices g) a).
Proof.
  intros Hs Hlo Hhi.
  pose (I := λ (k : Z) (s : Graph), vtx_step g s
    (λ a, if decide (lo ≤ a < k ∧ skip a = false)
          then mkVertex (nm_of g a) (f (hd_of g a))
          else arr_get (vertices g) a)).
  change (I hi (exec (map_heads skip f lo hi) g)).
  unfold map_heads. apply for_loop_inv; unfold I; [lia | |].
  - eapply vtx_step_ext; [by apply vtx_step_refl|].
    intros a Ha. simpl. cases.
  - intros i s Hi Hstep. destruct (skip i) eqn:Hskip; st.
    + eapply vtx_step_ext; [apply Hstep|].
      intros a Ha. simpl. cases.
      all: destruct (decide (a = i)); [subst; congruence | exfalso; naive_solver lia].
    + eapply vtx_step_ext; [apply vtx_step_set_head; [apply Hstep | lia]|].
      intros a Ha. simpl. destruct Hstep as (_ & _ & _ & Hc).
      assert (Hh : hd_of s i = hd_of g i).
      { unfold hd_of. rewrite Hc by lia. rewrite decide_False by lia. done. }
      rewrite Hh. cases.
      all: try (exfalso; naive_solver lia).
Qed.

Lemma shift_vertices_spec g t cnt :
  shape g → 0 ≤ t ≤ cnt - 1 → cnt ≤ MAX_VERTICES →
  vtx_step g (exec (shift_vertices t cnt) g)
    (λ a, if decide (t ≤ a < cnt - 1)
          then arr_get (vertices g) (a + 1) else arr_get (vertices g) a).
Proof.
  intros Hs Ht Hcnt.
  pose (I := λ (k : Z) (s : Graph), vtx_step g s
    (λ a, if decide (t ≤ a < k)
          then arr_get (vertices g) (a + 1) else arr_get (vertices g) a)).
  change (I (cnt - 1) (exec (shift_vertices t cnt) g)).
  unfold shift_vertices. apply for_loop_inv; unfold I; [lia | |].
  - eapply vtx_step_ext; [by apply vtx_step_refl|].
    intros a Ha. simpl. cases.
  - intros i s Hi Hstep. st.
    eapply vtx_step_ext; [apply vtx_step_set_vertex; [apply Hstep | lia]|].
    intros a Ha. simpl. destruct Hstep as (_ & _ & _ & Hc).
    rewrite Hc by lia. cases.
Qed.

(** ** [remove_vertex_by_index]: the compacted graph *)

Lemma remove_vertex_by_index_run t g :
  remove_vertex_by_index t g =
    if (t <? 0) || (t >=? n g) then (-1, g)
    else (0, remove_vertex_state t g).
Proof.
  unfold remove_vertex_by_index.
  cbv [mbind St_mbind St_bind get_n gets]. cbn [fst snd].
  destruct (_ || _); reflexivity.
Qed.

Lemma remove_vertex_state_spec t g :
  shape g → 0 ≤ t < n g → n g ≤ MAX_VERTICES →
  shape (remove_vertex_state t g) ∧
  n (remove_vertex_state t g) = n g - 1 ∧
  (∀ a, 0 ≤ a < n g - 1 →
     arr_get (vertices (remove_vertex_state t g)) a =
       mkVertex (nm_of g (shift_up t a))
         (renumber_list
            (remove_occurrences_from_list (hd_of g (shift_up t a)) t) t)) ∧
  (∀ a b, 0 ≤ a → 0 ≤ b →
     cell (remove_vertex_state t g) a b =
       if decide (a < n g - 1 ∧ b < n g - 1)
       then cell g (shift_up t a) (shift_up t b)
       else if decide (a < n g ∧ b < n g) then 0 else cell g a b).
Proof.
  intros Hs Ht Hn. unfold remove_vertex_state.
  set (g1 := exec (map_heads _ _ 0 (n g)) g).
  set (g2 := exec (set_name t None) _).
  set (g3 := exec (shift_vertices t (n g)) g2).
  set (g4 := exec (set_name (n g - 1) None) _).
  set (g5 := exec (shift_rows t (n g)) g4).
  set (g6 := exec (shift_cols t (n g)) g5).
  set (g7 := exec (clear_last (n g)) g6).
  set (g8 := exec (map_heads _ _ 0 (n g - 1)) g7).
  pose proof (map_heads_spec g (λ i, i =? t)
    (λ h, remove_occurrences_from_list h t) 0 (n g) Hs ltac:(lia) Hn) as H1.
  fold g1 in H1.
  pose proof (vtx_step_set_name _ _ _ t None
    (vtx_step_set_head _ _ _ t [] H1 ltac:(lia)) ltac:(lia)) as H2.
  fold g2 in H2.
  assert (Hs2 : shape g2) by apply H2.
  pose proof (shift_vertices_spec g2 t (n g) Hs2 ltac:(lia) Hn) as H3.
  fold g3 in H3.
  pose proof (vtx_step_set_name _ _ _ (n g - 1) None
    (vtx_step_set_head _ _ _ (n g - 1) [] H3 ltac:(lia)) ltac:(lia)) as H4.
  fold g4 in H4.
  assert (Hs4 : shape g4) by apply H4.
  pose proof (shift_rows_spec g4 t (n g) Hs4 ltac:(lia) Hn) as H5.
  fold g5 in H5.
  assert (Hs5 : shape g5) by apply H5.
  pose proof (shift_cols_spec g5 t (n g) Hs5 ltac:(lia) Hn) as H6.
  fold g6 in H6.
  assert (Hs6 : shape g6) by apply H6.
  pose proof (clear_last_spec g6 (n g) Hs6 ltac:(lia)) as H7.
  fold g7 in H7.
  assert (Hs7 : shape g7) by apply H7.
  pose proof (map_heads_spec g7 (λ _, false)
    (λ h, renumber_list h t) 0 (n g - 1) Hs7 ltac:(lia) ltac:(lia)) as H8.
  fold g8 in H8.
  destruct H1 as (_ & _ & _ & V1).
  destruct H2 as (_ & N2 & M2 & V2).
  destruct H3 as (_ & N3 & M3 & V3).
  destruct H4 as (_ & N4 & M4 & V4).
  destruct H5 as (_ & N5 & E5 & C5).
  destruct H6 as (_ & N6 & E6 & C6).
  destruct H7 as (_ & N7 & E7 & C7).
  destruct H8 as (Hs8 & N8 & M8 & V8).
  assert (E74 : vertices g7 = vertices g4) by congruence.
  assert (F2 : ∀ x, 0 ≤ x < n g → x ≠ t →
    arr_get (vertices g2) x =
      mkVertex (nm_of g x) (remove_occurrences_from_list (hd_of g x) t)).
  { intros x Hx Hxt. rewrite V2 by lia. rewrite !(decide_False (P := x = t)) by done.
    rewrite decide_True by (split; [lia | apply Z.eqb_neq; lia]). done. }
  assert (F4 : ∀ a, 0 ≤ a < n g - 1 →
    arr_get (vertices g4) a = arr_get (vertices g2) (shift_up t a)).
  { intros a Ha. rewrite V4 by lia.
    rewrite !(decide_False (P := a = n g - 1)) by lia.
    unfold shift_up. cases. }
  split_and!.
  - by apply shape_set_n.
  - done.
  - intros a Ha. change (arr_get (vertices g8) a =
      mkVertex (nm_of g (shift_up t a))
         (renumber_list
            (remove_occurrences_from_list (hd_of g (shift_up t a)) t) t)).
    rewrite V8 by lia. rewrite decide_True by (split; [lia | done]).
    unfold nm_of at 1, hd_of at 1. rewrite E74, F4 by lia.
    rewrite F2; [done | |]; unfold shift_up; cases.
  - intros a b Ha Hb.
    change (cell (exec (set_n (n g - 1)) g8) a b) with (cell g8 a b).
    unfold cell at 1. rewrite M8. fold (cell g7 a b).
    rewrite C7, C6, !C5 by lia.
    assert (C4 : ∀ x y, cell g4 x y = cell g x y).
    { intros x y. unfold cell. by rewrite M4, M2. }
    rewrite !C4. unfold shift_up. cases.
Qed.

Lemma remove_occurrences_filter l t :
  remove_occurrences_from_list l t = filter (λ x, x ≠ t) l.
Proof.
  induction l as [|x l IH]; [done|]. simpl. rewrite IH.
  destruct (x =? t) eqn:E.
  - apply Z.eqb_eq in E. by rewrite filter_cons_False by tauto.
  - apply Z.eqb_neq in E. by rewrite filter_cons_True.
Qed.

Lemma renumber_list_fmap l t : renumber_list l t = renumber t <$> l.
Proof. induction l as [|x l IH]; [done|]. simpl. by rewrite IH. Qed.

Lemma renumber_shift_up t a : renumber t (shift_up t a) = a.
Proof. unfold renumber, shift_up. case_decide; destruct (_ >? t) eqn:E; lia. Qed.

Lemma shift_up_renumber t y : y ≠ t → shift_up t (renumber t y) = y.
Proof.
  intros Hy. unfold renumber, shift_up.
  destruct (y >? t) eqn:E; case_decide; lia.
Qed.

Lemma shift_up_ne t a : shift_up t a ≠ t.
Proof. unfold shift_up. case_decide; lia. Qed.

Lemma elem_of_compacted l t x :
  x ∈ renumber_list (remove_occurrences_from_list l t) t ↔
  ∃ y, y ∈ l ∧ y ≠ t ∧ x = renumber t y.
Proof.
  rewrite renumber_list_fmap, remove_occurrences_filter, list_elem_of_fmap.
  split; intros (y & H1 & H2); exists y.
  - apply list_elem_of_filter in H2. tauto.
  - split; [tauto|]. apply list_elem_of_filter. tauto.
Qed.

Lemma NoDup_compacted l t :
  NoDup l → NoDup (renumber_list (remove_occurrences_from_list l t) t).
Proof.
  intros Hnd. rewrite renumber_list_fmap, remove_occurrences_filter.
  apply NoDup_fmap_2_strong; [|by apply NoDup_filter].
  intros x y [Hx _]%list_elem_of_filter [Hy _]%list_elem_of_filter Heq.
  rewrite <-(shift_up_renumber t x), <-(shift_up_renumber t y) by done.
  by rewrite Heq.
Qed.

Lemma remove_vertex_by_index_wf t g :
  wf g → wf (exec (remove_vertex_by_index t) g).
Proof.
  intros Hwf. unfold exec. rewrite remove_vertex_by_index_run.
  destruct (_ || _) eqn:Hrange; [done|]. simpl.
  destruct Hwf as [Hs Hn Hent Hnd Hmir Hbit Hsym Hirr Hbl].
  assert (Ht : 0 ≤ t < n g) by lia.
  destruct (remove_vertex_state_spec t g Hs Ht ltac:(lia))
    as (Hs' & Hn' & Hv' & Hc').
  assert (Hh' : ∀ a, 0 ≤ a < n g - 1 →
    hd_of (remove_vertex_state t g) a =
      renumber_list
        (remove_occurrences_from_list (hd_of g (shift_up t a)) t) t).
  { intros a Ha. unfold hd_of at 1. by rewrite Hv'. }
  assert (Hsu : ∀ a, 0 ≤ a < n g - 1 → 0 ≤ shift_up t a < n g).
  { intros a Ha. unfold shift_up. case_decide; lia. }
  split.
  - done.
  - lia.
  - intros a x. rewrite Hn'. intros Ha. rewrite Hh' by done.
    intros (y & Hy & Hyt & ->)%elem_of_compacted.
    apply Hent in Hy; [|by apply Hsu].
    unfold renumber. destruct (y >? t) eqn:E; lia.
  - intros a. rewrite Hn'. intros Ha. rewrite Hh' by done.
    apply NoDup_compacted, Hnd. by apply Hsu.
  - intros a b. rewrite Hn'. intros Ha Hb.
    rewrite Hh', Hc' by (done || lia).
    rewrite decide_True by lia.
    rewrite Hmir by by apply Hsu. rewrite elem_of_compacted. split.
    + intros Hin. exists (shift_up t b).
      split_and!; [done | apply shift_up_ne | by rewrite renumber_shift_up].
    + intros (y & Hy & Hyt & ->). by rewrite shift_up_renumber.
  - intros a b Ha Hb. rewrite Hc' by lia.
    repeat case_decide; auto.
    apply Hbit; unfold shift_up; case_decide; lia.
  - intros a b Ha Hb. rewrite !Hc' by lia.
    repeat case_decide; destruct_and?; try (done || lia); [|by apply Hsym].
    apply Hsym; unfold shift_up; case_decide; lia.
  - intros a Ha. rewrite Hc' by lia.
    repeat case_decide; [|done|by apply Hirr].
    apply Hirr; unfold shift_up; case_decide; lia.
  - intros a b Ha Hb. rewrite Hn'. intros Hna. rewrite Hc' by lia.
    rewrite decide_False by lia. case_decide; [done|].
    destruct (decide (n g ≤ a)); [by apply Hbl|].
    rewrite Hsym by done. apply Hbl; lia.
Qed.

(** ** [init_graph] *)

Lemma zero_row_spec g i :
  shape g → 0 ≤ i < MAX_VERTICES →
  mat_step g (exec (for_loop 0 MAX_VERTICES (λ j, set_adj i j 0)) g)
    (λ a b, if decide (a = i ∧ b < MAX_VERTICES) then 0 else cell g a b).
Proof.
  intros Hs Hi.
  pose (I := λ (k : Z) (s : Graph), mat_step g s
    (λ a b, if decide (a = i ∧ b < k) then 0 else cell g a b)).
  change (I MAX_VERTICES (exec (for_loop 0 MAX_VERTICES (λ j, set_adj i j 0)) g)).
  apply for_loop_inv; unfold I; [done | |].
  - eapply mat_step_ext; [by apply mat_step_refl|].
    intros a b Ha Hb. simpl. cases.
  - intros j s Hj Hstep.
    eapply mat_step_ext; [apply mat_step_set_adj; [apply Hstep | lia..]|].
    intros a b Ha Hb. simpl. cases.
Qed.

Lemma init_graph_spec g0 : shape g0 → exec init_graph g0 = empty_graph.
Proof.
  intros Hs0. unfold init_graph. st.
  set (g := exec (set_n 0) g0).
  assert (Hs : shape g) by by apply shape_set_n.
  pose (I := λ (k : Z) (s : Graph),
    shape s ∧ n s = 0 ∧
    (∀ a, 0 ≤ a < k → arr_get (vertices s) a = mkVertex None []) ∧
    (∀ a b, 0 ≤ a < k → 0 ≤ b < MAX_VERTICES → cell s a b = 0)).
  assert (HI : I MAX_VERTICES (exec (for_loop 0 MAX_VERTICES (λ i,
    set_name i None;; set_head i [];;
    for_loop 0 MAX_VERTICES (λ j, set_adj i j 0))) g)).
  { apply for_loop_inv; unfold I; [done | |].
    - split_and!; [done | done | intros; lia | intros; lia].
    - intros i s Hi (Hss & Hns & Hvs & Hcs). st.
      pose proof (vtx_step_set_head _ _ _ i []
        (vtx_step_set_name _ _ _ i None (vtx_step_refl s Hss) ltac:(lia))
        ltac:(lia)) as (Hs1 & Hn1 & Hm1 & Hv1).
      set (s1 := exec (set_head i []) _) in *.
      destruct (zero_row_spec s1 i Hs1 ltac:(lia)) as (Hs2 & Hn2 & Hv2 & Hc2).
      split_and!.
      + done.
      + congruence.
      + intros a Ha. rewrite Hv2, Hv1 by lia. cases. apply Hvs. lia.
      + intros a b Ha Hb. rewrite Hc2 by lia. cases.
        unfold cell. rewrite Hm1. apply Hcs; lia. }
  destruct HI as (Hs' & Hn' & Hv' & Hc').
  set (g' := exec (for_loop 0 MAX_VERTICES _) g) in *.
  destruct Hs' as [Lv Lr Lc].
  destruct g' as [vs k m]. simpl in *.
  unfold empty_graph, blank_vertices, zero_matrix. f_equal.
  - apply arr_ext.
    + rewrite Lv. done.
    + intros i Hi. rewrite Hv' by lia.
      rewrite arr_get_replicate; [done | unfold MAX_VERTICES in *; lia].
  - done.
  - apply arr_ext.
    + rewrite Lr. done.
    + intros i Hi.
      rewrite (arr_get_replicate (replicate 20 0)) by (unfold MAX_VERTICES in *; lia).
      apply arr_ext.
      * rewrite Lc by lia. done.
      * intros j Hj. rewrite Lc in Hj by lia.
        rewrite arr_get_replicate by (unfold MAX_VERTICES in *; lia).
        apply Hc'; lia.
Qed.

Lemma empty_graph_hd i : hd_of empty_graph i = [].
Proof.
  unfold hd_of, empty_graph, blank_vertices, arr_get. cbn [vertices].
  destruct (decide (Z.to_nat i < 20)%nat) as [Hlt|Hge].
  - by rewrite lookup_total_replicate_2.
  - rewrite list_lookup_total_alt, (lookup_ge_None_2 _ (Z.to_nat i)); [done|].
    rewrite length_replicate. lia.
Qed.

Lemma empty_graph_cell i j :
  0 ≤ i < MAX_VERTICES → 0 ≤ j < MAX_VERTICES → cell empty_graph i j = 0.
Proof.
  intros Hi Hj. unfold cell, empty_graph, zero_matrix. cbn [adjMatrix].
  rewrite !arr_get_replicate by (unfold MAX_VERTICES in *; lia). done.
Qed.

Lemma empty_graph_shape : shape empty_graph.
Proof.
  split; [done | done |]. intros i Hi.
  unfold empty_graph, zero_matrix. cbn [adjMatrix].
  rewrite arr_get_replicate by (unfold MAX_VERTICES in *; lia). done.
Qed.

Lemma empty_graph_wf : wf empty_graph.
Proof.
  split.
  - apply empty_graph_shape.
  - done.
  - simpl. intros; lia.
  - simpl. intros; lia.
  - simpl. intros; lia.
  - intros i j Hi Hj. left. by apply empty_graph_cell.
  - intros i j Hi Hj. by rewrite !empty_graph_cell.
  - intros i Hi. by apply empty_graph_cell.
  - intros i j Hi Hj _. by apply empty_graph_cell.
Qed.

(** ** The operations by name, and reachable graphs *)

Lemma add_edge_run a b g :
  add_edge a b g =
    if (eval (find_vertex_index a) g =? -1) || (eval (find_vertex_index b) g =? -1)
    then (-1, g)
    else add_edge_by_index (eval (find_vertex_index a) g)
                           (eval (find_vertex_index b) g) g.
Proof.
  unfold add_edge. cbv [mbind St_mbind St_bind]. cbn zeta.
  fold (exec (find_vertex_index a) g). fold (eval (find_vertex_index a) g).
  rewrite find_vertex_index_exec.
  fold (exec (find_vertex_index b) g). fold (eval (find_vertex_index b) g).
  rewrite find_vertex_index_exec.
  by destruct (_ || _).
Qed.

Lemma remove_edge_run a b g :
  remove_edge a b g =
    if (eval (find_vertex_index a) g =? -1) || (eval (find_vertex_index b) g =? -1)
    then (-1, g)
    else remove_edge_by_index (eval (find_vertex_index a) g)
                              (eval (find_vertex_index b) g) g.
Proof.
  unfold remove_edge. cbv [mbind St_mbind St_bind]. cbn zeta.
  fold (exec (find_vertex_index a) g). fold (eval (find_vertex_index a) g).
  rewrite find_vertex_index_exec.
  fold (exec (find_vertex_index b) g). fold (eval (find_vertex_index b) g).
  rewrite find_vertex_index_exec.
  by destruct (_ || _).
Qed.

Lemma remove_vertex_run s g :
  remove_vertex s g =
    if eval (find_vertex_index s) g =? -1 then (-1, g)
    else remove_vertex_by_index (eval (find_vertex_index s) g) g.
Proof.
  unfold remove_vertex. cbv [mbind St_mbind St_bind]. cbn zeta.
  fold (exec (find_vertex_index s) g). fold (eval (find_vertex_index s) g).
  rewrite find_vertex_index_exec.
  by destruct (_ =? _).
Qed.

Lemma run_op_wf o g : wf g → wf (exec (run_op o) g).
Proof.
  intros Hwf. destruct o as [s|u v|a b|u v|a b|t|s]; simpl run_op.
  - by apply add_vertex_wf.
  - by apply add_edge_by_index_wf.
  - unfold exec. rewrite add_edge_run. destruct (_ || _); [done|].
    by apply add_edge_by_index_wf.
  - by apply remove_edge_by_index_wf.
  - unfold exec. rewrite remove_edge_run. destruct (_ || _); [done|].
    by apply remove_edge_by_index_wf.
  - by apply remove_vertex_by_index_wf.
  - unfold exec. rewrite remove_vertex_run. destruct (_ =? _); [done|].
    by apply remove_vertex_by_index_wf.
Qed.

Lemma reachable_empty_graph : reachable empty_graph.
Proof.
  rewrite <-(init_graph_spec empty_graph) by apply empty_graph_shape.
  apply reachable_init, empty_graph_shape.
Qed.

Lemma reachable_run_ops ops : ∀ g,
  reachable g → reachable (exec (run_ops ops) g).
Proof.
  induction ops as [|o rest IH]; intros g Hg; [done|].
  simpl run_ops. rewrite exec_bind. apply IH. by apply reachable_step.
Qed.

Lemma reachable_build ops : reachable (build ops).
Proof. apply reachable_run_ops, reachable_empty_graph. Qed.

Lemma reachable_wf g : reachable g → wf g.
Proof.
  induction 1 as [g0 Hs|g o _ IH].
  - rewrite init_graph_spec by done. apply empty_graph_wf.
  - by apply run_op_wf.
Qed.

(** C2. Symmetry invariant: in every graph reachable from [init_graph]
    by any sequence of add-vertex, add-edge, remove-edge and
    remove-vertex operations, for valid positions [u] and [v], [u] is in
    the adjacency list of [v] if and only if [v] is in that of [u]. *)
Theorem symmetry_invariant g u v :
  reachable g → 0 ≤ u < n g → 0 ≤ v < n g →
  u ∈ hd_of g v ↔ v ∈ hd_of g u.
Proof.
  intros Hr%reachable_wf Hu Hv.
  pose proof (wf_n _ Hr).
  rewrite <-!(wf_mirror _ Hr) by done.
  rewrite (wf_sym _ Hr v u) by lia. done.
Qed.

(** C4. The matrix mirror agrees with the adjacency lists: in every
    reachable graph, for valid positions [u] and [v], cell [(u, v)] is
    [1] exactly when [v] occurs in the list of [u], and [0] exactly when
    it does not. *)
Theorem matrix_mirrors_lists g u v :
  reachable g → 0 ≤ u < n g → 0 ≤ v < n g →
  (cell g u v = 1 ↔ v ∈ hd_of g u) ∧ (cell g u v = 0 ↔ v ∉ hd_of g u).
Proof.
  intros Hr%reachable_wf Hu Hv. pose proof (wf_n _ Hr) as Hn.
  pose proof (wf_mirror _ Hr u v Hu Hv) as Hm.
  split; [done|]. rewrite <-Hm.
  destruct (wf_bit _ Hr u v) as [H0|H1]; lia.
Qed.

(** C5. No dangling adjacency entry: in every reachable graph, every
    entry of the adjacency list of every vertex is a position of the
    graph, at least [0] and below the vertex count. *)
Theorem adjacency_entries_valid g i v :
  reachable g → 0 ≤ i < n g → v ∈ hd_of g i → 0 ≤ v < n g.
Proof. intros Hr%reachable_wf Hi Hv. by eapply wf_entries. Qed.

(** * The traversals *)

(** ** Buffers *)

Lemma prefix_to_snoc (a : list Z) k x :
  0 ≤ k < alen a →
  prefix_to (k + 1) (arr_set a k x) = prefix_to k a ++ [x].
Proof.
  unfold prefix_to, arr_set, alen. intros Hk.
  replace (Z.to_nat (k + 1)) with (S (Z.to_nat k)) by lia.
  rewrite (take_S_r _ _ x) by (apply list_lookup_insert_eq; lia).
  by rewrite take_insert_ge.
Qed.

Lemma prefix_to_length (a : list Z) k :
  0 ≤ k ≤ alen a → alen (prefix_to k a) = k.
Proof. unfold prefix_to, alen. intros Hk. rewrite length_take. lia. Qed.

Lemma prefix_to_prefix (a : list Z) j k :
  0 ≤ j ≤ k → prefix_to j (prefix_to k a) = prefix_to j a.
Proof.
  unfold prefix_to. intros Hj. rewrite take_take. f_equal. lia.
Qed.

Lemma prefix_to_app (a b : list Z) k :
  0 ≤ k ≤ alen a → prefix_to k (a ++ b) = prefix_to k a.
Proof.
  unfold prefix_to, alen. intros Hk. apply take_app_le. lia.
Qed.

Lemma prefix_to_get (a : list Z) j k :
  0 ≤ j < k → arr_get (prefix_to k a) j = arr_get a j.
Proof.
  unfold prefix_to, arr_get. intros Hj. apply lookup_total_take_lt. lia.
Qed.

Lemma prefix_to_succ (a : list Z) k :
  0 ≤ k < alen a → prefix_to (k + 1) a = prefix_to k a ++ [arr_get a k].
Proof.
  unfold prefix_to, arr_get, alen. intros Hk.
  replace (Z.to_nat (k + 1)) with (S (Z.to_nat k)) by lia.
  apply take_S_r. apply list_lookup_lookup_total_lt. lia.
Qed.

(** A duplicate-free list of positions below [k] has at most [k]
    elements. *)
Lemma NoDup_bounded_length (l : list Z) k :
  0 ≤ k → NoDup l → (∀ x, x ∈ l → 0 ≤ x < k) → alen l ≤ k.
Proof.
  intros Hk Hnd Hr. unfold alen.
  assert (l ⊆+ seqZ 0 k) as Hsub%submseteq_length.
  { apply NoDup_submseteq; [done|]. intros x Hx. apply elem_of_seqZ.
    apply Hr in Hx. lia. }
  rewrite length_seqZ in Hsub. lia.
Qed.

Lemma mark_visited (visited : list Z) v w :
  0 ≤ v < alen visited → 0 ≤ w →
  arr_get (arr_set visited v 1) w ≠ 0 ↔ w = v ∨ arr_get visited w ≠ 0.
Proof.
  intros Hv Hw. rewrite arr_get_set by done. case_decide; [|tauto].
  split; [auto | done].
Qed.

(** ** The queue *)

Lemma pushed_queue_push q x :
  0 ≤ q_tail q < alen (q_data q) →
  pushed (queue_push q x) = pushed q ++ [x].
Proof. intros Ht. unfold pushed. simpl. by apply prefix_to_snoc. Qed.

Lemma pushed_queue_pop q : pushed (snd (queue_pop q)) = pushed q.
Proof. reflexivity. Qed.

Lemma pushed_queue_create c x :
  0 < c → pushed (queue_push (queue_create c) x) = [x].
Proof.
  intros Hc. rewrite pushed_queue_push.
  - reflexivity.
  - simpl. unfold alen. rewrite length_replicate. lia.
Qed.

(** ** Breadth-first search *)

Section bfs_correct.
Context (g : Graph) (start max_out : Z).
Context (Hn0 : 0 ≤ n g) (Hval : valid_entries g) (Hmax : n g ≤ max_out).

Lemma scan_inv_tail visited q :
  scan_inv g start visited q → alen (pushed q) = q_tail q ∧ q_tail q ≤ n g.
Proof.
  intros [Hh Ht Hc Hv Hnd Hr Hm Hre].
  assert (alen (pushed q) = q_tail q) as Hlen
    by (apply prefix_to_length; lia).
  split; [done|]. rewrite <-Hlen. by apply NoDup_bounded_length.
Qed.

Lemma scan_inv_push visited q v :
  scan_inv g start visited q → 0 ≤ v < n g → reach g start v →
  arr_get visited v = 0 →
  0 ≤ q_tail q < alen (q_data q) ∧
  scan_inv g start (arr_set visited v 1) (queue_push q v).
Proof.
  intros Hinv Hv Hre H0.
  destruct (scan_inv_tail _ _ Hinv) as [Hlen Htn].
  destruct Hinv as [Hh Ht Hc Hvis Hnd Hr Hm Hreach].
  assert (Hnin : v ∉ pushed q).
  { intros Hin. apply Hm in Hin; [done | done]. }
  assert (Hnd' : NoDup (pushed q ++ [v])).
  { apply NoDup_app. split_and!; [done | | apply NoDup_singleton].
    intros x Hx ->%list_elem_of_singleton. done. }
  assert (Hr' : ∀ x, x ∈ pushed q ++ [v] → 0 ≤ x < n g).
  { intros x [Hx | ->%list_elem_of_singleton]%elem_of_app; auto. }
  pose proof (NoDup_bounded_length _ _ Hn0 Hnd' Hr') as Hb.
  unfold alen in Hb, Hlen. rewrite length_app in Hb. simpl in Hb.
  assert (Hroom : 0 ≤ q_tail q < alen (q_data q)) by lia.
  split; [done|].
  split; rewrite ?pushed_queue_push by done; simpl.
  - lia.
  - rewrite alen_set. lia.
  - by rewrite alen_set.
  - by rewrite alen_set.
  - done.
  - done.
  - intros w Hw. rewrite mark_visited by lia. rewrite elem_of_app, list_elem_of_singleton.
    rewrite Hm by done. tauto.
  - intros w [Hw | ->%list_elem_of_singleton]%elem_of_app; auto.
Qed.

Lemma bfs_scan_spec curr visited q :
  scan_inv g start visited q →
  (∀ w, w ∈ curr → 0 ≤ w < n g ∧ reach g start w) →
  scan_inv g start (fst (bfs_scan curr visited q)) (snd (bfs_scan curr visited q)) ∧
  q_head (snd (bfs_scan curr visited q)) = q_head q ∧
  (∃ ext, pushed (snd (bfs_scan curr visited q)) = pushed q ++ ext) ∧
  (∀ w, w ∈ curr → w ∈ pushed (snd (bfs_scan curr visited q))).
Proof.
  revert visited q. induction curr as [|v next IH]; intros visited q Hinv Hcurr.
  - simpl. split_and!; [done | done | | by intros w ?%elem_of_nil].
    exists []. by rewrite app_nil_r.
  - simpl. destruct (Hcurr v ltac:(left)) as [Hv Hre].
    assert (Hnext : ∀ w, w ∈ next → 0 ≤ w < n g ∧ reach g start w).
    { intros w Hw. apply Hcurr. by right. }
    destruct (arr_get visited v =? 0) eqn:E.
    + apply Z.eqb_eq in E.
      destruct (scan_inv_push _ _ _ Hinv Hv Hre E) as [Hroom Hinv'].
      destruct (IH _ _ Hinv' Hnext) as (Hi & Hh & [ext Hext] & Hin).
      rewrite pushed_queue_push in Hext by done.
      split_and!; [done | done | |].
      * exists ([v] ++ ext). by rewrite Hext, app_assoc.
      * intros w [->|Hw]%elem_of_cons; [|by apply Hin].
        rewrite Hext, !elem_of_app, list_elem_of_singleton. auto.
    + apply Z.eqb_neq in E.
      destruct (IH _ _ Hinv Hnext) as (Hi & Hh & [ext Hext] & Hin).
      split_and!; [done | done | by exists ext |].
      intros w [->|Hw]%elem_of_cons; [|by apply Hin].
      rewrite Hext, elem_of_app. left. apply (si_marks _ _ _ _ Hinv); done.
Qed.

Lemma closed_reach (P : list Z) :
  start ∈ P →
  (∀ u w, u ∈ P → w ∈ hd_of g u → w ∈ P) →
  ∀ v, reach g start v → v ∈ P.
Proof.
  intros Hstart Hclosed v Hre. unfold reach in Hre.
  revert v Hre. apply rtc_ind_r; [done|].
  intros u w _ [_ Hw] Hu. by eapply Hclosed.
Qed.

Lemma bfs_loop_spec fuel : ∀ visited q buf count,
  loop_inv g start max_out visited q buf count →
  n g - q_head q < Z.of_nat fuel →
  ∃ r, eval (bfs_loop fuel visited q buf max_out count) g = Some r ∧
       NoDup (visit_sequence r) ∧
       (∀ v, v ∈ visit_sequence r ↔ reach g start v) ∧
       visit_sequence r !! 0%nat = Some start.
Proof.
  induction fuel as [|f IH]; intros visited q buf count Hinv Hfuel.
  { destruct Hinv as [Hsi _ _ _ _ _].
    destruct (scan_inv_tail _ _ Hsi). pose proof (si_head _ _ _ _ Hsi). lia. }
  destruct Hinv as [Hsi Hcount Hbuf Hfirst Hout Hclosed].
  destruct (scan_inv_tail _ _ Hsi) as [Hlen Htn].
  pose proof (si_head _ _ _ _ Hsi) as Hh.
  simpl bfs_loop. unfold queue_empty.
  destruct (q_head q =? q_tail q) eqn:E.
  - apply Z.eqb_eq in E. exists (buf, count). rewrite eval_ret.
    assert (Hseq : visit_sequence (buf, count) = pushed q).
    { unfold visit_sequence. simpl. fold (prefix_to count buf).
      rewrite Hout, Hcount, E, <-Hlen. unfold prefix_to, alen.
      rewrite Nat2Z.id. apply firstn_all. }
    rewrite Hseq. split_and!; [done | apply Hsi | | done].
    intros v. split; [apply Hsi|].
    apply closed_reach.
    + by eapply list_elem_of_lookup_2.
    + intros u w Hu. apply Hclosed.
      rewrite Hcount, E, <-Hlen. unfold prefix_to, alen.
      rewrite Nat2Z.id, firstn_all. done.
  - apply Z.eqb_neq in E. st.
    set (u := arr_get (q_data q) (q_head q)).
    set (q1 := mkQueue (q_data q) (q_head q + 1) (q_tail q) (q_cap q)).
    assert (Hu : u = arr_get (pushed q) (q_head q)).
    { unfold u, pushed. simpl. by rewrite prefix_to_get by lia. }
    assert (Hupushed : u ∈ pushed q).
    { rewrite Hu. unfold arr_get. apply list_elem_of_lookup_total_2.
      unfold alen in Hlen. lia. }
    assert (Hsi1 : scan_inv g start visited q1).
    { destruct Hsi. split; try done. simpl. lia. }
    assert (Hcurr : ∀ w, w ∈ hd_of g u → 0 ≤ w < n g ∧ reach g start w).
    { intros w Hw. pose proof (si_range _ _ _ _ Hsi u Hupushed) as Hur.
      split; [by eapply Hval|].
      eapply rtc_r; [by apply Hsi|]. by split. }
    destruct (bfs_scan_spec (hd_of g u) visited q1 Hsi1 Hcurr)
      as (Hsi2 & Hh2 & [ext Hext] & Hin).
    change (pushed q1) with (pushed q) in Hext.
    apply IH.
    + split.
      * done.
      * rewrite Hh2. simpl. lia.
      * destruct (count <? max_out); [by rewrite alen_set | done].
      * rewrite Hext. apply lookup_app_l_Some. done.
      * assert (Hlt : (count <? max_out) = true) by (apply Z.ltb_lt; lia).
        rewrite Hlt, Hext.
        rewrite prefix_to_app by (rewrite Hlen; lia).
        rewrite prefix_to_snoc by lia.
        rewrite Hout, Hu, <-Hcount.
        rewrite prefix_to_succ by lia. done.
      * intros x w. rewrite Hext.
        rewrite prefix_to_app by (rewrite Hlen; lia).
        rewrite prefix_to_succ by lia.
        intros [Hx | ->%list_elem_of_singleton]%elem_of_app Hw.
        -- rewrite elem_of_app. left. by eapply Hclosed.
        -- rewrite <-Hext. apply Hin. rewrite Hu, <-Hcount. done.
    + rewrite Hh2. simpl. lia.
Qed.

Lemma bfs_spec fuel buf :
  0 ≤ start < n g → max_out ≤ alen buf → n g < Z.of_nat fuel →
  ∃ r, eval (bfs fuel start buf max_out) g = Some r ∧
       NoDup (visit_sequence r) ∧
       (∀ v, v ∈ visit_sequence r ↔ reach g start v) ∧
       visit_sequence r !! 0%nat = Some start.
Proof.
  intros Hstart Hbuf Hfuel. unfold bfs. st.
  rewrite (proj2 (orb_false_iff _ _)) by (split; lia).
  set (visited := arr_set (replicate (Z.to_nat (n g)) 0) start 1).
  set (q := queue_push (queue_create (n g + 5)) start).
  assert (Hp : pushed q = [start]) by (apply pushed_queue_create; lia).
  assert (Hlen : alen (replicate (Z.to_nat (n g)) 0) = n g).
  { unfold alen. rewrite length_replicate. lia. }
  assert (Hdata : alen (q_data q) = n g + 5).
  { unfold q. simpl. rewrite alen_set. unfold alen.
    rewrite length_replicate. lia. }
  apply bfs_loop_spec; [|simpl; lia].
  split.
  - split; rewrite ?Hp, ?Hdata.
    + simpl. lia.
    + simpl. lia.
    + lia.
    + unfold visited. by rewrite alen_set.
    + apply NoDup_singleton.
    + by intros v ->%list_elem_of_singleton.
    + intros v Hv. unfold visited. rewrite mark_visited by lia.
      rewrite arr_get_replicate by lia. rewrite list_elem_of_singleton.
      split; [by intros [?|?] | auto].
    + intros v ->%list_elem_of_singleton. apply rtc_refl.
  - done.
  - done.
  - by rewrite Hp.
  - done.
  - intros u w Hu. by apply elem_of_nil in Hu.
Qed.
End bfs_correct.

(** ** The traversals only read the graph *)

Lemma bfs_loop_exec fuel visited q buf max_out count g :
  exec (bfs_loop fuel visited q buf max_out count) g = g.
Proof.
  revert visited q buf count.
  induction fuel as [|f IH]; intros visited q buf count; [done|].
  simpl bfs_loop. destruct (queue_empty q); [done|]. st. apply IH.
Qed.

Lemma bfs_exec fuel start buf max_out g :
  exec (bfs fuel start buf max_out) g = g.
Proof.
  unfold bfs. st. destruct (_ || _); [done|]. apply bfs_loop_exec.
Qed.

Lemma dfs_scan_exec rec curr g :
  (∀ v s, exec (rec v s) g = g) →
  ∀ s, exec (dfs_scan rec curr s) g = g.
Proof.
  intros Hrec. induction curr as [|v next IH]; intros s; [done|].
  simpl dfs_scan. destruct (_ =? 0); [|apply IH].
  st. rewrite Hrec. destruct (eval (rec v s) g); [apply IH | done].
Qed.

Lemma dfs_util_exec fuel g : ∀ u s, exec (dfs_util fuel u s) g = g.
Proof.
  induction fuel as [|f IH]; intros u s; [done|].
  simpl dfs_util. st. by apply dfs_scan_exec.
Qed.

Lemma dfs_exec fuel start order max_out g :
  exec (dfs fuel start order max_out) g = g.
Proof.
  unfold dfs. st. destruct (_ || _); [done|]. st. apply dfs_util_exec.
Qed.

(** ** Depth-first search *)

Section dfs_correct.
Context (g : Graph) (start : Z).
Context (Hn0 : 0 ≤ n g) (Hval : valid_entries g).

Lemma dfs_inv_length s :
  dfs_inv g start s → alen (recorded s) = d_pos s ∧ d_pos s ≤ n g.
Proof.
  intros [Hv Hp Hc Hnd Hr Hm Hre].
  assert (alen (recorded s) = d_pos s) as Hlen
    by (apply prefix_to_length; lia).
  split; [done|]. rewrite <-Hlen. by apply NoDup_bounded_length.
Qed.

Lemma dfs_inv_mark s u :
  dfs_inv g start s → 0 ≤ u < n g → reach g start u →
  arr_get (d_visited s) u = 0 →
  let s1 := mkDfs (arr_set (d_visited s) u 1)
                  (arr_set (d_order s) (d_pos s) u) (d_pos s + 1) in
  dfs_inv g start s1 ∧ recorded s1 = recorded s ++ [u].
Proof.
  intros Hinv Hu Hre H0 s1.
  destruct (dfs_inv_length _ Hinv) as [Hlen Hpn].
  destruct Hinv as [Hv Hp Hc Hnd Hr Hm Hreach].
  assert (Hnin : u ∉ recorded s).
  { intros Hin. apply Hm in Hin; done. }
  assert (Hnd' : NoDup (recorded s ++ [u])).
  { apply NoDup_app. split_and!; [done | | apply NoDup_singleton].
    intros x Hx ->%list_elem_of_singleton. done. }
  assert (Hr' : ∀ x, x ∈ recorded s ++ [u] → 0 ≤ x < n g).
  { intros x [Hx | ->%list_elem_of_singleton]%elem_of_app; auto. }
  pose proof (NoDup_bounded_length _ _ Hn0 Hnd' Hr') as Hb.
  unfold alen in Hb, Hlen. rewrite length_app in Hb. simpl in Hb.
  assert (Hrec : recorded s1 = recorded s ++ [u]).
  { unfold recorded, s1. simpl. apply prefix_to_snoc. lia. }
  split; [|done].
  split; rewrite ?Hrec; simpl.
  - by rewrite alen_set.
  - rewrite alen_set. lia.
  - by rewrite alen_set.
  - done.
  - done.
  - intros w Hw. rewrite mark_visited by lia.
    rewrite elem_of_app, list_elem_of_singleton, Hm by done. tauto.
  - intros w [Hw | ->%list_elem_of_singleton]%elem_of_app; auto.
Qed.

Lemma dfs_scan_spec f curr :
  dfs_util_ok g start f →
  ∀ s,
    dfs_inv g start s →
    (∀ w, w ∈ curr → 0 ≤ w < n g ∧ reach g start w) →
    n g - alen (recorded s) ≤ Z.of_nat f →
    ∃ s' ext, eval (dfs_scan (dfs_util f) curr s) g = Some s' ∧
              dfs_inv g start s' ∧ dfs_extends g s s' ext ∧
              ∀ w, w ∈ curr → w ∈ recorded s'.
Proof.
  intros Hok. induction curr as [|v next IH]; intros s Hinv Hcurr Hfuel.
  - exists s, []. split_and!; [done | done | | by intros w ?%elem_of_nil].
    split; [by rewrite app_nil_r | by intros x w ?%elem_of_nil].
  - destruct (Hcurr v ltac:(left)) as [Hv Hre].
    assert (Hnext : ∀ w, w ∈ next → 0 ≤ w < n g ∧ reach g start w).
    { intros w Hw. apply Hcurr. by right. }
    simpl dfs_scan. destruct (arr_get (d_visited s) v =? 0) eqn:E.
    + apply Z.eqb_eq in E. st. rewrite dfs_util_exec.
      destruct (Hok v s Hinv Hv Hre E Hfuel)
        as (s1 & e1 & -> & Hinv1 & [Hrec1 Hcl1] & Hve1).
      destruct (IH s1 Hinv1 Hnext) as (s' & e2 & Hev & Hinv' & [Hrec2 Hcl2] & Hin).
      { rewrite Hrec1. unfold alen in *. rewrite length_app. lia. }
      exists s', (e1 ++ e2). split_and!; [done | done | |].
      * split; [by rewrite Hrec2, Hrec1, app_assoc|].
        intros x w [Hx|Hx]%elem_of_app Hw; [|by eapply Hcl2].
        rewrite Hrec2, elem_of_app. left. by eapply Hcl1.
      * intros w [->|Hw]%elem_of_cons; [|by apply Hin].
        rewrite Hrec2, Hrec1, !elem_of_app. left. right.
        by eapply list_elem_of_lookup_2.
    + apply Z.eqb_neq in E.
      destruct (IH s Hinv Hnext Hfuel) as (s' & e & Hev & Hinv' & [Hrec Hcl] & Hin).
      exists s', e. split_and!; [done | done | done |].
      intros w [->|Hw]%elem_of_cons; [|by apply Hin].
      rewrite Hrec, elem_of_app. left. by apply (di_marks _ _ _ Hinv).
Qed.

Lemma dfs_util_spec f : dfs_util_ok g start f.
Proof.
  induction f as [|f IH]; intros u s Hinv Hu Hre H0 Hfuel.
  { destruct (dfs_inv_mark s u Hinv Hu Hre H0) as [Hinv1 Hrec1].
    destruct (dfs_inv_length _ Hinv1) as [Hlen1 Hpn1].
    rewrite Hrec1 in Hlen1. unfold alen in *. rewrite length_app in Hlen1.
    simpl in *. lia. }
  destruct (dfs_inv_mark s u Hinv Hu Hre H0) as [Hinv1 Hrec1].
  simpl dfs_util. st.
  set (s1 := mkDfs _ _ _) in *.
  destruct (dfs_scan_spec f (hd_of g u) IH s1 Hinv1)
    as (s' & e & Hev & Hinv' & [Hrec Hcl] & Hin).
  { intros w Hw. split; [by eapply Hval|].
    eapply rtc_r; [done | by split]. }
  { rewrite Hrec1. unfold alen in *. rewrite length_app. simpl. lia. }
  exists s', ([u] ++ e). split_and!; [done | done | | done].
  split; [by rewrite Hrec, Hrec1, <-app_assoc|].
  intros x w [Hx%list_elem_of_singleton|Hx]%elem_of_app Hw;
    [subst x; by apply Hin | by eapply Hcl].
Qed.

Lemma dfs_spec fuel order max_out :
  0 ≤ start < n g → n g ≤ alen order → n g ≤ Z.of_nat fuel →
  ∃ r, eval (dfs fuel start order max_out) g = Some r ∧
       NoDup (visit_sequence r) ∧
       (∀ v, v ∈ visit_sequence r ↔ reach g start v) ∧
       visit_sequence r !! 0%nat = Some start.
Proof.
  intros Hstart Hcap Hfuel. unfold dfs. st.
  rewrite (proj2 (orb_false_iff _ _)) by (split; lia). st.
  set (s0 := mkDfs (replicate (Z.to_nat (n g)) 0) order 0).
  assert (Hinv0 : dfs_inv g start s0).
  { split; simpl.
    - unfold alen. rewrite length_replicate. lia.
    - lia.
    - done.
    - constructor.
    - by intros v ?%elem_of_nil.
    - intros v Hv. rewrite arr_get_replicate by lia.
      split; [done | by intros ?%elem_of_nil].
    - by intros v ?%elem_of_nil. }
  destruct (dfs_util_spec fuel start s0 Hinv0 Hstart)
    as (s' & ext & -> & Hinv' & [Hrec Hcl] & Hin).
  { apply rtc_refl. }
  { simpl. apply arr_get_replicate. lia. }
  { change (recorded s0) with (@nil Z). unfold alen. simpl. lia. }
  exists (d_order s', d_pos s'). split; [done|].
  change (visit_sequence (d_order s', d_pos s')) with (recorded s').
  change (recorded s0) with (@nil Z) in Hrec. simpl in Hrec.
  split_and!.
  - apply Hinv'.
  - intros v. split; [apply Hinv'|].
    apply closed_reach; [rewrite Hrec; by eapply list_elem_of_lookup_2|].
    intros u w Hu. apply Hcl. by rewrite <-Hrec.
  - by rewrite Hrec.
Qed.
End dfs_correct.

(** ** More fuel never changes a result *)

Lemma bfs_loop_fuel_S g max_out f : ∀ visited q buf count r,
  eval (bfs_loop f visited q buf max_out count) g = Some r →
  eval (bfs_loop (S f) visited q buf max_out count) g = Some r.
Proof.
  induction f as [|f IH]; intros visited q buf count r; [done|].
  intros H. simpl bfs_loop in *. destruct (queue_empty q); [done|].
  revert H. st. apply IH.
Qed.

Lemma bfs_fuel_add g start buf max_out f k r :
  eval (bfs f start buf max_out) g = Some r →
  eval (bfs (f + k) start buf max_out) g = Some r.
Proof.
  intros H. induction k as [|k IH].
  - by rewrite Nat.add_0_r.
  - rewrite Nat.add_succ_r. revert IH. unfold bfs. st.
    destruct (_ || _); [done|]. apply bfs_loop_fuel_S.
Qed.

Lemma dfs_scan_fuel g (rec rec' : Z → DfsState → St (option DfsState)) curr :
  (∀ v s, exec (rec v s) g = g) →
  (∀ v s, exec (rec' v s) g = g) →
  (∀ v s s', eval (rec v s) g = Some s' → eval (rec' v s) g = Some s') →
  ∀ s s', eval (dfs_scan rec curr s) g = Some s' →
          eval (dfs_scan rec' curr s) g = Some s'.
Proof.
  intros Hex Hex' Hrec. induction curr as [|v next IH]; intros s s'; [done|].
  simpl dfs_scan. destruct (_ =? 0); [|apply IH].
  st. rewrite Hex, Hex'.
  destruct (eval (rec v s) g) as [s1|] eqn:E; [|done].
  rewrite (Hrec _ _ _ E). apply IH.
Qed.

Lemma dfs_util_S f u s :
  dfs_util (S f) u s =
    (curr ← get_head u;
     dfs_scan (dfs_util f) curr
       (mkDfs (arr_set (d_visited s) u 1)
              (arr_set (d_order s) (d_pos s) u) (d_pos s + 1))).
Proof. reflexivity. Qed.

Lemma dfs_util_fuel_S g f : ∀ u s s',
  eval (dfs_util f u s) g = Some s' →
  eval (dfs_util (S f) u s) g = Some s'.
Proof.
  induction f as [|f IH]; intros u s s'; [done|].
  intros H. rewrite dfs_util_S in H. rewrite (dfs_util_S (S f)).
  revert H. st.
  apply dfs_scan_fuel; [apply dfs_util_exec | apply dfs_util_exec | apply IH].
Qed.

Lemma dfs_fuel_add g start order max_out f k r :
  eval (dfs f start order max_out) g = Some r →
  eval (dfs (f + k) start order max_out) g = Some r.
Proof.
  intros H. induction k as [|k IH].
  - by rewrite Nat.add_0_r.
  - rewrite Nat.add_succ_r. revert IH. unfold dfs. st.
    destruct (_ || _); [done|]. st.
    destruct (eval (dfs_util (f + k) _ _) g) as [s'|] eqn:E; [|done].
    by rewrite (dfs_util_fuel_S _ _ _ _ _ E).
Qed.

Lemma wf_valid_entries g : wf g → valid_entries g.
Proof. intros Hwf i v. apply (wf_entries _ Hwf). Qed.

(** C3. Traversal completeness: on a graph whose adjacency entries are
    valid positions, from a start position in range and with an output
    buffer of at least [n] cells, [bfs] and [dfs] both return (any fuel
    above [n] gives the same result), the returned sequence has no
    repeated position, its elements are exactly the positions reachable
    from the start through the adjacency lists, cycles or not, and the
    breadth-first sequence begins with the start.  Symmetry of the lists
    is not needed. *)
Theorem traversal_completeness g start buf max_out :
  valid_entries g → 0 ≤ start < n g → n g ≤ max_out ≤ alen buf →
  ∃ rb rd,
    (∀ fuel, (Z.to_nat (n g) < fuel)%nat →
       eval (bfs fuel start buf max_out) g = Some rb ∧
       eval (dfs fuel start buf max_out) g = Some rd) ∧
    NoDup (visit_sequence rb) ∧
    (∀ v, v ∈ visit_sequence rb ↔ reach g start v) ∧
    visit_sequence rb !! 0%nat = Some start ∧
    NoDup (visit_sequence rd) ∧
    (∀ v, v ∈ visit_sequence rd ↔ reach g start v).
Proof.
  intros Hval Hstart Hmax.
  destruct (bfs_spec g start max_out ltac:(lia) Hval ltac:(lia)
              (S (Z.to_nat (n g))) buf Hstart ltac:(lia) ltac:(lia))
    as (rb & Hb & Hnd & Hel & Hfirst).
  destruct (dfs_spec g start ltac:(lia) Hval
              (S (Z.to_nat (n g))) buf max_out Hstart ltac:(lia) ltac:(lia))
    as (rd & Hd & Hnd' & Hel' & _).
  exists rb, rd. split_and!; try done.
  intros fuel Hfuel.
  replace fuel with (S (Z.to_nat (n g)) + (fuel - S (Z.to_nat (n g))))%nat by lia.
  split; [by apply bfs_fuel_add | by apply dfs_fuel_add].
Qed.

(** * Errors, frames and lookups *)

Lemma name_matches_true nm s : name_matches nm s = true ↔ nm = Some s.
Proof.
  destruct nm as [s'|]; simpl; [|done].
  rewrite bool_decide_eq_true. split; congruence.
Qed.

Lemma find_vertex_index_found g s :
  has_name g s → eval (find_vertex_index s) g ≠ -1.
Proof.
  intros (i & Hi & Hnm) Hr.
  destruct (find_vertex_index_spec s g) as [[_ Hall]|(Hrange & _)]; [|lia].
  specialize (Hall i Hi). rewrite Hnm in Hall. simpl in Hall.
  by rewrite bool_decide_eq_false in Hall.
Qed.

Lemma add_vertex_eval s g :
  eval (add_vertex s) g =
    if n g >=? MAX_VERTICES then -1
    else if negb (eval (find_vertex_index s) g =? -1) then -2
    else 0.
Proof.
  unfold add_vertex. st. destruct (n g >=? MAX_VERTICES); st; [done|].
  rewrite find_vertex_index_exec.
  destruct (negb _); st; done.
Qed.

(** C6, as the code has it: when a vertex named [s] exists,
    [add_vertex s] leaves the graph unchanged and returns [-2]
    (duplicate name) provided the graph is below capacity; at capacity
    the capacity test comes first and it returns [-1]. *)
Theorem add_vertex_duplicate_below_capacity g s :
  has_name g s →
  exec (add_vertex s) g = g ∧
  (n g < MAX_VERTICES → eval (add_vertex s) g = -2) ∧
  (MAX_VERTICES ≤ n g → eval (add_vertex s) g = -1).
Proof.
  intros Hname. pose proof (find_vertex_index_found g s Hname) as Hf.
  rewrite add_vertex_exec, add_vertex_eval.
  destruct (n g >=? MAX_VERTICES) eqn:E.
  - split_and!; [done | lia | done].
  - destruct (eval (find_vertex_index s) g =? -1) eqn:E'; [lia|].
    simpl. split_and!; [done | done | lia].
Qed.

(** C6 fails as stated: on the reachable graph holding twenty vertices,
    adding the name of vertex 0 again returns [-1] (full), not [-2]. *)
Lemma add_vertex_duplicate_at_capacity :
  reachable full_graph ∧
  has_name full_graph "p0" ∧
  eval (add_vertex "p0") full_graph = -1 ∧
  eval (add_vertex "p0") full_graph ≠ -2.
Proof.
  split_and!.
  - apply reachable_build.
  - exists 0. split; [by vm_compute | by vm_compute].
  - by vm_compute.
  - by vm_compute.
Qed.

(** C8. No partial mutation: whenever a mutating operation (by index
    or by name) returns an error code, that is a non-zero value, the
    graph is exactly the one before the call. *)
Theorem failed_mutation_leaves_graph o g :
  eval (run_op o) g ≠ 0 → exec (run_op o) g = g.
Proof.
  unfold eval, exec. destruct o as [s|u v|a b|u v|a b|t|s]; simpl run_op.
  - fold (eval (add_vertex s) g). fold (exec (add_vertex s) g).
    rewrite add_vertex_exec, add_vertex_eval.
    destruct (_ >=? _); [done|]. by destruct (negb _).
  - rewrite add_edge_by_index_run.
    destruct (_ || _); [done|]. destruct (_ =? _); [done|].
    by destruct (negb _).
  - rewrite add_edge_run, add_edge_by_index_run.
    destruct (_ || _); [done|]. destruct (_ || _); [done|].
    destruct (_ =? _); [done|]. by destruct (negb _).
  - rewrite remove_edge_by_index_run.
    destruct (_ || _); [done|]. by destruct (_ =? 0).
  - rewrite remove_edge_run, remove_edge_by_index_run.
    destruct (_ || _); [done|]. destruct (_ || _); [done|].
    by destruct (_ =? 0).
  - rewrite remove_vertex_by_index_run. by destruct (_ || _).
  - rewrite remove_vertex_run, remove_vertex_by_index_run.
    destruct (_ =? -1); [done|]. by destruct (_ || _).
Qed.

(** And a successful [add_edge_by_index] inserts on both sides. *)
Lemma add_edge_by_index_both_sides u v g :
  shape g → n g ≤ MAX_VERTICES →
  eval (add_edge_by_index u v) g = 0 →
  hd_of (exec (add_edge_by_index u v) g) u = v :: hd_of g u ∧
  hd_of (exec (add_edge_by_index u v) g) v = u :: hd_of g v.
Proof.
  intros Hs Hn. unfold eval, exec. rewrite add_edge_by_index_run.
  destruct (_ || _) eqn:Hrange; [done|].
  destruct (u =? v) eqn:Huv; [done|].
  destruct (negb _); [done|]. intros _. simpl.
  rewrite !add_edge_state_hd by (done || lia).
  rewrite decide_True by done. rewrite decide_False by lia.
  by rewrite decide_True.
Qed.

(** C10. After a successful [add_vertex s] the count has grown by one,
    the appended vertex, at the old count, holds the name [s], and
    [find_vertex_index s] returns its position, the new count minus
    one.  Uniqueness of the names already present is not needed. *)
Theorem find_after_add_vertex g s :
  shape g → 0 ≤ n g →
  eval (add_vertex s) g = 0 →
  n (exec (add_vertex s) g) = n g + 1 ∧
  nm_of (exec (add_vertex s) g) (n g) = Some s ∧
  eval (find_vertex_index s) (exec (add_vertex s) g) = n g ∧
  eval (find_vertex_index s) (exec (add_vertex s) g) =
    n (exec (add_vertex s) g) - 1.
Proof.
  intros Hs Hn0. rewrite add_vertex_eval, add_vertex_exec.
  destruct (n g >=? MAX_VERTICES) eqn:Hfull; [done|].
  destruct (eval (find_vertex_index s) g =? -1) eqn:Hfind; [|done].
  simpl negb. cbv iota. intros _.
  set (g' := exec (set_n (n g + 1)) _).
  assert (Hn' : n g' = n g + 1) by done.
  assert (Hnm : ∀ k, 0 ≤ k →
    nm_of g' k = if decide (k = n g) then Some s else nm_of g k).
  { intros k Hk. unfold g'.
    change (nm_of (exec (set_n (n g + 1))
      (exec (set_head (n g) []) (exec (set_name (n g) (Some s)) g))) k)
      with (nm_of (exec (set_head (n g) []) (exec (set_name (n g) (Some s)) g)) k).
    rewrite nm_set_head by (done || lia || by apply shape_set_name).
    by rewrite nm_set_name by (done || lia). }
  assert (Hfound : eval (find_vertex_index s) g' = n g).
  { destruct (find_vertex_index_spec s g) as [[_ Hall]|(Hrange & _)]; [|lia].
    destruct (find_vertex_index_spec s g')
      as [[_ Hall']|(Hrange & Hm & Hfirst)].
    - specialize (Hall' (n g) ltac:(lia)).
      rewrite Hnm, decide_True in Hall' by lia. simpl in Hall'.
      by rewrite bool_decide_eq_false in Hall'.
    - destruct (decide (eval (find_vertex_index s) g' = n g)) as [->|Hne];
        [done|].
      rewrite Hnm, decide_False in Hm by lia.
      rewrite Hall in Hm by lia. done. }
  split_and!.
  - done.
  - rewrite Hnm by done. by rewrite decide_True.
  - done.
  - rewrite Hfound, Hn'. lia.
Qed.

(** * The scenarios of the specification *)

(** C1. Compaction: from the empty graph, with vertices A, B, C, D at
    positions 0 to 3 and the edges A-C and B-D, removing position 1 (B)
    succeeds and leaves exactly A, C, D at positions 0, 1, 2, the single
    edge between positions 0 and 1, and D at position 2 without
    neighbours. *)
Theorem compaction_scenario :
  exec init_graph uninit_graph = empty_graph ∧
  names abcd_graph = [Some "A"; Some "B"; Some "C"; Some "D"] ∧
  edges abcd_graph = [(0, 2); (1, 3)] ∧
  eval (remove_vertex_by_index 1) abcd_graph = 0 ∧
  exec (remove_vertex_by_index 1) abcd_graph = acd_graph ∧
  exec (remove_vertex "B") abcd_graph = acd_graph ∧
  n acd_graph = 3 ∧
  names acd_graph = [Some "A"; Some "C"; Some "D"] ∧
  heads acd_graph = [[1]; [0]; []] ∧
  edges acd_graph = [(0, 1)] ∧
  hd_of acd_graph 2 = [].
Proof. split_and!; by vm_compute. Qed.

(** C7. End to end: from the empty graph, with Alice, Bob, Carol at
    positions 0, 1, 2 and the edges Alice-Bob then Alice-Carol, the
    breadth-first search from Alice returns [0; 2; 1] (the edge added
    last comes first in a list), and removing Alice then leaves exactly
    Bob and Carol at positions 0 and 1, without edges. *)
Theorem end_to_end_scenario :
  names alice_graph = [Some "Alice"; Some "Bob"; Some "Carol"] ∧
  heads alice_graph = [[2; 1]; [0]; [0]] ∧
  eval (find_vertex_index "Alice") alice_graph = 0 ∧
  (∀ k : nat,
     visit_sequence <$> eval (bfs (4 + k) 0 out_buffer 20) alice_graph
       = Some [0; 2; 1]) ∧
  eval (remove_vertex "Alice") alice_graph = 0 ∧
  exec (remove_vertex "Alice") alice_graph = bob_carol_graph ∧
  n bob_carol_graph = 2 ∧
  names bob_carol_graph = [Some "Bob"; Some "Carol"] ∧
  heads bob_carol_graph = [[]; []] ∧
  edges bob_carol_graph = [].
Proof.
  split_and!; by vm_compute.
Qed.

(** * Names, cleared slots, edges and buffers *)

(** ** Names *)

Lemma name_matches_false nm s : name_matches nm s = false ↔ nm ≠ Some s.
Proof.
  rewrite <-name_matches_true. destruct (name_matches nm s); split; congruence.
Qed.

Lemma add_vertex_state_nm g s k :
  shape g → 0 ≤ n g < MAX_VERTICES → 0 ≤ k →
  nm_of (exec (set_n (n g + 1))
           (exec (set_head (n g) []) (exec (set_name (n g) (Some s)) g))) k =
    if decide (k = n g) then Some s else nm_of g k.
Proof.
  intros Hs Hn Hk.
  change (nm_of (exec (set_n (n g + 1))
      (exec (set_head (n g) []) (exec (set_name (n g) (Some s)) g))) k)
    with (nm_of (exec (set_head (n g) []) (exec (set_name (n g) (Some s)) g)) k).
  rewrite nm_set_head by (done || by apply shape_set_name).
  by rewrite nm_set_name.
Qed.

Lemma add_edge_state_nm g u v a :
  shape g → 0 ≤ u < MAX_VERTICES → 0 ≤ v < MAX_VERTICES → 0 ≤ a →
  nm_of (add_edge_state u v g) a = nm_of g a.
Proof.
  intros Hs Hu Hv Ha. unfold add_edge_state.
  set (g1 := exec (set_head u (v :: hd_of g u)) g).
  assert (Hs1 : shape g1) by by apply shape_set_head.
  change (nm_of (exec (set_head v (u :: hd_of g1 v)) g1) a = nm_of g a).
  rewrite nm_set_head by done. unfold g1. by rewrite nm_set_head.
Qed.

Lemma remove_edge_state_nm g u v a :
  shape g → 0 ≤ u < MAX_VERTICES → 0 ≤ v < MAX_VERTICES → 0 ≤ a →
  nm_of (remove_edge_state u v g) a = nm_of g a.
Proof.
  intros Hs Hu Hv Ha. unfold remove_edge_state.
  set (g1 := exec (set_head u (unlink_first (hd_of g u) v)) g).
  assert (Hs1 : shape g1) by by apply shape_set_head.
  change (nm_of (exec (set_head v (unlink_first (hd_of g1 v) u)) g1) a
          = nm_of g a).
  rewrite nm_set_head by done. unfold g1. by rewrite nm_set_head.
Qed.

Lemma shift_up_inj t a b : shift_up t a = shift_up t b → a = b.
Proof. unfold shift_up. repeat case_decide; lia. Qed.

Lemma add_vertex_names_ok s g :
  wf g → names_ok g → names_ok (exec (add_vertex s) g).
Proof.
  intros Hwf [Hnamed Hdist]. rewrite add_vertex_exec.
  destruct (n g >=? MAX_VERTICES) eqn:Hfull; [done|].
  destruct (eval (find_vertex_index s) g =? -1) eqn:Hfind; [|done].
  simpl negb. cbv iota.
  pose proof (wf_shape _ Hwf) as Hs. pose proof (wf_n _ Hwf) as Hn.
  assert (Hn' : 0 ≤ n g < MAX_VERTICES) by lia.
  destruct (find_vertex_index_spec s g) as [[_ Hall]|(Hrange & _)]; [|lia].
  split.
  - intros i Hi. simpl in Hi. rewrite add_vertex_state_nm by (done || lia).
    case_decide; [done | apply Hnamed; lia].
  - intros i j Hi Hj. simpl in Hi, Hj.
    rewrite !add_vertex_state_nm by (done || lia).
    repeat case_decide; subst; try done.
    + intros Heq. symmetry in Heq. apply name_matches_true in Heq.
      rewrite Hall in Heq by lia. done.
    + intros Heq. apply name_matches_true in Heq.
      rewrite Hall in Heq by lia. done.
    + apply Hdist; lia.
Qed.

Lemma add_edge_by_index_names_ok u v g :
  wf g → names_ok g → names_ok (exec (add_edge_by_index u v) g).
Proof.
  intros Hwf [Hnamed Hdist]. unfold exec. rewrite add_edge_by_index_run.
  destruct (_ || _) eqn:Hrange; [done|].
  destruct (u =? v); [done|]. destruct (negb _); [done|]. simpl.
  pose proof (wf_shape _ Hwf) as Hs. pose proof (wf_n _ Hwf) as Hn.
  split.
  - intros i Hi. rewrite add_edge_state_n in Hi.
    rewrite add_edge_state_nm by (done || lia). by apply Hnamed.
  - intros i j. rewrite add_edge_state_n. intros Hi Hj.
    rewrite !add_edge_state_nm by (done || lia). by apply Hdist.
Qed.

Lemma remove_edge_by_index_names_ok u v g :
  wf g → names_ok g → names_ok (exec (remove_edge_by_index u v) g).
Proof.
  intros Hwf [Hnamed Hdist]. unfold exec. rewrite remove_edge_by_index_run.
  destruct (_ || _) eqn:Hrange; [done|].
  destruct (_ =? 0); [done|]. simpl.
  pose proof (wf_shape _ Hwf) as Hs. pose proof (wf_n _ Hwf) as Hn.
  split.
  - intros i Hi. rewrite remove_edge_state_n in Hi.
    rewrite remove_edge_state_nm by (done || lia). by apply Hnamed.
  - intros i j. rewrite remove_edge_state_n. intros Hi Hj.
    rewrite !remove_edge_state_nm by (done || lia). by apply Hdist.
Qed.

Lemma remove_vertex_state_nm t g a :
  shape g → 0 ≤ t < n g → n g ≤ MAX_VERTICES → 0 ≤ a < n g - 1 →
  nm_of (remove_vertex_state t g) a = nm_of g (shift_up t a).
Proof.
  intros Hs Ht Hn Ha.
  destruct (remove_vertex_state_spec t g Hs Ht Hn) as (_ & _ & Hv & _).
  unfold nm_of at 1. by rewrite Hv.
Qed.

Lemma remove_vertex_by_index_names_ok t g :
  wf g → names_ok g → names_ok (exec (remove_vertex_by_index t) g).
Proof.
  intros Hwf [Hnamed Hdist]. unfold exec. rewrite remove_vertex_by_index_run.
  destruct (_ || _) eqn:Hrange; [done|]. simpl.
  pose proof (wf_shape _ Hwf) as Hs. pose proof (wf_n _ Hwf) as Hn.
  assert (Ht : 0 ≤ t < n g) by lia.
  destruct (remove_vertex_state_spec t g Hs Ht ltac:(lia)) as (_ & Hn' & _ & _).
  assert (Hsu : ∀ a, 0 ≤ a < n g - 1 → 0 ≤ shift_up t a < n g).
  { intros a Ha. unfold shift_up. case_decide; lia. }
  split.
  - intros i. rewrite Hn'. intros Hi.
    rewrite remove_vertex_state_nm by (done || lia). by apply Hnamed, Hsu.
  - intros i j. rewrite Hn'. intros Hi Hj.
    rewrite !remove_vertex_state_nm by (done || lia).
    intros Heq%Hdist; [by eapply shift_up_inj | by apply Hsu..].
Qed.

Lemma run_op_names_ok o g :
  wf g → names_ok g → names_ok (exec (run_op o) g).
Proof.
  intros Hwf Hok. destruct o as [s|u v|a b|u v|a b|t|s]; simpl run_op.
  - by apply add_vertex_names_ok.
  - by apply add_edge_by_index_names_ok.
  - unfold exec. rewrite add_edge_run. destruct (_ || _); [done|].
    by apply add_edge_by_index_names_ok.
  - by apply remove_edge_by_index_names_ok.
  - unfold exec. rewrite remove_edge_run. destruct (_ || _); [done|].
    by apply remove_edge_by_index_names_ok.
  - by apply remove_vertex_by_index_names_ok.
  - unfold exec. rewrite remove_vertex_run. destruct (_ =? _); [done|].
    by apply remove_vertex_by_index_names_ok.
Qed.

Lemma reachable_names_ok g : reachable g → names_ok g.
Proof.
  induction 1 as [g0 Hs|g o Hr IH].
  - rewrite init_graph_spec by done. split; simpl; intros; lia.
  - apply run_op_names_ok; [by apply reachable_wf | done].
Qed.

Lemma find_vertex_index_at g i s :
  names_ok g → 0 ≤ i < n g → nm_of g i = Some s →
  eval (find_vertex_index s) g = i.
Proof.
  intros [_ Hdist] Hi Hnm.
  destruct (find_vertex_index_spec s g) as [[_ Hall]|(Hr & Hm & _)].
  - specialize (Hall i Hi). apply name_matches_false in Hall. done.
  - apply name_matches_true in Hm. apply Hdist; [done..|congruence].
Qed.

(** ** Equality of graphs *)

Lemma vertex_eta (x : Vertex) : x = mkVertex (name x) (head x).
Proof. by destruct x. Qed.

Lemma vertex_ext (x y : Vertex) : name x = name y → head x = head y → x = y.
Proof. destruct x, y. simpl. congruence. Qed.

Lemma graph_ext g g' :
  shape g → shape g' → n g' = n g →
  (∀ a, 0 ≤ a < MAX_VERTICES → nm_of g' a = nm_of g a) →
  (∀ a, 0 ≤ a < MAX_VERTICES → hd_of g' a = hd_of g a) →
  (∀ a b, 0 ≤ a < MAX_VERTICES → 0 ≤ b < MAX_VERTICES →
     cell g' a b = cell g a b) →
  g' = g.
Proof.
  intros [Lv Lr Lc] [Lv' Lr' Lc'] Hn Hnm Hhd Hcell.
  destruct g as [vs k m], g' as [vs' k' m']. simpl in *. f_equal.
  - apply arr_ext; [congruence|]. intros a Ha. rewrite Lv' in Ha.
    apply vertex_ext; [by apply Hnm | by apply Hhd].
  - done.
  - apply arr_ext; [congruence|]. intros a Ha. rewrite Lr' in Ha.
    apply arr_ext; [rewrite Lc, Lc' by done; done|].
    intros b Hb. rewrite Lc' in Hb by done. by apply Hcell.
Qed.

(** ** Adding and removing an edge *)

Lemma add_edge_by_index_eval u v g :
  eval (add_edge_by_index u v) g =
    if (u <? 0) || (u >=? n g) || (v <? 0) || (v >=? n g) then -1
    else if u =? v then -1
    else if negb (cell g u v =? 0) then -1 else 0.
Proof.
  unfold eval. rewrite add_edge_by_index_run.
  destruct (_ || _); [done|]. destruct (u =? v); [done|].
  by destruct (negb _).
Qed.

Lemma remove_edge_by_index_eval u v g :
  eval (remove_edge_by_index u v) g =
    if (u <? 0) || (v <? 0) || (u >=? n g) || (v >=? n g) then -1
    else if cell g u v =? 0 then -1 else 0.
Proof.
  unfold eval. rewrite remove_edge_by_index_run.
  destruct (_ || _); [done|]. by destruct (_ =? 0).
Qed.

Lemma wf_cell_zero g u v :
  wf g → 0 ≤ u < n g → 0 ≤ v < n g → cell g u v = 0 ↔ v ∉ hd_of g u.
Proof.
  intros Hwf Hu Hv. pose proof (wf_n _ Hwf) as Hn.
  rewrite <-(wf_mirror _ Hwf u v Hu Hv).
  destruct (wf_bit _ Hwf u v) as [H0|H1]; lia.
Qed.

Lemma wf_no_self_loop g i : wf g → 0 ≤ i < n g → i ∉ hd_of g i.
Proof.
  intros Hwf Hi. pose proof (wf_n _ Hwf) as Hn.
  apply wf_cell_zero; [done..|]. apply (wf_irrefl _ Hwf). lia.
Qed.

Lemma add_edge_by_index_succeeds u v g :
  wf g →
  eval (add_edge_by_index u v) g = 0 ↔
  0 ≤ u < n g ∧ 0 ≤ v < n g ∧ u ≠ v ∧ v ∉ hd_of g u.
Proof.
  intros Hwf. rewrite add_edge_by_index_eval.
  destruct (_ || _) eqn:Hrange.
  { split; [done|]. intros (? & ? & _). lia. }
  assert (Hu : 0 ≤ u < n g) by lia. assert (Hv : 0 ≤ v < n g) by lia.
  rewrite <-wf_cell_zero by done.
  destruct (u =? v) eqn:Huv; [split; [done | intros (_ & _ & ? & _); lia]|].
  destruct (cell g u v =? 0) eqn:Hc; simpl.
  - apply Z.eqb_eq in Hc. split; [intros _; split_and!; lia | done].
  - apply Z.eqb_neq in Hc. split; [done | intros (_ & _ & _ & ?); lia].
Qed.

Lemma remove_edge_by_index_succeeds u v g :
  wf g →
  eval (remove_edge_by_index u v) g = 0 ↔
  0 ≤ u < n g ∧ 0 ≤ v < n g ∧ v ∈ hd_of g u.
Proof.
  intros Hwf. rewrite remove_edge_by_index_eval.
  destruct (_ || _) eqn:Hrange.
  { split; [done|]. intros (? & ? & _). lia. }
  assert (Hu : 0 ≤ u < n g) by lia. assert (Hv : 0 ≤ v < n g) by lia.
  rewrite <-(wf_mirror _ Hwf u v Hu Hv).
  pose proof (wf_n _ Hwf) as Hn.
  destruct (cell g u v =? 0) eqn:Hc.
  - apply Z.eqb_eq in Hc. split; [done | intros (_ & _ & ?); lia].
  - apply Z.eqb_neq in Hc. split; [intros _; split_and!; try lia | done].
    destruct (wf_bit _ Hwf u v) as [H0|H1]; lia.
Qed.

Lemma add_edge_by_index_exec_ok u v g :
  eval (add_edge_by_index u v) g = 0 →
  exec (add_edge_by_index u v) g = add_edge_state u v g.
Proof.
  unfold eval, exec. rewrite add_edge_by_index_run.
  destruct (_ || _); [done|]. destruct (u =? v); [done|].
  by destruct (negb _).
Qed.

Lemma remove_edge_by_index_exec_ok u v g :
  eval (remove_edge_by_index u v) g = 0 →
  exec (remove_edge_by_index u v) g = remove_edge_state u v g.
Proof.
  unfold eval, exec. rewrite remove_edge_by_index_run.
  destruct (_ || _); [done|]. by destruct (_ =? 0).
Qed.

Lemma unlink_first_head l x : unlink_first (x :: l) x = l.
Proof. simpl. by rewrite Z.eqb_refl. Qed.

Lemma add_then_remove_state u v g :
  wf g → 0 ≤ u < n g → 0 ≤ v < n g → u ≠ v → cell g u v = 0 →
  remove_edge_state u v (add_edge_state u v g) = g ∧
  remove_edge_state v u (add_edge_state u v g) = g.
Proof.
  intros Hwf Hu Hv Hne Hc0.
  pose proof (wf_shape _ Hwf) as Hs. pose proof (wf_n _ Hwf) as Hn.
  assert (Hu' : 0 ≤ u < MAX_VERTICES) by lia.
  assert (Hv' : 0 ≤ v < MAX_VERTICES) by lia.
  assert (Hs1 : shape (add_edge_state u v g))
    by by apply add_edge_state_shape.
  assert (Hc0' : cell g v u = 0) by (rewrite (wf_sym _ Hwf) by lia; done).
  split; apply graph_ext; try done.
  - by apply remove_edge_state_shape.
  - intros a Ha. rewrite remove_edge_state_nm by (done || lia).
    by rewrite add_edge_state_nm by (done || lia).
  - intros a Ha. rewrite remove_edge_state_hd by (done || lia).
    rewrite !add_edge_state_hd by (done || lia).
    rewrite (decide_True (P := u = u)) by done.
    rewrite (decide_False (P := v = u)) by lia.
    rewrite (decide_True (P := v = v)) by done.
    rewrite !unlink_first_head. repeat case_decide; by subst.
  - intros a b Ha Hb. rewrite remove_edge_state_cell by (done || lia).
    rewrite add_edge_state_cell by (done || lia).
    repeat case_decide; destruct_and?; destruct_or?; destruct_and?; subst;
      (done || tauto).
  - apply remove_edge_state_shape; (done || lia).
  - intros a Ha. rewrite remove_edge_state_nm by (done || lia).
    by rewrite add_edge_state_nm by (done || lia).
  - intros a Ha. rewrite remove_edge_state_hd by (done || lia).
    rewrite !add_edge_state_hd by (done || lia).
    rewrite (decide_True (P := u = u)) by done.
    rewrite (decide_False (P := v = u)) by lia.
    rewrite (decide_True (P := v = v)) by done.
    rewrite !unlink_first_head. repeat case_decide; by subst.
  - intros a b Ha Hb. rewrite remove_edge_state_cell by (done || lia).
    rewrite add_edge_state_cell by (done || lia).
    repeat case_decide; destruct_and?; destruct_or?; destruct_and?; subst;
      (done || tauto).
Qed.

(** ** Vertices past the count *)

Lemma remove_vertex_state_tail t g a :
  shape g → 0 ≤ t < n g → n g ≤ MAX_VERTICES → n g - 1 ≤ a →
  arr_get (vertices (remove_vertex_state t g)) a =
    if decide (a = n g - 1) then mkVertex None []
    else arr_get (vertices g) a.
Proof.
  intros Hs Ht Hn Ha. unfold remove_vertex_state.
  set (g1 := exec (map_heads _ _ 0 (n g)) g).
  set (g2 := exec (set_name t None) _).
  set (g3 := exec (shift_vertices t (n g)) g2).
  set (g4 := exec (set_name (n g - 1) None) _).
  set (g5 := exec (shift_rows t (n g)) g4).
  set (g6 := exec (shift_cols t (n g)) g5).
  set (g7 := exec (clear_last (n g)) g6).
  set (g8 := exec (map_heads _ _ 0 (n g - 1)) g7).
  pose proof (map_heads_spec g (λ i, i =? t)
    (λ h, remove_occurrences_from_list h t) 0 (n g) Hs ltac:(lia) Hn) as H1.
  fold g1 in H1.
  pose proof (vtx_step_set_name _ _ _ t None
    (vtx_step_set_head _ _ _ t [] H1 ltac:(lia)) ltac:(lia)) as H2.
  fold g2 in H2.
  assert (Hs2 : shape g2) by apply H2.
  pose proof (shift_vertices_spec g2 t (n g) Hs2 ltac:(lia) Hn) as H3.
  fold g3 in H3.
  pose proof (vtx_step_set_name _ _ _ (n g - 1) None
    (vtx_step_set_head _ _ _ (n g - 1) [] H3 ltac:(lia)) ltac:(lia)) as H4.
  fold g4 in H4.
  assert (Hs4 : shape g4) by apply H4.
  pose proof (shift_rows_spec g4 t (n g) Hs4 ltac:(lia) Hn) as H5.
  fold g5 in H5.
  assert (Hs5 : shape g5) by apply H5.
  pose proof (shift_cols_spec g5 t (n g) Hs5 ltac:(lia) Hn) as H6.
  fold g6 in H6.
  assert (Hs6 : shape g6) by apply H6.
  pose proof (clear_last_spec g6 (n g) Hs6 ltac:(lia)) as H7.
  fold g7 in H7.
  assert (Hs7 : shape g7) by apply H7.
  pose proof (map_heads_spec g7 (λ _, false)
    (λ h, renumber_list h t) 0 (n g - 1) Hs7 ltac:(lia) ltac:(lia)) as H8.
  fold g8 in H8.
  destruct H2 as (_ & _ & _ & V2).
  destruct H4 as (_ & _ & _ & V4).
  destruct H5 as (_ & _ & E5 & _).
  destruct H6 as (_ & _ & E6 & _).
  destruct H7 as (_ & _ & E7 & _).
  destruct H8 as (_ & _ & _ & V8).
  change (arr_get (vertices g8) a =
    if decide (a = n g - 1) then mkVertex None []
    else arr_get (vertices g) a).
  rewrite V8 by lia. rewrite decide_False by lia.
  rewrite E7, E6, E5, V4 by lia.
  destruct (decide (a = n g - 1)) as [Ha1|Ha1]; [by rewrite decide_True|].
  rewrite decide_False by lia.
  rewrite V2 by lia. rewrite !(decide_False (P := a = t)) by lia.
  rewrite decide_False by lia. done.
Qed.

Lemma add_vertex_state_vertex g s a :
  shape g → 0 ≤ n g < MAX_VERTICES → 0 ≤ a →
  arr_get (vertices (exec (set_n (n g + 1))
     (exec (set_head (n g) []) (exec (set_name (n g) (Some s)) g)))) a =
    if decide (a = n g) then mkVertex (Some s) [] else arr_get (vertices g) a.
Proof.
  intros Hs Hn Ha.
  change (arr_get (vertices (exec (set_head (n g) [])
            (exec (set_name (n g) (Some s)) g))) a =
    if decide (a = n g) then mkVertex (Some s) [] else arr_get (vertices g) a).
  rewrite vertex_set_head by (done || by apply shape_set_name).
  case_decide.
  - by rewrite nm_set_name, decide_True by (done || lia).
  - rewrite vertex_set_name by done. by rewrite decide_False.
Qed.

Lemma add_edge_state_vertex g u v a :
  shape g → 0 ≤ u < MAX_VERTICES → 0 ≤ v < MAX_VERTICES → u ≠ v →
  0 ≤ a → a ≠ u → a ≠ v →
  arr_get (vertices (add_edge_state u v g)) a = arr_get (vertices g) a.
Proof.
  intros Hs Hu Hv Hne Ha Hau Hav. apply vertex_ext.
  - by apply add_edge_state_nm.
  - fold (hd_of (add_edge_state u v g) a). fold (hd_of g a).
    rewrite add_edge_state_hd by done. by rewrite !decide_False.
Qed.

Lemma remove_edge_state_vertex g u v a :
  shape g → 0 ≤ u < MAX_VERTICES → 0 ≤ v < MAX_VERTICES → u ≠ v →
  0 ≤ a → a ≠ u → a ≠ v →
  arr_get (vertices (remove_edge_state u v g)) a = arr_get (vertices g) a.
Proof.
  intros Hs Hu Hv Hne Ha Hau Hav. apply vertex_ext.
  - by apply remove_edge_state_nm.
  - fold (hd_of (remove_edge_state u v g) a). fold (hd_of g a).
    rewrite remove_edge_state_hd by done. by rewrite !decide_False.
Qed.

Lemma run_op_blank_beyond o g :
  wf g → blank_beyond g → blank_beyond (exec (run_op o) g).
Proof.
  intros Hwf Hbl.
  pose proof (wf_shape _ Hwf) as Hs. pose proof (wf_n _ Hwf) as Hn.
  assert (Hadd : ∀ u v, blank_beyond (exec (add_edge_by_index u v) g)).
  { intros u v. unfold exec. rewrite add_edge_by_index_run.
    destruct (_ || _) eqn:Hrange; [done|].
    destruct (u =? v) eqn:Huv; [done|]. destruct (negb _); [done|]. simpl.
    intros i Hi. rewrite add_edge_state_n in Hi.
    rewrite add_edge_state_vertex by (done || lia). by apply Hbl. }
  assert (Hrem : ∀ u v, blank_beyond (exec (remove_edge_by_index u v) g)).
  { intros u v. unfold exec. rewrite remove_edge_by_index_run.
    destruct (_ || _) eqn:Hrange; [done|].
    destruct (_ =? 0) eqn:Hc; [done|]. simpl.
    assert (u ≠ v).
    { intros ->. rewrite (wf_irrefl _ Hwf) in Hc by lia. done. }
    intros i Hi. rewrite remove_edge_state_n in Hi.
    rewrite remove_edge_state_vertex by (done || lia). by apply Hbl. }
  assert (Hrv : ∀ t, blank_beyond (exec (remove_vertex_by_index t) g)).
  { intros t. unfold exec. rewrite remove_vertex_by_index_run.
    destruct (_ || _) eqn:Hrange; [done|]. simpl.
    assert (Ht : 0 ≤ t < n g) by lia.
    destruct (remove_vertex_state_spec t g Hs Ht ltac:(lia)) as (_ & Hn' & _ & _).
    intros i. rewrite Hn'. intros Hi.
    rewrite remove_vertex_state_tail by (done || lia).
    case_decide; [done|]. apply Hbl. lia. }
  destruct o as [s|u v|a b|u v|a b|t|s]; simpl run_op; try done.
  - rewrite add_vertex_exec.
    destruct (n g >=? MAX_VERTICES) eqn:Hfull; [done|].
    destruct (negb _); [done|].
    intros i Hi. simpl in Hi.
    rewrite add_vertex_state_vertex by (done || lia).
    rewrite decide_False by lia. apply Hbl. lia.
  - unfold exec. rewrite add_edge_run. destruct (_ || _); [done|]. apply Hadd.
  - unfold exec. rewrite remove_edge_run. destruct (_ || _); [done|]. apply Hrem.
  - unfold exec. rewrite remove_vertex_run. destruct (_ =? _); [done|]. apply Hrv.
Qed.

Lemma reachable_blank_beyond g : reachable g → blank_beyond g.
Proof.
  induction 1 as [g0 Hs|g o Hr IH].
  - rewrite init_graph_spec by done. intros i Hi. simpl in Hi.
    unfold empty_graph, blank_vertices. cbn [vertices].
    apply arr_get_replicate. unfold MAX_VERTICES in *. lia.
  - apply run_op_blank_beyond; [by apply reachable_wf | done].
Qed.

(** ** Adding and removing a vertex *)

Lemma find_vertex_index_absent g s :
  eval (find_vertex_index s) g = -1 ↔ ¬ has_name g s.
Proof.
  split.
  - intros Hr Hname. by apply find_vertex_index_found in Hname.
  - intros Hno.
    destruct (find_vertex_index_spec s g) as [[Hr _]|(Hr & Hm & _)]; [done|].
    exfalso. apply Hno. exists (eval (find_vertex_index s) g).
    split; [done|]. by apply name_matches_true.
Qed.

Lemma add_vertex_succeeds g s :
  eval (add_vertex s) g = 0 ↔ n g < MAX_VERTICES ∧ ¬ has_name g s.
Proof.
  rewrite add_vertex_eval, <-find_vertex_index_absent.
  destruct (n g >=? MAX_VERTICES) eqn:Hfull.
  { split; [done | lia]. }
  destruct (eval (find_vertex_index s) g =? -1) eqn:Hf; simpl.
  - split; [intros _; lia | done].
  - split; [done | lia].
Qed.

Lemma add_vertex_exec_ok g s :
  eval (add_vertex s) g = 0 →
  exec (add_vertex s) g =
    exec (set_n (n g + 1))
      (exec (set_head (n g) []) (exec (set_name (n g) (Some s)) g)).
Proof.
  rewrite add_vertex_eval, add_vertex_exec.
  destruct (n g >=? MAX_VERTICES); [done|]. by destruct (negb _).
Qed.

Lemma compacted_below l t :
  (∀ x, x ∈ l → x < t) →
  renumber_list (remove_occurrences_from_list l t) t = l.
Proof.
  induction l as [|x l IH]; intros Hlt; [done|]. simpl.
  assert (Hx : x < t) by (apply Hlt; left).
  assert (Hl : ∀ y, y ∈ l → y < t) by (intros y Hy; apply Hlt; by right).
  destruct (x =? t) eqn:E; [lia|]. simpl.
  destruct (x >? t) eqn:E'; [lia|]. by rewrite IH.
Qed.

Lemma add_then_remove_vertex_state g s :
  wf g → blank_beyond g → n g < MAX_VERTICES →
  remove_vertex_state (n g)
    (exec (set_n (n g + 1))
       (exec (set_head (n g) []) (exec (set_name (n g) (Some s)) g))) = g.
Proof.
  intros Hwf Hbl Hfull.
  pose proof (wf_shape _ Hwf) as Hs. pose proof (wf_n _ Hwf) as Hn.
  set (g1 := exec (set_n (n g + 1)) _).
  assert (Hn1 : n g1 = n g + 1) by done.
  assert (Hs1 : shape g1).
  { apply shape_set_n, shape_set_head. by apply shape_set_name. }
  assert (Hv1 : ∀ a, 0 ≤ a → arr_get (vertices g1) a =
    if decide (a = n g) then mkVertex (Some s) [] else arr_get (vertices g) a).
  { intros a Ha. apply add_vertex_state_vertex; (done || lia). }
  assert (Hc1 : ∀ a b, cell g1 a b = cell g a b) by done.
  destruct (remove_vertex_state_spec (n g) g1 Hs1 ltac:(lia) ltac:(lia))
    as (Hs2 & Hn2 & Hv2 & Hc2).
  assert (Hsu : ∀ a, a < n g → shift_up (n g) a = a).
  { intros a Ha. unfold shift_up. by rewrite decide_False by lia. }
  assert (Hvert : ∀ a, 0 ≤ a < MAX_VERTICES →
    arr_get (vertices (remove_vertex_state (n g) g1)) a = arr_get (vertices g) a).
  { intros a Ha. destruct (decide (a < n g)) as [Hlt|Hge].
    - rewrite Hv2 by lia. rewrite Hsu by done.
      unfold nm_of, hd_of. rewrite Hv1 by lia. rewrite decide_False by lia.
      rewrite compacted_below; [symmetry; apply vertex_eta|].
      intros x Hx. apply (wf_entries _ Hwf a); [lia | done].
    - rewrite remove_vertex_state_tail by (done || lia).
      rewrite Hn1. case_decide.
      + symmetry. apply Hbl. lia.
      + rewrite Hv1 by lia. by rewrite decide_False by lia. }
  apply graph_ext; try done.
  - lia.
  - intros a Ha. unfold nm_of. by rewrite Hvert.
  - intros a Ha. unfold hd_of. by rewrite Hvert.
  - intros a b Ha Hb. rewrite Hc2 by lia. rewrite Hn1.
    repeat case_decide; destruct_and?.
    + by rewrite !Hsu, Hc1 by lia.
    + destruct (decide (n g ≤ a)) as [Hna|Hna].
      * symmetry. apply (wf_blank _ Hwf); lia.
      * rewrite (wf_sym _ Hwf) by lia. symmetry. apply (wf_blank _ Hwf); lia.
    + apply Hc1.
Qed.

Lemma remove_vertex_by_index_exec_ok t g :
  0 ≤ t < n g →
  remove_vertex_by_index t g = (0, remove_vertex_state t g).
Proof.
  intros Ht. rewrite remove_vertex_by_index_run.
  by rewrite (proj2 (orb_false_iff _ _)) by (split; lia).
Qed.

(** The adjacency lists after a removal, in the positions before it. *)
Lemma remove_vertex_state_adjacent t g a b :
  wf g → 0 ≤ t < n g → 0 ≤ a < n g - 1 → 0 ≤ b < n g - 1 →
  b ∈ hd_of (remove_vertex_state t g) a ↔
  shift_up t b ∈ hd_of g (shift_up t a).
Proof.
  intros Hwf Ht Ha Hb.
  pose proof (wf_shape _ Hwf) as Hs. pose proof (wf_n _ Hwf) as Hn.
  destruct (remove_vertex_state_spec t g Hs Ht ltac:(lia)) as (_ & _ & Hv & _).
  unfold hd_of at 1. rewrite Hv by done. simpl.
  rewrite elem_of_compacted. split.
  - intros (y & Hy & Hyt & ->). by rewrite shift_up_renumber.
  - intros Hin. exists (shift_up t b).
    split_and!; [done | apply shift_up_ne | by rewrite renumber_shift_up].
Qed.

Lemma names_delete t g :
  shape g → 0 ≤ t < n g → n g ≤ MAX_VERTICES →
  names (remove_vertex_state t g) = delete (Z.to_nat t) (names g).
Proof.
  intros Hs Ht Hn.
  destruct (remove_vertex_state_spec t g Hs Ht Hn) as (Hs' & Hn' & Hv & _).
  pose proof (shape_vertices _ Hs) as Lv. pose proof (shape_vertices _ Hs') as Lv'.
  unfold alen in Lv, Lv'.
  assert (Hlen : length (names g) = Z.to_nat (n g)).
  { unfold names. rewrite length_fmap, length_take. lia. }
  apply list_eq_same_length with (Z.to_nat (n g - 1)).
  - rewrite length_delete, Hlen; [lia|].
    apply lookup_lt_is_Some. lia.
  - unfold names. rewrite length_fmap, length_take, Hn'. lia.
  - intros i x y Hi. unfold names. rewrite Hn'.
    rewrite list_lookup_fmap, lookup_take_lt by lia.
    specialize (Hv (Z.of_nat i) ltac:(lia)).
    unfold arr_get in Hv. rewrite Nat2Z.id in Hv.
    rewrite list_lookup_lookup_total_lt by lia. rewrite Hv. simpl.
    intros [= <-]. unfold shift_up, nm_of, arr_get.
    destruct (decide (i < Z.to_nat t)%nat) as [Hlt|Hge].
    + rewrite list_lookup_delete_lt by done. rewrite decide_False by lia.
      rewrite list_lookup_fmap, lookup_take_lt by lia.
      rewrite Nat2Z.id.
      rewrite list_lookup_lookup_total_lt by lia. by intros [= <-].
    + rewrite list_lookup_delete_ge by lia. rewrite decide_True by lia.
      rewrite list_lookup_fmap, lookup_take_lt by lia.
      replace (Z.to_nat (Z.of_nat i + 1)) with (S i) by lia.
      rewrite list_lookup_lookup_total_lt by lia. by intros [= <-].
Qed.

Lemma removed_name_absent t g s :
  wf g → names_ok g → 0 ≤ t < n g → nm_of g t = Some s →
  ¬ has_name (remove_vertex_state t g) s.
Proof.
  intros Hwf [_ Hdist] Ht Hnm (i & Hi & Hnm').
  pose proof (wf_shape _ Hwf) as Hs. pose proof (wf_n _ Hwf) as Hn.
  destruct (remove_vertex_state_spec t g Hs Ht ltac:(lia)) as (_ & Hn' & _ & _).
  rewrite Hn' in Hi.
  rewrite remove_vertex_state_nm in Hnm' by (done || lia).
  assert (shift_up t i = t) as Heq.
  { apply Hdist; [unfold shift_up; case_decide; lia | done | congruence]. }
  by apply shift_up_ne in Heq.
Qed.

(** ** [free_graph] *)

Lemma free_graph_loop_spec g :
  shape g → 0 ≤ n g ≤ MAX_VERTICES →
  vtx_step g
    (exec (for_loop 0 (n g) (λ i, set_head i [];; set_name i None)) g)
    (λ a, if decide (a < n g) then mkVertex None []
          else arr_get (vertices g) a).
Proof.
  intros Hs Hn.
  pose (I := λ (k : Z) (s : Graph), vtx_step g s
    (λ a, if decide (a < k) then mkVertex None []
          else arr_get (vertices g) a)).
  change (I (n g)
    (exec (for_loop 0 (n g) (λ i, set_head i [];; set_name i None)) g)).
  apply for_loop_inv; unfold I; [lia | |].
  - eapply vtx_step_ext; [by apply vtx_step_refl|].
    intros a Ha. simpl. by rewrite decide_False by lia.
  - intros i s Hi Hstep. st.
    eapply vtx_step_ext.
    { apply vtx_step_set_name; [|lia].
      apply vtx_step_set_head; [apply Hstep | lia]. }
    intros a Ha. simpl. repeat case_decide; subst; (done || lia).
Qed.

Lemma free_graph_spec g :
  shape g → 0 ≤ n g ≤ MAX_VERTICES → blank_beyond g →
  exec free_graph g = mkGraph (blank_vertices 20) 0 (adjMatrix g).
Proof.
  intros Hs Hn Hbl. unfold free_graph. st.
  destruct (free_graph_loop_spec g Hs Hn) as (Hs' & Hn' & Hm' & Hv').
  set (g' := exec (for_loop 0 (n g) _) g) in *.
  change (with_n g' 0 = mkGraph (blank_vertices 20) 0 (adjMatrix g)).
  unfold with_n. rewrite Hm'. f_equal.
  apply arr_ext.
  - rewrite (shape_vertices _ Hs'). done.
  - intros a Ha. rewrite (shape_vertices _ Hs') in Ha.
    rewrite Hv' by lia. unfold blank_vertices.
    rewrite arr_get_replicate by (unfold MAX_VERTICES in *; lia).
    case_decide; [done|]. apply Hbl. lia.
Qed.

Lemma no_edges_zero_matrix g :
  wf g → (∀ i, 0 ≤ i < n g → hd_of g i = []) → adjMatrix g = zero_matrix.
Proof.
  intros Hwf Hno. pose proof (wf_shape _ Hwf) as [Lv Lr Lc].
  pose proof (wf_n _ Hwf) as Hn.
  apply arr_ext; [by rewrite Lr|]. intros a Ha. rewrite Lr in Ha.
  unfold zero_matrix.
  rewrite (arr_get_replicate (replicate 20 0)) by (unfold MAX_VERTICES in *; lia).
  apply arr_ext; [by rewrite Lc|]. intros b Hb. rewrite Lc in Hb by done.
  rewrite arr_get_replicate by (unfold MAX_VERTICES in *; lia).
  fold (cell g a b).
  destruct (decide (n g ≤ a)) as [Hna|Hna]; [by apply (wf_blank _ Hwf)|].
  destruct (decide (n g ≤ b)) as [Hnb|Hnb].
  { rewrite (wf_sym _ Hwf) by done. by apply (wf_blank _ Hwf). }
  apply wf_cell_zero; [done | lia | lia|].
  rewrite Hno by lia. apply not_elem_of_nil.
Qed.

Lemma zero_matrix_no_edges g :
  wf g → adjMatrix g = zero_matrix → ∀ i, 0 ≤ i < n g → hd_of g i = [].
Proof.
  intros Hwf Hz i Hi. pose proof (wf_n _ Hwf) as Hn.
  destruct (hd_of g i) as [|v l] eqn:E; [done|]. exfalso.
  assert (Hv : v ∈ hd_of g i) by (rewrite E; left).
  pose proof (wf_entries _ Hwf i v Hi Hv) as Hvr.
  apply (wf_mirror _ Hwf i v Hi Hvr) in Hv.
  unfold cell in Hv. rewrite Hz in Hv. unfold zero_matrix in Hv.
  rewrite !arr_get_replicate in Hv by (unfold MAX_VERTICES in *; lia). done.
Qed.

(** ** The edge list and the incidence grid *)

Lemma elem_of_edges g u v :
  (u, v) ∈ edges g ↔ 0 ≤ u ∧ u < v ∧ v < n g ∧ cell g u v ≠ 0.
Proof.
  unfold edges. rewrite list_elem_of_bind. split.
  - intros (u' & Hin & Hu'). apply elem_of_seqZ in Hu'.
    apply list_elem_of_bind in Hin as (v' & Hin & Hv').
    apply elem_of_seqZ in Hv'.
    destruct (cell g u' v' =? 0) eqn:E; [by apply elem_of_nil in Hin|].
    apply list_elem_of_singleton in Hin as [= -> ->].
    apply Z.eqb_neq in E. lia.
  - intros (Hu & Huv & Hv & Hc). exists u. split; [|apply elem_of_seqZ; lia].
    apply list_elem_of_bind. exists v. split; [|apply elem_of_seqZ; lia].
    apply Z.eqb_neq in Hc. rewrite Hc. by left.
Qed.

Lemma NoDup_edges g : NoDup (edges g).
Proof.
  unfold edges. apply NoDup_bind; [| |apply NoDup_seqZ].
  - intros u1 u2 [a b] _ _ H1 H2.
    apply list_elem_of_bind in H1 as (v1 & H1 & _).
    apply list_elem_of_bind in H2 as (v2 & H2 & _).
    destruct (cell g u1 v1 =? 0); [by apply elem_of_nil in H1|].
    destruct (cell g u2 v2 =? 0); [by apply elem_of_nil in H2|].
    apply list_elem_of_singleton in H1. apply list_elem_of_singleton in H2.
    congruence.
  - intros u _. apply NoDup_bind; [| |apply NoDup_seqZ].
    + intros v1 v2 [a b] _ _ H1 H2.
      destruct (cell g u v1 =? 0); [by apply elem_of_nil in H1|].
      destruct (cell g u v2 =? 0); [by apply elem_of_nil in H2|].
      apply list_elem_of_singleton in H1. apply list_elem_of_singleton in H2.
      congruence.
    + intros v _. destruct (cell g u v =? 0); [constructor|].
      apply NoDup_singleton.
Qed.

Lemma incidence_sum_outside a b m k :
  (∀ i, m ≤ i < m + k → i ≠ a ∧ i ≠ b) →
  foldr Z.add 0 ((λ i, incidence_cell i (a, b)) <$> seqZ m k) = 0.
Proof.
  destruct (decide (0 ≤ k)) as [Hk|Hk]; [|by rewrite seqZ_nil by lia].
  rewrite <-(Z2Nat.id k) by done. clear Hk.
  induction (Z.to_nat k) as [|j IH]; intros Hout; [done|].
  rewrite seqZ_S, fmap_app, foldr_app. simpl.
  destruct (Hout (m + Z.of_nat j) ltac:(lia)) as [Ha Hb].
  unfold incidence_cell at 1. simpl.
  apply Z.eqb_neq in Ha, Hb. rewrite Ha, Hb. simpl.
  apply IH. intros i Hi. apply Hout. lia.
Qed.

Lemma foldr_add_app (l k : list Z) :
  foldr Z.add 0 (l ++ k) = foldr Z.add 0 l + foldr Z.add 0 k.
Proof. induction l as [|x l IH]; simpl; lia. Qed.

Lemma incidence_column_two g a b :
  0 ≤ a → a < b → b < n g → incidence_column_sum g (a, b) = 2.
Proof.
  intros Ha Hab Hb. unfold incidence_column_sum.
  assert (Hsplit : n g = a + (1 + ((b - a - 1) + (1 + (n g - b - 1))))) by lia.
  rewrite Hsplit at 1. clear Hsplit.
  rewrite (seqZ_app 0 a) by lia.
  rewrite (seqZ_app (0 + a) 1) by lia.
  rewrite (seqZ_app (0 + a + 1) (b - a - 1)) by lia.
  rewrite (seqZ_app (0 + a + 1 + (b - a - 1)) 1) by lia.
  rewrite !fmap_app, !foldr_add_app.
  rewrite (incidence_sum_outside a b 0 a) by (intros; lia).
  rewrite (incidence_sum_outside a b (0 + a + 1) (b - a - 1)) by (intros; lia).
  rewrite (incidence_sum_outside a b (0 + a + 1 + (b - a - 1) + 1))
    by (intros; lia).
  replace (0 + a + 1 + (b - a - 1)) with b by lia.
  replace (0 + a) with a by lia.
  change (seqZ a 1) with [a]. change (seqZ b 1) with [b]. simpl.
  unfold incidence_cell. simpl. rewrite !Z.eqb_refl, orb_true_r. simpl. lia.
Qed.

(** ** Edges counted *)

Lemma add_edge_state_cell_ne g u v a b :
  wf g → 0 ≤ u < n g → 0 ≤ v < n g → u ≠ v → cell g u v = 0 →
  0 ≤ a → 0 ≤ b →
  cell (add_edge_state u v g) a b ≠ 0 ↔
  cell g a b ≠ 0 ∨ (a = u ∧ b = v) ∨ (a = v ∧ b = u).
Proof.
  intros Hwf Hu Hv Hne Hc Ha Hb.
  pose proof (wf_shape _ Hwf) as Hs. pose proof (wf_n _ Hwf) as Hn.
  rewrite add_edge_state_cell by (done || lia).
  case_decide; [split; [tauto | done]|]. tauto.
Qed.

Lemma edges_add_edge g u v :
  wf g → 0 ≤ u < n g → 0 ≤ v < n g → u ≠ v → cell g u v = 0 →
  edges (add_edge_state u v g) ≡ₚ (Z.min u v, Z.max u v) :: edges g.
Proof.
  intros Hwf Hu Hv Hne Hc.
  pose proof (wf_n _ Hwf) as Hn.
  assert (Hc' : cell g v u = 0) by (rewrite (wf_sym _ Hwf) by lia; done).
  apply NoDup_Permutation.
  - apply NoDup_edges.
  - constructor; [|apply NoDup_edges].
    rewrite elem_of_edges. intros (_ & _ & _ & Hnz). apply Hnz.
    destruct (Z.min_spec u v) as [[? ->]|[? ->]];
      destruct (Z.max_spec u v) as [[? ->]|[? ->]]; (done || lia).
  - intros [a b]. rewrite elem_of_cons, !elem_of_edges, add_edge_state_n.
    split.
    + intros (Ha & Hab & Hb & Hnz).
      apply add_edge_state_cell_ne in Hnz; [|done || lia..].
      destruct Hnz as [Hnz|[[-> ->]|[-> ->]]]; [by right|left..];
        f_equal; lia.
    + intros [[= -> ->]|(Ha & Hab & Hb & Hnz)].
      * split_and!; try lia.
        apply add_edge_state_cell_ne; [done || lia..|]. right.
        destruct (Z.min_spec u v) as [[? ->]|[? ->]];
          destruct (Z.max_spec u v) as [[? ->]|[? ->]]; (tauto || lia).
      * split_and!; try done.
        apply add_edge_state_cell_ne; [done || lia..|]. by left.
Qed.

Lemma edges_remove_edge g u v :
  wf g → 0 ≤ u < n g → 0 ≤ v < n g → cell g u v ≠ 0 →
  (Z.min u v, Z.max u v) :: edges (remove_edge_state u v g) ≡ₚ edges g.
Proof.
  intros Hwf Hu Hv Hc.
  pose proof (wf_shape _ Hwf) as Hs. pose proof (wf_n _ Hwf) as Hn.
  assert (Hne : u ≠ v).
  { intros ->. rewrite (wf_irrefl _ Hwf) in Hc by lia. done. }
  assert (Hc' : cell g v u ≠ 0) by (rewrite (wf_sym _ Hwf) by lia; done).
  assert (Hcell : ∀ a b, 0 ≤ a → 0 ≤ b →
    cell (remove_edge_state u v g) a b ≠ 0 ↔
    cell g a b ≠ 0 ∧ ¬ ((a = u ∧ b = v) ∨ (a = v ∧ b = u))).
  { intros a b Ha Hb. rewrite remove_edge_state_cell by (done || lia).
    case_decide; [split; [done | tauto]|]. tauto. }
  apply NoDup_Permutation.
  - constructor; [|apply NoDup_edges].
    rewrite elem_of_edges. intros (Ha & _ & _ & Hnz).
    apply Hcell in Hnz as [_ Hnz]; [|lia..]. apply Hnz.
    destruct (Z.min_spec u v) as [[? ->]|[? ->]];
      destruct (Z.max_spec u v) as [[? ->]|[? ->]]; (tauto || lia).
  - apply NoDup_edges.
  - intros [a b]. rewrite elem_of_cons, !elem_of_edges, remove_edge_state_n.
    split.
    + intros [[= -> ->]|(Ha & Hab & Hb & Hnz)].
      * split_and!; try lia.
        destruct (Z.min_spec u v) as [[? ->]|[? ->]];
          destruct (Z.max_spec u v) as [[? ->]|[? ->]]; (done || lia).
      * split_and!; try done. apply Hcell in Hnz; [tauto | lia..].
    + intros (Ha & Hab & Hb & Hnz).
      destruct (decide ((a = u ∧ b = v) ∨ (a = v ∧ b = u))) as [Hd|Hd].
      * left. f_equal; lia.
      * right. split_and!; try done. apply Hcell; [lia..|done].
Qed.

(** ** Reachability in an undirected graph *)

Lemma wf_edge_sym g u v : wf g → edge g u v → edge g v u.
Proof.
  intros Hwf [Hu Hv]. pose proof (wf_n _ Hwf) as Hn.
  pose proof (wf_entries _ Hwf u v Hu Hv) as Hvr.
  split; [done|].
  apply (wf_mirror _ Hwf v u Hvr Hu).
  rewrite (wf_sym _ Hwf) by lia. by apply (wf_mirror _ Hwf u v Hu Hvr).
Qed.

Lemma wf_reach_sym g u v : wf g → reach g u v → reach g v u.
Proof.
  intros Hwf. unfold reach. induction 1 as [|x y z Hxy _ IH]; [done|].
  eapply rtc_r; [done|]. by apply wf_edge_sym.
Qed.

(** ** The queue is first in, first out *)

Lemma queue_contents_length q :
  queue_ok q → alen (queue_contents q) = q_tail q - q_head q.
Proof.
  intros [Hh Ht]. unfold queue_contents, alen.
  rewrite length_drop. fold (alen (pushed q)).
  pose proof (prefix_to_length (q_data q) (q_tail q) ltac:(lia)) as Hl.
  fold (pushed q) in Hl. unfold alen in *. lia.
Qed.

Lemma queue_empty_contents q :
  queue_ok q → queue_empty q = true ↔ queue_contents q = [].
Proof.
  intros Hok. pose proof (queue_contents_length q Hok) as Hl.
  unfold queue_empty. rewrite Z.eqb_eq. split.
  - intros He. apply length_zero_iff_nil. unfold alen in Hl. lia.
  - intros He. rewrite He in Hl. unfold alen in Hl. simpl in Hl. lia.
Qed.

Lemma queue_push_contents q x :
  queue_ok q → q_tail q < alen (q_data q) →
  queue_ok (queue_push q x) ∧
  queue_contents (queue_push q x) = queue_contents q ++ [x].
Proof.
  intros [Hh Ht] Hroom. split.
  - split; simpl; [lia | rewrite alen_set; lia].
  - unfold queue_contents. rewrite pushed_queue_push by lia. simpl.
    rewrite drop_app_le; [done|].
    pose proof (prefix_to_length (q_data q) (q_tail q) ltac:(lia)) as Hl.
    fold (pushed q) in Hl. unfold alen in Hl. lia.
Qed.

Lemma queue_pop_contents q :
  queue_ok q → q_head q < q_tail q →
  queue_ok (snd (queue_pop q)) ∧
  queue_contents q = fst (queue_pop q) :: queue_contents (snd (queue_pop q)).
Proof.
  intros [Hh Ht] Hne. split.
  - split; simpl; lia.
  - unfold queue_contents. rewrite pushed_queue_pop. simpl.
    replace (Z.to_nat (q_head q + 1)) with (S (Z.to_nat (q_head q))) by lia.
    rewrite <-(prefix_to_get (q_data q) (q_head q) (q_tail q)) by lia.
    fold (pushed q). unfold arr_get.
    apply drop_S. apply list_lookup_lookup_total_lt.
    pose proof (prefix_to_length (q_data q) (q_tail q) ltac:(lia)) as Hl.
    fold (pushed q) in Hl. unfold alen in Hl. lia.
Qed.

Lemma queue_create_contents c :
  0 ≤ c →
  queue_ok (queue_create c) ∧ queue_contents (queue_create c) = [] ∧
  alen (q_data (queue_create c)) = c.
Proof.
  intros Hc. unfold queue_ok, queue_contents, pushed, prefix_to. simpl.
  unfold alen. rewrite length_replicate. split_and!; (done || lia).
Qed.

(** ** The output buffer of [bfs] *)

Lemma bfs_loop_buffer g fuel : ∀ visited q buf max_out count r,
  0 ≤ count →
  eval (bfs_loop fuel visited q buf max_out count) g = Some r →
  alen (fst r) = alen buf ∧ count ≤ snd r ∧
  ∀ i, 0 ≤ i → i < count ∨ max_out ≤ i → arr_get (fst r) i = arr_get buf i.
Proof.
  induction fuel as [|f IH]; intros visited q buf max_out count r Hc; [done|].
  simpl bfs_loop. destruct (queue_empty q).
  { rewrite eval_ret. intros [= <-]. simpl. split_and!; (done || lia). }
  st. intros Hr. apply IH in Hr as (Hlen & Hcnt & Hcells); [|lia].
  split_and!.
  - rewrite Hlen. destruct (count <? max_out); [apply alen_set | done].
  - lia.
  - intros i Hi Hout. rewrite Hcells by lia.
    destruct (count <? max_out) eqn:E; [|done].
    apply arr_get_set_ne; lia.
Qed.

Lemma bfs_loop_buffers g fuel : ∀ visited q buf1 m1 buf2 m2 count r1,
  0 ≤ count →
  eval (bfs_loop fuel visited q buf1 m1 count) g = Some r1 →
  ∃ r2, eval (bfs_loop fuel visited q buf2 m2 count) g = Some r2 ∧
        snd r2 = snd r1 ∧
        ∀ i, count ≤ i < snd r1 → i < m1 → i < m2 →
             i < alen buf1 → i < alen buf2 →
             arr_get (fst r1) i = arr_get (fst r2) i.
Proof.
  induction fuel as [|f IH];
    intros visited q buf1 m1 buf2 m2 count r1 Hc; [done|].
  simpl bfs_loop. destruct (queue_empty q).
  { rewrite !eval_ret. intros [= <-]. eexists. split; [done|].
    simpl. split; [done | intros; lia]. }
  st. intros Hr1.
  set (u := arr_get (q_data q) (q_head q)) in *.
  set (b1 := if count <? m1 then arr_set buf1 count u else buf1) in *.
  set (b2 := if count <? m2 then arr_set buf2 count u else buf2).
  destruct (IH _ _ b1 m1 b2 m2 (count + 1) r1 ltac:(lia) Hr1) as (r2 & Hr2 & Hcnt & Hag).
  exists r2. split_and!; [done | done |].
  intros i Hi Hm1 Hm2 Hl1 Hl2.
  assert (Hb1 : alen b1 = alen buf1)
    by (unfold b1; destruct (count <? m1); [apply alen_set | done]).
  assert (Hb2 : alen b2 = alen buf2)
    by (unfold b2; destruct (count <? m2); [apply alen_set | done]).
  destruct (decide (i = count)) as [->|Hne]; [|apply Hag; lia].
  destruct (bfs_loop_buffer g f _ _ b1 m1 (count + 1) r1 ltac:(lia) Hr1)
    as (_ & _ & H1).
  destruct (bfs_loop_buffer g f _ _ b2 m2 (count + 1) r2 ltac:(lia) Hr2)
    as (_ & _ & H2).
  rewrite H1, H2 by lia. unfold b1, b2.
  rewrite (proj2 (Z.ltb_lt count m1)), (proj2 (Z.ltb_lt count m2)) by done.
  by rewrite !arr_get_set_eq by lia.
Qed.

Lemma bfs_buffer g fuel start buf max_out r :
  eval (bfs fuel start buf max_out) g = Some r →
  alen (fst r) = alen buf ∧ 0 ≤ snd r ∧
  ∀ i, 0 ≤ i → max_out ≤ i → arr_get (fst r) i = arr_get buf i.
Proof.
  unfold bfs. st. destruct (_ || _).
  { rewrite eval_ret. intros [= <-]. by split_and!. }
  intros Hr. apply bfs_loop_buffer in Hr as (Hlen & Hcnt & Hcells); [|done].
  split_and!; [done | done |]. intros i Hi Hm. apply Hcells; [done | by right].
Qed.

Lemma bfs_buffers g fuel start buf1 m1 buf2 m2 r1 :
  eval (bfs fuel start buf1 m1) g = Some r1 →
  ∃ r2, eval (bfs fuel start buf2 m2) g = Some r2 ∧
        snd r2 = snd r1 ∧
        ∀ i, 0 ≤ i < snd r1 → i < m1 → i < m2 →
             i < alen buf1 → i < alen buf2 →
             arr_get (fst r1) i = arr_get (fst r2) i.
Proof.
  unfold bfs. st. destruct (_ || _).
  { rewrite !eval_ret. intros [= <-]. eexists. split; [done|].
    simpl. split; [done | intros; lia]. }
  by apply bfs_loop_buffers.
Qed.

Lemma reach_in_range g start v :
  valid_entries g → 0 ≤ start < n g → reach g start v → 0 ≤ v < n g.
Proof.
  intros Hval Hstart. unfold reach. revert v. apply rtc_ind_r; [done|].
  intros u w _ [Hu Hw] _. by eapply Hval.
Qed.

Lemma visit_sequence_length (r : list Z * Z) :
  0 ≤ snd r ≤ alen (fst r) → alen (visit_sequence r) = snd r.
Proof. intros Hr. by apply prefix_to_length. Qed.

(** The breadth-first order computed in a buffer with room to spare. *)
Lemma bfs_full_order g start fuel :
  valid_entries g → 0 ≤ start < n g → n g < Z.of_nat fuel →
  ∃ r, eval (bfs fuel start (replicate (Z.to_nat (n g + 1)) 0) (n g + 1)) g
         = Some r ∧
       alen (visit_sequence r) = snd r ∧ snd r ≤ n g ∧
       NoDup (visit_sequence r) ∧
       (∀ v, v ∈ visit_sequence r ↔ reach g start v) ∧
       visit_sequence r !! 0%nat = Some start.
Proof.
  intros Hval Hstart Hfuel.
  set (big := replicate (Z.to_nat (n g + 1)) 0).
  assert (Hbig : alen big = n g + 1).
  { unfold big, alen. rewrite length_replicate. lia. }
  destruct (bfs_spec g start (n g + 1) ltac:(lia) Hval ltac:(lia) fuel big
              Hstart ltac:(lia) Hfuel) as (r & Hr & Hnd & Hel & Hfirst).
  exists r. split; [done|].
  destruct (bfs_buffer _ _ _ _ _ _ Hr) as (Hlen & Hc0 & _).
  assert (Hle : alen (visit_sequence r) ≤ n g).
  { apply NoDup_bounded_length; [lia | done |].
    intros x Hx. apply Hel in Hx. by eapply reach_in_range. }
  assert (Hmin : alen (visit_sequence r) = Z.min (snd r) (alen (fst r))).
  { unfold visit_sequence, alen. rewrite length_take. lia. }
  split_and!; (done || lia).
Qed.

Lemma dfs_scan_order_length g rec curr :
  (∀ v s, exec (rec v s) g = g) →
  (∀ v s s', eval (rec v s) g = Some s' →
     alen (d_order s') = alen (d_order s)) →
  ∀ s s', eval (dfs_scan rec curr s) g = Some s' →
          alen (d_order s') = alen (d_order s).
Proof.
  intros Hex Hrec. induction curr as [|v next IH]; intros s s'.
  { simpl. rewrite eval_ret. by intros [= <-]. }
  simpl dfs_scan. destruct (_ =? 0); [|apply IH].
  st. rewrite Hex.
  destruct (eval (rec v s) g) as [s1|] eqn:E; [|done].
  intros Hs'. apply IH in Hs'. rewrite Hs'. by eapply Hrec.
Qed.

Lemma dfs_util_order_length g fuel : ∀ u s s',
  eval (dfs_util fuel u s) g = Some s' →
  alen (d_order s') = alen (d_order s).
Proof.
  induction fuel as [|f IH]; intros u s s'; [done|].
  rewrite dfs_util_S. st. intros Hs'.
  apply dfs_scan_order_length in Hs'; [|apply dfs_util_exec | apply IH].
  rewrite Hs'. simpl. apply alen_set.
Qed.

Lemma dfs_full_order g start fuel order max_out :
  valid_entries g → 0 ≤ start < n g → n g ≤ alen order →
  n g ≤ Z.of_nat fuel →
  ∃ r, eval (dfs fuel start order max_out) g = Some r ∧
       alen (visit_sequence r) = snd r ∧ snd r ≤ n g ∧
       alen (fst r) = alen order ∧
       NoDup (visit_sequence r) ∧
       (∀ v, v ∈ visit_sequence r ↔ reach g start v) ∧
       visit_sequence r !! 0%nat = Some start.
Proof.
  intros Hval Hstart Hcap Hfuel.
  destruct (dfs_spec g start ltac:(lia) Hval fuel order max_out
              Hstart Hcap Hfuel) as (r & Hr & Hnd & Hel & Hfirst).
  exists r. split; [done|].
  assert (Hle : alen (visit_sequence r) ≤ n g).
  { apply NoDup_bounded_length; [lia | done |].
    intros x Hx. apply Hel in Hx. by eapply reach_in_range. }
  revert Hr. unfold dfs. st.
  rewrite (proj2 (orb_false_iff _ _)) by (split; lia). st.
  set (s0 := mkDfs (replicate (Z.to_nat (n g)) 0) order 0).
  assert (Hinv0 : dfs_inv g start s0).
  { split; simpl.
    - unfold alen. rewrite length_replicate. lia.
    - lia.
    - done.
    - constructor.
    - by intros v ?%elem_of_nil.
    - intros v Hv. rewrite arr_get_replicate by lia.
      split; [done | by intros ?%elem_of_nil].
    - by intros v ?%elem_of_nil. }
  destruct (dfs_util_spec g start ltac:(lia) Hval fuel start s0 Hinv0 Hstart)
    as (s' & ext & Hs' & Hinv' & _ & _).
  { apply rtc_refl. }
  { simpl. apply arr_get_replicate. lia. }
  { change (recorded s0) with (@nil Z). unfold alen. simpl. lia. }
  rewrite Hs'. intros [= <-].
  destruct (dfs_inv_length g start ltac:(lia) s' Hinv') as [Hlen Hpos].
  change (visit_sequence (d_order s', d_pos s')) with (recorded s') in *.
  simpl. split_and!; try done.
  by rewrite (dfs_util_order_length _ _ _ _ _ Hs').
Qed.

(** ** The stores of the traversals stay inside the buffer *)

Lemma bfs_count_bound g fuel start buf max_out r :
  valid_entries g →
  eval (bfs fuel start buf max_out) g = Some r → 0 ≤ snd r ≤ Z.max 0 (n g).
Proof.
  intros Hval Hr.
  destruct (bfs_buffer _ _ _ _ _ _ Hr) as (_ & Hc0 & _).
  split; [done|].
  destruct (decide (0 ≤ start < n g)) as [Hstart|Hout].
  - apply (bfs_fuel_add _ _ _ _ _ (Z.to_nat (n g) + 1)) in Hr.
    set (f := (fuel + (Z.to_nat (n g) + 1))%nat) in Hr.
    destruct (bfs_full_order g start f Hval Hstart ltac:(lia))
      as (rf & Hrf & _ & Hle & _).
    destruct (bfs_buffers g f start _ _ buf max_out rf Hrf)
      as (r' & Hr' & Hcnt & _).
    assert (r' = r) as -> by congruence. lia.
  - revert Hr. unfold bfs. autorewrite with st.
    assert ((start <? 0) || (start >=? n g) = true) as ->.
    { apply orb_true_iff. destruct (decide (start < 0)) as [Hneg|Hnn];
        [left; apply Z.ltb_lt; lia | right; apply Z.geb_le; lia]. }
    rewrite eval_ret. intros [= <-]. simpl. lia.
Qed.

Lemma dfs_count_bound g fuel start order max_out r :
  valid_entries g → n g ≤ alen order →
  eval (dfs fuel start order max_out) g = Some r → 0 ≤ snd r ≤ Z.max 0 (n g).
Proof.
  intros Hval Hcap Hr.
  destruct (decide (0 ≤ start < n g)) as [Hstart|Hout].
  - apply (dfs_fuel_add _ _ _ _ _ (Z.to_nat (n g))) in Hr.
    set (f := (fuel + Z.to_nat (n g))%nat) in Hr.
    destruct (dfs_full_order g start f order max_out Hval Hstart Hcap
                ltac:(lia)) as (r' & Hr' & Hlen & Hle & _).
    assert (r' = r) as -> by congruence.
    unfold alen in Hlen. lia.
  - revert Hr. unfold dfs. autorewrite with st.
    assert ((start <? 0) || (start >=? n g) = true) as ->.
    { apply orb_true_iff. destruct (decide (start < 0)) as [Hneg|Hnn];
        [left; apply Z.ltb_lt; lia | right; apply Z.geb_le; lia]. }
    rewrite eval_ret. intros [= <-]. simpl. lia.
Qed.

(** C9. The queries [bfs], [dfs] and [find_vertex_index] leave the
    graph (count, names, lists and matrix) unchanged, for every start,
    every [max_out] and every name, on every graph whose list entries
    are valid positions and with every buffer that has room for [n]
    positions.  Under these two conditions no store of a traversal falls
    outside the buffer: [bfs] stores at positions below its count and
    below [max_out], [dfs], which ignores [max_out], at every position
    below its count, and neither count exceeds the size of the
    buffer. *)
Theorem queries_leave_graph fuel start buf max_out s g :
  valid_entries g → n g ≤ alen buf →
  exec (bfs fuel start buf max_out) g = g ∧
  exec (dfs fuel start buf max_out) g = g ∧
  exec (find_vertex_index s) g = g ∧
  (∀ r, eval (bfs fuel start buf max_out) g = Some r →
        0 ≤ snd r ≤ alen buf) ∧
  (∀ r, eval (dfs fuel start buf max_out) g = Some r →
        0 ≤ snd r ≤ alen buf).
Proof.
  intros Hval Hcap. split_and!.
  - apply bfs_exec.
  - apply dfs_exec.
  - apply find_vertex_index_exec.
  - intros r Hr. pose proof (bfs_count_bound _ _ _ _ _ _ Hval Hr).
    unfold alen in *. lia.
  - intros r Hr. pose proof (dfs_count_bound _ _ _ _ _ _ Hval Hcap Hr).
    unfold alen in *. lia.
Qed.

(** * Further properties of the engine *)

Lemma uninit_graph_shape : shape uninit_graph.
Proof.
  split; [done | done |]. intros i Hi. unfold uninit_graph. cbn [adjMatrix].
  rewrite arr_get_replicate by (unfold MAX_VERTICES in *; lia). done.
Qed.

(** X1. [init_graph] turns any storage of the right size into the empty
    graph, which satisfies the representation invariant. *)
Theorem init_graph_resets g0 :
  shape g0 → exec init_graph g0 = empty_graph ∧ wf (exec init_graph g0).
Proof.
  intros Hs. rewrite init_graph_spec by done. split; [done|].
  apply empty_graph_wf.
Qed.

(** X2. [find_vertex_index] returns [-1] exactly when no vertex in use
    has the name, and otherwise the lowest position holding it. *)
Theorem find_vertex_index_lowest g s :
  (eval (find_vertex_index s) g = -1 ∧ ¬ has_name g s) ∨
  (0 ≤ eval (find_vertex_index s) g < n g ∧
   nm_of g (eval (find_vertex_index s) g) = Some s ∧
   ∀ k, 0 ≤ k < eval (find_vertex_index s) g → nm_of g k ≠ Some s).
Proof.
  destruct (find_vertex_index_spec s g) as [[Hr Hall]|(Hr & Hm & Hall)].
  - left. split; [done|]. by apply find_vertex_index_absent.
  - right. split_and!; [lia | lia | by apply name_matches_true |].
    intros k Hk. apply name_matches_false. by apply Hall.
Qed.

(** X3. In every reachable graph a name is held by at most one vertex in
    use: two positions holding the same name are the same position. *)
Theorem names_distinct g i j s :
  reachable g → 0 ≤ i < n g → 0 ≤ j < n g →
  nm_of g i = Some s → nm_of g j = Some s → i = j.
Proof.
  intros [_ Hdist]%reachable_names_ok Hi Hj Hni Hnj.
  apply Hdist; [done | done | congruence].
Qed.

(** X4. Lookup inverts naming: in a reachable graph, looking up the name
    found at position [i] returns [i]. *)
Theorem find_vertex_index_inverse g i s :
  reachable g → 0 ≤ i < n g → nm_of g i = Some s →
  eval (find_vertex_index s) g = i.
Proof. intros Hr%reachable_names_ok. by apply find_vertex_index_at. Qed.

(** X5. [add_vertex] succeeds exactly below capacity on a fresh name; it
    then appends the vertex with an empty list at position [n] and
    touches nothing else. *)
Theorem add_vertex_appends g s :
  shape g → 0 ≤ n g →
  (eval (add_vertex s) g = 0 ↔ n g < MAX_VERTICES ∧ ¬ has_name g s) ∧
  (eval (add_vertex s) g = 0 →
     n (exec (add_vertex s) g) = n g + 1 ∧
     arr_get (vertices (exec (add_vertex s) g)) (n g) = mkVertex (Some s) [] ∧
     (∀ a, 0 ≤ a → a ≠ n g →
        arr_get (vertices (exec (add_vertex s) g)) a = arr_get (vertices g) a) ∧
     adjMatrix (exec (add_vertex s) g) = adjMatrix g).
Proof.
  intros Hs Hn0. split; [apply add_vertex_succeeds|].
  intros Hok. pose proof (proj1 (add_vertex_succeeds g s) Hok) as [Hfull _].
  rewrite (add_vertex_exec_ok _ _ Hok). split_and!.
  - done.
  - rewrite add_vertex_state_vertex by (done || lia). by rewrite decide_True.
  - intros a Ha Hne. rewrite add_vertex_state_vertex by (done || lia).
    by rewrite decide_False.
  - done.
Qed.

(** X6. On a graph satisfying the invariant, [add_edge_by_index]
    succeeds exactly on two distinct positions in range that are not
    adjacent; it then makes them adjacent to each other and changes no
    other adjacency, name or count. *)
Theorem add_edge_by_index_adds u v g :
  wf g →
  (eval (add_edge_by_index u v) g = 0 ↔
     0 ≤ u < n g ∧ 0 ≤ v < n g ∧ u ≠ v ∧ v ∉ hd_of g u) ∧
  (eval (add_edge_by_index u v) g = 0 →
     n (exec (add_edge_by_index u v) g) = n g ∧
     (∀ a, 0 ≤ a → nm_of (exec (add_edge_by_index u v) g) a = nm_of g a) ∧
     ∀ a b, 0 ≤ a →
       b ∈ hd_of (exec (add_edge_by_index u v) g) a ↔
       b ∈ hd_of g a ∨ (a = u ∧ b = v) ∨ (a = v ∧ b = u)).
Proof.
  intros Hwf. split; [by apply add_edge_by_index_succeeds|].
  intros Hok.
  pose proof (proj1 (add_edge_by_index_succeeds u v g Hwf) Hok)
    as (Hu & Hv & Hne & Hnin).
  pose proof (wf_shape _ Hwf) as Hs. pose proof (wf_n _ Hwf) as Hn.
  rewrite (add_edge_by_index_exec_ok _ _ _ Hok). split_and!.
  - done.
  - intros a Ha. apply add_edge_state_nm; (done || lia).
  - intros a b Ha. rewrite add_edge_state_hd by (done || lia).
    repeat case_decide; subst; rewrite ?elem_of_cons;
      intuition (done || lia).
Qed.

Lemma add_edge_by_index_codes u v g :
  eval (add_edge_by_index u v) g = 0 ∨ eval (add_edge_by_index u v) g = -1.
Proof.
  rewrite add_edge_by_index_eval.
  destruct (_ || _); [by right|]. destruct (u =? v); [by right|].
  destruct (negb _); [by right | by left].
Qed.

(** X7. After a successful [add_edge_by_index u v], adding the same edge
    again fails, whichever end is given first. *)
Theorem add_edge_by_index_twice u v g :
  wf g → eval (add_edge_by_index u v) g = 0 →
  eval (add_edge_by_index u v) (exec (add_edge_by_index u v) g) = -1 ∧
  eval (add_edge_by_index v u) (exec (add_edge_by_index u v) g) = -1.
Proof.
  intros Hwf Hok.
  pose proof (proj1 (add_edge_by_index_succeeds u v g Hwf) Hok)
    as (Hu & Hv & Hne & Hnin).
  pose proof (wf_shape _ Hwf) as Hs. pose proof (wf_n _ Hwf) as Hn.
  pose proof (add_edge_by_index_wf u v g Hwf) as Hwf'.
  set (g' := exec (add_edge_by_index u v) g) in *.
  assert (Hg' : g' = add_edge_state u v g)
    by by apply add_edge_by_index_exec_ok.
  split.
  - destruct (add_edge_by_index_codes u v g') as [H0|H1]; [|done].
    apply (add_edge_by_index_succeeds u v g' Hwf') in H0 as (_ & _ & _ & Hno).
    exfalso. apply Hno. rewrite Hg', add_edge_state_hd by (done || lia).
    rewrite decide_True by done. left.
  - destruct (add_edge_by_index_codes v u g') as [H0|H1]; [|done].
    apply (add_edge_by_index_succeeds v u g' Hwf') in H0 as (_ & _ & _ & Hno).
    exfalso. apply Hno. rewrite Hg', add_edge_state_hd by (done || lia).
    rewrite decide_False by lia. rewrite decide_True by done. left.
Qed.

(** X8. Removing an edge just added, from either end, succeeds and
    restores the graph exactly: lists, matrix, names and count. *)
Theorem add_remove_edge_round_trip u v g :
  wf g → eval (add_edge_by_index u v) g = 0 →
  remove_edge_by_index u v (exec (add_edge_by_index u v) g) = (0, g) ∧
  remove_edge_by_index v u (exec (add_edge_by_index u v) g) = (0, g).
Proof.
  intros Hwf Hok.
  pose proof (proj1 (add_edge_by_index_succeeds u v g Hwf) Hok)
    as (Hu & Hv & Hne & Hnin).
  pose proof (wf_shape _ Hwf) as Hs. pose proof (wf_n _ Hwf) as Hn.
  assert (Hc : cell g u v = 0) by by apply wf_cell_zero.
  rewrite (add_edge_by_index_exec_ok _ _ _ Hok).
  destruct (add_then_remove_state u v g Hwf Hu Hv Hne Hc) as [H1 H2].
  rewrite !remove_edge_by_index_run, add_edge_state_n.
  rewrite !add_edge_state_cell by (done || lia).
  rewrite !(proj2 (orb_false_iff _ _)) by (split; [apply orb_false_iff; split; [apply orb_false_iff; split|]|]; lia).
  rewrite decide_True by tauto. rewrite decide_True by tauto. simpl.
  by rewrite H1, H2.
Qed.

(** X9. On a graph satisfying the invariant, [remove_edge_by_index]
    succeeds exactly on two adjacent positions in range; it then removes
    that adjacency in both directions and no other, and the edge can be
    added again. *)
Theorem remove_edge_by_index_removes u v g :
  wf g →
  (eval (remove_edge_by_index u v) g = 0 ↔
     0 ≤ u < n g ∧ 0 ≤ v < n g ∧ v ∈ hd_of g u) ∧
  (eval (remove_edge_by_index u v) g = 0 →
     n (exec (remove_edge_by_index u v) g) = n g ∧
     (∀ a b, 0 ≤ a →
        b ∈ hd_of (exec (remove_edge_by_index u v) g) a ↔
        b ∈ hd_of g a ∧ ¬ ((a = u ∧ b = v) ∨ (a = v ∧ b = u))) ∧
     eval (add_edge_by_index u v) (exec (remove_edge_by_index u v) g) = 0).
Proof.
  intros Hwf. split; [by apply remove_edge_by_index_succeeds|].
  intros Hok.
  pose proof (proj1 (remove_edge_by_index_succeeds u v g Hwf) Hok)
    as (Hu & Hv & Hin).
  pose proof (wf_shape _ Hwf) as Hs. pose proof (wf_n _ Hwf) as Hn.
  assert (Hne : u ≠ v).
  { intros ->. by apply (wf_no_self_loop g v Hwf Hv). }
  assert (Hin' : u ∈ hd_of g v).
  { apply (wf_mirror _ Hwf v u Hv Hu). rewrite (wf_sym _ Hwf) by lia.
    by apply (wf_mirror _ Hwf u v Hu Hv). }
  pose proof (remove_edge_by_index_wf u v g Hwf) as Hwf'.
  rewrite (remove_edge_by_index_exec_ok _ _ _ Hok) in *.
  assert (Hhd : ∀ a b, 0 ≤ a →
    b ∈ hd_of (remove_edge_state u v g) a ↔
    b ∈ hd_of g a ∧ ¬ ((a = u ∧ b = v) ∨ (a = v ∧ b = u))).
  { intros a b Ha. rewrite remove_edge_state_hd by (done || lia).
    repeat case_decide; subst;
      rewrite ?elem_of_unlink_first by (apply (wf_nodup _ Hwf); done);
      intuition (done || lia). }
  split_and!; [done | done |].
  apply add_edge_by_index_succeeds; [done|].
  rewrite remove_edge_state_n. split_and!; [lia.. | done |].
  rewrite Hhd by lia. tauto.
Qed.

(** X10. Every reachable graph is a simple graph within capacity: the
    count is between [0] and [MAX_VERTICES], no vertex is in its own
    list, and no list repeats an entry. *)
Theorem reachable_simple_graph g i :
  reachable g → 0 ≤ i < n g →
  (0 ≤ n g ≤ MAX_VERTICES) ∧ (i ∉ hd_of g i) ∧ NoDup (hd_of g i).
Proof.
  intros Hwf%reachable_wf Hi.
  split; [apply (wf_n _ Hwf)|].
  split; [by apply wf_no_self_loop | by apply (wf_nodup _ Hwf)].
Qed.

(** X11. Compaction in general: removing position [t] succeeds, lowers
    the count by one, deletes the [t]-th name and keeps the others in
    order, and two remaining vertices are adjacent after the removal
    exactly when they were before it. *)
Theorem remove_vertex_by_index_compacts t g :
  wf g → 0 ≤ t < n g →
  eval (remove_vertex_by_index t) g = 0 ∧
  n (exec (remove_vertex_by_index t) g) = n g - 1 ∧
  names (exec (remove_vertex_by_index t) g) = delete (Z.to_nat t) (names g) ∧
  ∀ a b, 0 ≤ a < n g - 1 → 0 ≤ b < n g - 1 →
    b ∈ hd_of (exec (remove_vertex_by_index t) g) a ↔
    shift_up t b ∈ hd_of g (shift_up t a).
Proof.
  intros Hwf Ht.
  pose proof (wf_shape _ Hwf) as Hs. pose proof (wf_n _ Hwf) as Hn.
  unfold eval, exec. rewrite remove_vertex_by_index_exec_ok by done. simpl.
  destruct (remove_vertex_state_spec t g Hs Ht ltac:(lia)) as (_ & Hn' & _ & _).
  split_and!; [done | done | apply names_delete; (done || lia) |].
  intros a b Ha Hb. by apply remove_vertex_state_adjacent.
Qed.

Lemma remove_vertex_eval_absent s g :
  ¬ has_name g s → remove_vertex s g = (-1, g).
Proof.
  intros Hno%find_vertex_index_absent.
  rewrite remove_vertex_run, Hno. done.
Qed.

(** X12. [remove_vertex] by name: an unknown name fails with [-1] and
    changes nothing; in a reachable graph a known name is removed, the
    count drops by one and the name can no longer be found. *)
Theorem remove_vertex_forgets_name s g :
  reachable g →
  (¬ has_name g s → remove_vertex s g = (-1, g)) ∧
  (has_name g s →
     eval (remove_vertex s) g = 0 ∧
     n (exec (remove_vertex s) g) = n g - 1 ∧
     eval (find_vertex_index s) (exec (remove_vertex s) g) = -1).
Proof.
  intros Hr. split; [apply remove_vertex_eval_absent|].
  intros (i & Hi & Hnm).
  pose proof (reachable_wf _ Hr) as Hwf.
  pose proof (reachable_names_ok _ Hr) as Hok.
  pose proof (wf_shape _ Hwf) as Hs. pose proof (wf_n _ Hwf) as Hn.
  pose proof (find_vertex_index_at g i s Hok Hi Hnm) as Hf.
  unfold eval at 1, exec. rewrite remove_vertex_run, Hf.
  rewrite (proj2 (Z.eqb_neq i (-1))) by lia.
  rewrite remove_vertex_by_index_exec_ok by done. simpl.
  destruct (remove_vertex_state_spec i g Hs Hi ltac:(lia)) as (_ & Hn' & _ & _).
  split_and!; [done | done |].
  apply find_vertex_index_absent. by apply removed_name_absent.
Qed.

(** X13. Removing the vertex just added, by name or by position,
    succeeds and restores a reachable graph exactly. *)
Theorem add_remove_vertex_round_trip s g :
  reachable g → eval (add_vertex s) g = 0 →
  remove_vertex s (exec (add_vertex s) g) = (0, g) ∧
  remove_vertex_by_index (n g) (exec (add_vertex s) g) = (0, g).
Proof.
  intros Hr Hok.
  pose proof (reachable_wf _ Hr) as Hwf.
  pose proof (reachable_blank_beyond _ Hr) as Hbl.
  pose proof (wf_shape _ Hwf) as Hs. pose proof (wf_n _ Hwf) as Hn.
  pose proof (proj1 (add_vertex_succeeds g s) Hok) as [Hfull _].
  assert (Hby_index :
    remove_vertex_by_index (n g) (exec (add_vertex s) g) = (0, g)).
  { rewrite (add_vertex_exec_ok _ _ Hok).
    rewrite remove_vertex_by_index_exec_ok by (simpl; lia).
    by rewrite add_then_remove_vertex_state. }
  split; [|done].
  rewrite remove_vertex_run.
  assert (Hf : eval (find_vertex_index s) (exec (add_vertex s) g) = n g).
  { apply find_vertex_index_at.
    - apply reachable_names_ok. by apply (reachable_step g (AddVertex s)).
    - rewrite (add_vertex_exec_ok _ _ Hok). simpl. lia.
    - rewrite (add_vertex_exec_ok _ _ Hok).
      rewrite add_vertex_state_nm by (done || lia). by rewrite decide_True. }
  rewrite Hf. rewrite (proj2 (Z.eqb_neq (n g) (-1))) by lia. done.
Qed.

(** X14. In every reachable graph the slots past the count hold a null
    name and a null list. *)
Theorem slots_past_count_cleared g i :
  reachable g → n g ≤ i < MAX_VERTICES →
  arr_get (vertices g) i = mkVertex None [].
Proof. intros Hr%reachable_blank_beyond. apply Hr. Qed.

(** X15. [free_graph] clears the vertices and the count but leaves the
    matrix as it was: the result is the empty graph only if the graph
    had no edge. *)
Theorem free_graph_keeps_matrix g :
  reachable g →
  exec free_graph g = mkGraph (blank_vertices 20) 0 (adjMatrix g) ∧
  (exec free_graph g = empty_graph ↔ ∀ i, 0 ≤ i < n g → hd_of g i = []).
Proof.
  intros Hr.
  pose proof (reachable_wf _ Hr) as Hwf.
  pose proof (reachable_blank_beyond _ Hr) as Hbl.
  pose proof (free_graph_spec g (wf_shape _ Hwf) (wf_n _ Hwf) Hbl) as Hfree.
  split; [done|]. rewrite Hfree. unfold empty_graph. split.
  - intros [= Hz]. by apply zero_matrix_no_edges.
  - intros Hno. by rewrite (no_edges_zero_matrix g Hwf Hno).
Qed.

(** X16. In a reachable graph the edge list that the incidence display
    and the export walk holds every pair of adjacent positions exactly
    once, lower position first. *)
Theorem edges_lists_each_edge_once g u v :
  reachable g →
  NoDup (edges g) ∧
  ((u, v) ∈ edges g ↔ 0 ≤ u ∧ u < v ∧ v < n g ∧ v ∈ hd_of g u).
Proof.
  intros Hwf%reachable_wf. split; [apply NoDup_edges|].
  rewrite elem_of_edges. pose proof (wf_n _ Hwf) as Hn.
  split; intros (Hu & Huv & Hv & Hc); split_and!; try done.
  - apply (wf_mirror _ Hwf); [lia..|].
    destruct (wf_bit _ Hwf u v) as [H0|H1]; (done || lia).
  - apply (wf_mirror _ Hwf) in Hc; lia.
Qed.

Lemma incidence_matrix_column g j :
  (j < length (edges g))%nat →
  (λ row : list Z, row !!! j) <$> incidence_matrix g =
  (λ i, incidence_cell i (edges g !!! j)) <$> seqZ 0 (n g).
Proof.
  intros Hj. unfold incidence_matrix. rewrite <-list_fmap_compose.
  apply list_fmap_ext. intros _ i _. simpl.
  by apply list_lookup_total_fmap.
Qed.

(** X17. The incidence grid has one row per vertex and one column per
    edge of [edges], and every column holds exactly two ones. *)
Theorem incidence_matrix_columns g j :
  (j < length (edges g))%nat →
  length (incidence_matrix g) = Z.to_nat (n g) ∧
  Forall (λ row, length row = length (edges g)) (incidence_matrix g) ∧
  column_sum j (incidence_matrix g) = 2.
Proof.
  intros Hj. split_and!.
  - unfold incidence_matrix. by rewrite length_fmap, length_seqZ.
  - unfold incidence_matrix. apply Forall_fmap, Forall_forall.
    intros i _. simpl. by rewrite length_fmap.
  - unfold column_sum. rewrite incidence_matrix_column by done.
    assert (Hin : edges g !!! j ∈ edges g)
      by by apply list_elem_of_lookup_total_2.
    destruct (edges g !!! j) as [a b].
    apply elem_of_edges in Hin as (Ha & Hab & Hb & _).
    by apply incidence_column_two.
Qed.

(** X18. A successful [add_edge_by_index] adds exactly one edge to the
    edge list, and a successful [remove_edge_by_index] takes exactly one
    away. *)
Theorem edge_count_changes_by_one u v g :
  wf g →
  (eval (add_edge_by_index u v) g = 0 →
     length (edges (exec (add_edge_by_index u v) g)) = S (length (edges g))) ∧
  (eval (remove_edge_by_index u v) g = 0 →
     S (length (edges (exec (remove_edge_by_index u v) g)))
       = length (edges g)).
Proof.
  intros Hwf. pose proof (wf_n _ Hwf) as Hn. split; intros Hok.
  - pose proof (proj1 (add_edge_by_index_succeeds u v g Hwf) Hok)
      as (Hu & Hv & Hne & Hnin).
    rewrite (add_edge_by_index_exec_ok _ _ _ Hok).
    rewrite (Permutation_length (edges_add_edge g u v Hwf Hu Hv Hne
      (proj2 (wf_cell_zero g u v Hwf Hu Hv) Hnin))). done.
  - pose proof (proj1 (remove_edge_by_index_succeeds u v g Hwf) Hok)
      as (Hu & Hv & Hin).
    rewrite (remove_edge_by_index_exec_ok _ _ _ Hok).
    assert (Hc : cell g u v ≠ 0).
    { apply (wf_mirror _ Hwf u v Hu Hv) in Hin. lia. }
    by rewrite <-(Permutation_length (edges_remove_edge g u v Hwf Hu Hv Hc)).
Qed.

(** X19. The array queue is first in, first out: within its array a push
    appends to what it holds, a pop takes the oldest element, and
    [queue_empty] tells exactly when it holds nothing. *)
Theorem queue_fifo q x :
  queue_ok q →
  (queue_empty q = true ↔ queue_contents q = []) ∧
  (q_tail q < alen (q_data q) →
     queue_ok (queue_push q x) ∧
     queue_contents (queue_push q x) = queue_contents q ++ [x]) ∧
  (q_head q < q_tail q →
     queue_ok (snd (queue_pop q)) ∧
     queue_contents q = fst (queue_pop q) :: queue_contents (snd (queue_pop q))).
Proof.
  intros Hok. split_and!.
  - by apply queue_empty_contents.
  - intros Hroom. by apply queue_push_contents.
  - intros Hne. by apply queue_pop_contents.
Qed.

(** X20. [bfs] never writes at or past [max_out] and never changes the
    size of the buffer, whatever the graph and the arguments. *)
Theorem bfs_writes_below_max_out g fuel start buf max_out r :
  eval (bfs fuel start buf max_out) g = Some r →
  alen (fst r) = alen buf ∧ 0 ≤ snd r ∧
  ∀ i, 0 ≤ i → max_out ≤ i → arr_get (fst r) i = arr_get buf i.
Proof. apply bfs_buffer. Qed.

(** X21. With a buffer and a [max_out] of any size, [bfs] returns the
    same count as a run with room for every vertex, the number of
    positions reachable from the start, and its cells below [max_out]
    hold the beginning of the sequence that run returns. *)
Theorem bfs_truncated g start buf max_out buf' max_out' fuel :
  valid_entries g → 0 ≤ start < n g → max_out ≤ alen buf →
  n g ≤ max_out' ≤ alen buf' → n g < Z.of_nat fuel →
  ∃ r rf,
    eval (bfs fuel start buf max_out) g = Some r ∧
    eval (bfs fuel start buf' max_out') g = Some rf ∧
    snd r = snd rf ∧
    snd rf = alen (visit_sequence rf) ∧
    NoDup (visit_sequence rf) ∧
    (∀ v, v ∈ visit_sequence rf ↔ reach g start v) ∧
    ∀ i, 0 ≤ i < snd r → i < max_out →
      arr_get (fst r) i = arr_get (visit_sequence rf) i.
Proof.
  intros Hval Hstart Hbuf Hmax Hfuel.
  destruct (bfs_spec g start max_out' ltac:(lia) Hval ltac:(lia) fuel buf'
              Hstart ltac:(lia) Hfuel) as (rf & Hrf & Hnd & Hel & _).
  destruct (bfs_buffers g fuel start _ _ buf max_out rf Hrf)
    as (r & Hr & Hcnt & Hag).
  destruct (bfs_buffer _ _ _ _ _ _ Hrf) as (Hlf & Hc0 & _).
  pose proof (bfs_count_bound _ _ _ _ _ _ Hval Hrf) as Hle.
  assert (Hlen : alen (visit_sequence rf) = snd rf)
    by (apply visit_sequence_length; lia).
  exists r, rf. split_and!; [done | done | done | done | done | done |].
  intros i Hi Hm.
  rewrite <-(Hag i) by lia.
  unfold visit_sequence. symmetry. apply prefix_to_get. lia.
Qed.

(** X22. [bfs] and [dfs] from the same start return the same number of
    positions, at most [n], and their sequences hold the same positions
    in possibly different orders; both begin with the start. *)
Theorem bfs_dfs_same_vertices g start buf max_out fuel :
  valid_entries g → 0 ≤ start < n g → n g ≤ max_out ≤ alen buf →
  n g < Z.of_nat fuel →
  ∃ rb rd,
    eval (bfs fuel start buf max_out) g = Some rb ∧
    eval (dfs fuel start buf max_out) g = Some rd ∧
    visit_sequence rb ≡ₚ visit_sequence rd ∧
    snd rb = snd rd ∧ snd rb ≤ n g ∧
    visit_sequence rb !! 0%nat = Some start ∧
    visit_sequence rd !! 0%nat = Some start.
Proof.
  intros Hval Hstart Hmax Hfuel.
  destruct (bfs_spec g start max_out ltac:(lia) Hval ltac:(lia) fuel buf
              Hstart ltac:(lia) Hfuel) as (rb & Hrb & Hndb & Helb & Hfb).
  destruct (dfs_full_order g start fuel buf max_out Hval Hstart
              ltac:(lia) ltac:(lia))
    as (rd & Hrd & Hlend & Hled & _ & Hndd & Held & Hfd).
  destruct (bfs_full_order g start fuel Hval Hstart Hfuel)
    as (rf & Hrf & Hlenf & Hlef & Hndf & Helf & _).
  destruct (bfs_buffers g fuel start _ _ buf max_out rf Hrf)
    as (rb' & Hrb' & Hcnt & _).
  assert (rb' = rb) as -> by congruence.
  destruct (bfs_buffer _ _ _ _ _ _ Hrb) as (Hlb & Hc0 & _).
  assert (Hperm : visit_sequence rb ≡ₚ visit_sequence rd).
  { apply NoDup_Permutation; [done..|]. intros x. by rewrite Helb, Held. }
  assert (Hlenb : alen (visit_sequence rb) = snd rb)
    by (apply visit_sequence_length; lia).
  exists rb, rd. split_and!; try done; [|lia].
  apply Permutation_length in Hperm. unfold alen in *. lia.
Qed.

(** X23. Connectivity is mutual in a reachable graph: the search from
    [u] visits [v] exactly when the search from [v] visits [u]. *)
Theorem bfs_connectivity_mutual g u v fuel :
  reachable g → 0 ≤ u < n g → 0 ≤ v < n g → n g < Z.of_nat fuel →
  ∃ ru rv,
    eval (bfs fuel u out_buffer MAX_VERTICES) g = Some ru ∧
    eval (bfs fuel v out_buffer MAX_VERTICES) g = Some rv ∧
    (v ∈ visit_sequence ru ↔ u ∈ visit_sequence rv).
Proof.
  intros Hwf%reachable_wf Hu Hv Hfuel.
  pose proof (wf_n _ Hwf) as Hn.
  pose proof (wf_valid_entries _ Hwf) as Hval.
  assert (Hlen : alen out_buffer = MAX_VERTICES) by done.
  destruct (bfs_spec g u MAX_VERTICES ltac:(lia) Hval ltac:(lia) fuel
              out_buffer Hu ltac:(lia) Hfuel) as (ru & Hru & _ & Helu & _).
  destruct (bfs_spec g v MAX_VERTICES ltac:(lia) Hval ltac:(lia) fuel
              out_buffer Hv ltac:(lia) Hfuel) as (rv & Hrv & _ & Helv & _).
  exists ru, rv. split_and!; [done | done |].
  rewrite Helu, Helv. split; by apply wf_reach_sym.
Qed.

(** X24. The name the adjacency displays print for a neighbour is never
    the name of the vertex whose list is shown. *)
Theorem neighbour_names_valid g i v s :
  reachable g → 0 ≤ i < n g → v ∈ hd_of g i → nm_of g i = Some s →
  nm_of g v ≠ Some s.
Proof.
  intros Hr Hi Hv Hni Hnv.
  pose proof (reachable_wf _ Hr) as Hwf.
  destruct (reachable_names_ok _ Hr) as [_ Hdist].
  pose proof (wf_entries _ Hwf i v Hi Hv) as Hvr.
  assert (v = i) as -> by (apply Hdist; [done | done | congruence]).
  by apply (wf_no_self_loop g i Hwf Hi).
Qed.

Lemma add_edge_eval a b g :
  eval (add_edge a b) g =
    if (eval (find_vertex_index a) g =? -1) || (eval (find_vertex_index b) g =? -1)
    then -1
    else eval (add_edge_by_index (eval (find_vertex_index a) g)
                                 (eval (find_vertex_index b) g)) g.
Proof. unfold eval at 1. rewrite add_edge_run. by destruct (_ || _). Qed.

Lemma remove_edge_eval a b g :
  eval (remove_edge a b) g =
    if (eval (find_vertex_index a) g =? -1) || (eval (find_vertex_index b) g =? -1)
    then -1
    else eval (remove_edge_by_index (eval (find_vertex_index a) g)
                                    (eval (find_vertex_index b) g)) g.
Proof. unfold eval at 1. rewrite remove_edge_run. by destruct (_ || _). Qed.

Lemma find_vertex_index_present g s :
  eval (find_vertex_index s) g ≠ -1 →
  0 ≤ eval (find_vertex_index s) g < n g ∧
  nm_of g (eval (find_vertex_index s) g) = Some s.
Proof.
  intros Hne.
  destruct (find_vertex_index_spec s g) as [[Hr _]|(Hr & Hm & _)]; [done|].
  split; [done | by apply name_matches_true].
Qed.

(** X25. The operations by name, in a reachable graph: [add_edge]
    succeeds exactly when the two names belong to two different vertices
    that are not adjacent, [remove_edge] exactly when they belong to two
    adjacent vertices. *)
Theorem edges_by_name a b g :
  reachable g →
  (eval (add_edge a b) g = 0 ↔
     ∃ u v, 0 ≤ u < n g ∧ 0 ≤ v < n g ∧
            nm_of g u = Some a ∧ nm_of g v = Some b ∧
            a ≠ b ∧ v ∉ hd_of g u) ∧
  (eval (remove_edge a b) g = 0 ↔
     ∃ u v, 0 ≤ u < n g ∧ 0 ≤ v < n g ∧
            nm_of g u = Some a ∧ nm_of g v = Some b ∧ v ∈ hd_of g u).
Proof.
  intros Hr.
  pose proof (reachable_wf _ Hr) as Hwf.
  pose proof (reachable_names_ok _ Hr) as Hok.
  rewrite add_edge_eval, remove_edge_eval. split.
  - split.
    + destruct (_ || _) eqn:E; [done|]. apply orb_false_iff in E as [Ea Eb].
      apply Z.eqb_neq in Ea, Eb.
      destruct (find_vertex_index_present g a Ea) as [Hu Hnu].
      destruct (find_vertex_index_present g b Eb) as [Hv Hnv].
      intros (_ & _ & Hne & Hnin)%add_edge_by_index_succeeds; [|done].
      exists (eval (find_vertex_index a) g), (eval (find_vertex_index b) g).
      split_and!; try (done || lia). by intros ->.
    + intros (u & v & Hu & Hv & Hnu & Hnv & Hne & Hnin).
      rewrite (find_vertex_index_at g u a Hok Hu Hnu).
      rewrite (find_vertex_index_at g v b Hok Hv Hnv).
      rewrite (proj2 (orb_false_iff _ _)) by (split; lia).
      apply add_edge_by_index_succeeds; [done|].
      split_and!; try (done || lia). intros Huv. subst. congruence.
  - split.
    + destruct (_ || _) eqn:E; [done|]. apply orb_false_iff in E as [Ea Eb].
      apply Z.eqb_neq in Ea, Eb.
      destruct (find_vertex_index_present g a Ea) as [Hu Hnu].
      destruct (find_vertex_index_present g b Eb) as [Hv Hnv].
      intros (_ & _ & Hin)%remove_edge_by_index_succeeds; [|done].
      exists (eval (find_vertex_index a) g), (eval (find_vertex_index b) g).
      split_and!; (done || lia).
    + intros (u & v & Hu & Hv & Hnu & Hnv & Hin).
      rewrite (find_vertex_index_at g u a Hok Hu Hnu).
      rewrite (find_vertex_index_at g v b Hok Hv Hnv).
      rewrite (proj2 (orb_false_iff _ _)) by (split; lia).
      by apply remove_edge_by_index_succeeds.
Qed.

(** ** Repeating additions *)

Lemma find_from_names g g' s cnt : ∀ i,
  0 ≤ i → (∀ k, 0 ≤ k → nm_of g' k = nm_of g k) →
  eval (find_from cnt i s) g' = eval (find_from cnt i s) g.
Proof.
  induction cnt as [|c IH]; intros i Hi Hnm; [done|].
  simpl find_from. st. rewrite Hnm by done.
  destruct (name_matches _ s); [done|]. apply IH; [lia | done].
Qed.

Lemma find_vertex_index_names g g' s :
  n g' = n g → (∀ k, 0 ≤ k → nm_of g' k = nm_of g k) →
  eval (find_vertex_index s) g' = eval (find_vertex_index s) g.
Proof.
  intros Hn Hnm. unfold find_vertex_index. st. rewrite Hn.
  by apply find_from_names.
Qed.

Lemma add_vertex_fails g s :
  eval (add_vertex s) g ≠ 0 ↔ MAX_VERTICES ≤ n g ∨ has_name g s.
Proof.
  rewrite add_vertex_eval. destruct (n g >=? MAX_VERTICES) eqn:Hfull.
  { split; [intros _; left; lia | done]. }
  destruct (eval (find_vertex_index s) g =? -1) eqn:Hf; simpl.
  - apply Z.eqb_eq, find_vertex_index_absent in Hf.
    split; [done | intros [?|?]; [lia | done]].
  - apply Z.eqb_neq in Hf. split; [|done]. intros _. right.
    destruct (find_vertex_index_present g s Hf) as [Hr Hnm]. by eexists.
Qed.

Lemma add_vertex_fail_exec g s :
  eval (add_vertex s) g ≠ 0 → exec (add_vertex s) g = g.
Proof.
  rewrite add_vertex_eval, add_vertex_exec.
  destruct (_ >=? _); [done|]. by destruct (negb _).
Qed.

Lemma add_edge_exec a b g :
  exec (add_edge a b) g =
    if (eval (find_vertex_index a) g =? -1) || (eval (find_vertex_index b) g =? -1)
    then g
    else exec (add_edge_by_index (eval (find_vertex_index a) g)
                                 (eval (find_vertex_index b) g)) g.
Proof. unfold exec at 1. rewrite add_edge_run. by destruct (_ || _). Qed.

Lemma add_edge_by_index_fail_exec u v g :
  eval (add_edge_by_index u v) g ≠ 0 → exec (add_edge_by_index u v) g = g.
Proof.
  unfold eval, exec. rewrite add_edge_by_index_run.
  destruct (_ || _); [done|]. destruct (u =? v); [done|].
  by destruct (negb _).
Qed.

Lemma add_edge_fail_exec a b g :
  eval (add_edge a b) g ≠ 0 → exec (add_edge a b) g = g.
Proof.
  rewrite add_edge_eval, add_edge_exec. destruct (_ || _); [done|].
  apply add_edge_by_index_fail_exec.
Qed.

Lemma has_name_add_vertex g s s' :
  shape g → 0 ≤ n g → has_name g s → has_name (exec (add_vertex s') g) s.
Proof.
  intros Hs Hn0 (i & Hi & Hnm). rewrite add_vertex_exec.
  destruct (n g >=? MAX_VERTICES) eqn:Hfull; [by exists i|].
  destruct (negb _); [by exists i|].
  exists i. split; [simpl; lia|].
  rewrite add_vertex_state_nm by (done || lia). by rewrite decide_False by lia.
Qed.

Lemma add_vertex_settles g s :
  shape g → 0 ≤ n g →
  eval (add_vertex s) (exec (add_vertex s) g) ≠ 0.
Proof.
  intros Hs Hn0. destruct (decide (eval (add_vertex s) g = 0)) as [Hok|Hno].
  - apply add_vertex_fails. right.
    pose proof (proj1 (add_vertex_succeeds g s) Hok) as [Hfull _].
    rewrite (add_vertex_exec_ok _ _ Hok). exists (n g). split; [simpl; lia|].
    rewrite add_vertex_state_nm by (done || lia). by rewrite decide_True.
  - by rewrite add_vertex_fail_exec.
Qed.

Lemma add_edge_by_index_blocked u v g :
  eval (add_edge_by_index u v) g ≠ 0 ↔
  ¬ (0 ≤ u < n g ∧ 0 ≤ v < n g) ∨ u = v ∨ cell g u v ≠ 0.
Proof.
  rewrite add_edge_by_index_eval. destruct (_ || _) eqn:Hrange.
  { split; [intros _; left; lia | done]. }
  destruct (u =? v) eqn:Huv.
  { split; [intros _; right; left; lia | done]. }
  destruct (cell g u v =? 0) eqn:Hc; simpl.
  - split; [done | intros [?|[?|?]]; lia].
  - split; [intros _; right; right; lia | done].
Qed.

Lemma add_edge_keeps_lookup a b g s :
  wf g →
  n (exec (add_edge a b) g) = n g ∧
  eval (find_vertex_index s) (exec (add_edge a b) g)
    = eval (find_vertex_index s) g ∧
  ∀ x y, 0 ≤ x → 0 ≤ y → cell g x y ≠ 0 →
         cell (exec (add_edge a b) g) x y ≠ 0.
Proof.
  intros Hwf. rewrite add_edge_exec. destruct (_ || _); [done|].
  set (u := eval (find_vertex_index a) g).
  set (v := eval (find_vertex_index b) g).
  destruct (decide (eval (add_edge_by_index u v) g = 0)) as [Hok|Hno];
    [|by rewrite add_edge_by_index_fail_exec].
  pose proof (proj1 (add_edge_by_index_succeeds u v g Hwf) Hok)
    as (Hu & Hv & Hne & Hnin).
  pose proof (wf_shape _ Hwf) as Hs. pose proof (wf_n _ Hwf) as Hn.
  rewrite (add_edge_by_index_exec_ok _ _ _ Hok). split_and!.
  - done.
  - apply find_vertex_index_names; [done|].
    intros k Hk. apply add_edge_state_nm; (done || lia).
  - intros x y Hx Hy Hc. rewrite add_edge_state_cell by (done || lia).
    by case_decide.
Qed.

Lemma add_edge_blocked a b g :
  eval (add_edge a b) g ≠ 0 ↔
  eval (find_vertex_index a) g = -1 ∨ eval (find_vertex_index b) g = -1 ∨
  eval (add_edge_by_index (eval (find_vertex_index a) g)
                          (eval (find_vertex_index b) g)) g ≠ 0.
Proof.
  rewrite add_edge_eval. destruct (_ || _) eqn:E.
  - apply orb_true_iff in E as [E|E]; apply Z.eqb_eq in E;
      split; (done || auto).
  - apply orb_false_iff in E as [Ea Eb]. apply Z.eqb_neq in Ea, Eb.
    split; [auto | intros [?|[?|?]]; done].
Qed.

Lemma add_edge_settles a b g :
  wf g → eval (add_edge a b) (exec (add_edge a b) g) ≠ 0.
Proof.
  intros Hwf.
  destruct (decide (eval (add_edge a b) g = 0)) as [Hok|Hno];
    [|by rewrite add_edge_fail_exec].
  destruct (add_edge_keeps_lookup a b g a Hwf) as (_ & Hfa & _).
  destruct (add_edge_keeps_lookup a b g b Hwf) as (Hn' & Hfb & _).
  apply add_edge_blocked. rewrite Hfa, Hfb.
  revert Hok. rewrite add_edge_eval, add_edge_exec.
  destruct (_ || _); [done|]. intros Hok. right. right.
  pose proof (proj1 (add_edge_by_index_succeeds _ _ g Hwf) Hok)
    as (Hu & Hv & Hne & Hnin).
  pose proof (wf_shape _ Hwf) as Hs. pose proof (wf_n _ Hwf) as Hn.
  apply add_edge_by_index_blocked. right. right.
  rewrite (add_edge_by_index_exec_ok _ _ _ Hok).
  rewrite add_edge_state_cell by (done || lia).
  by rewrite decide_True by tauto.
Qed.

Lemma op_fail_exec o g :
  is_add o = true → eval (run_op o) g ≠ 0 → exec (run_op o) g = g.
Proof.
  destruct o; try done; intros _; simpl run_op.
  - apply add_vertex_fail_exec.
  - apply add_edge_fail_exec.
Qed.

Lemma op_settles o g :
  is_add o = true → wf g → eval (run_op o) (exec (run_op o) g) ≠ 0.
Proof.
  destruct o; try done; intros _ Hwf; simpl run_op.
  - apply add_vertex_settles; [apply Hwf | apply (wf_n _ Hwf)].
  - by apply add_edge_settles.
Qed.

Lemma fail_persists o o' g :
  is_add o = true → is_add o' = true →
  (is_add_edge o = true → is_add_edge o' = true) →
  wf g →
  eval (run_op o) g ≠ 0 → eval (run_op o) (exec (run_op o') g) ≠ 0.
Proof.
  intros Ho Ho' Hedge Hwf.
  pose proof (wf_shape _ Hwf) as Hs. pose proof (wf_n _ Hwf) as Hn.
  destruct o as [s| |a b| | | |]; try done;
    destruct o' as [s'| |a' b'| | | |]; try done; simpl run_op.
  - rewrite !add_vertex_fails. intros [Hfull|Hname].
    + left. rewrite add_vertex_exec.
      destruct (n g >=? MAX_VERTICES); [done|].
      destruct (negb _); [done | simpl; lia].
    + right. apply has_name_add_vertex; (done || lia).
  - rewrite !add_vertex_fails.
    destruct (add_edge_keeps_lookup a' b' g s Hwf) as (Hn' & Hf & _).
    rewrite Hn'. intros [Hfull|Hname]; [by left|]. right.
    apply find_vertex_index_found in Hname. rewrite <-Hf in Hname.
    destruct (find_vertex_index_present _ s Hname) as [Hr Hnm]. by eexists.
  - by specialize (Hedge eq_refl).
  - rewrite !add_edge_blocked.
    destruct (add_edge_keeps_lookup a' b' g a Hwf) as (Hn' & Hfa & Hcell).
    destruct (add_edge_keeps_lookup a' b' g b Hwf) as (_ & Hfb & _).
    rewrite Hfa, Hfb. intros [?|[?|Hblk]]; [auto..|].
    destruct (decide (eval (find_vertex_index a) g = -1)) as [?|Hna]; [auto|].
    destruct (decide (eval (find_vertex_index b) g = -1)) as [?|Hnb]; [auto|].
    right. right. apply add_edge_by_index_blocked.
    apply add_edge_by_index_blocked in Hblk. rewrite Hn'.
    destruct Hblk as [?|[?|Hc]]; [auto..|]. right. right.
    destruct (find_vertex_index_present g a Hna) as [? _].
    destruct (find_vertex_index_present g b Hnb) as [? _].
    apply Hcell; (done || lia).
Qed.

Lemma run_ops_wf l : ∀ g, wf g → wf (exec (run_ops l) g).
Proof.
  induction l as [|o rest IH]; intros g Hwf; [done|].
  simpl run_ops. rewrite exec_bind. by apply IH, run_op_wf.
Qed.

Lemma fail_persists_list o l : ∀ g,
  is_add o = true → forallb is_add l = true →
  (is_add_edge o = true → forallb is_add_edge l = true) →
  wf g →
  eval (run_op o) g ≠ 0 → eval (run_op o) (exec (run_ops l) g) ≠ 0.
Proof.
  induction l as [|o' rest IH]; intros g Ho Hl Hedge Hwf Hfail; [done|].
  simpl in Hl. apply andb_true_iff in Hl as [Ho' Hrest].
  simpl run_ops. rewrite exec_bind. apply IH; try done.
  - intros He. specialize (Hedge He). simpl in Hedge.
    by apply andb_true_iff in Hedge as [_ ?].
  - by apply run_op_wf.
  - apply fail_persists; try done.
    intros He. specialize (Hedge He). simpl in Hedge.
    by apply andb_true_iff in Hedge as [? _].
Qed.

Lemma adds_in_order_cons o l :
  adds_in_order (o :: l) = true →
  is_add o = true ∧ forallb is_add l = true ∧
  (is_add_edge o = true → forallb is_add_edge l = true) ∧
  adds_in_order l = true.
Proof.
  destruct o; try done; simpl; intros [H1 H2]%andb_true_iff;
    split_and!; try done.
  clear -H1. induction l as [|o l IH]; [done|]. simpl in *.
  apply andb_true_iff in H1 as [Ho Hl]. rewrite IH by done.
  by destruct o.
Qed.

Lemma all_settled l : ∀ g o,
  adds_in_order l = true → wf g → o ∈ l →
  eval (run_op o) (exec (run_ops l) g) ≠ 0.
Proof.
  induction l as [|o' rest IH]; intros g o Hl Hwf Hin.
  { by apply elem_of_nil in Hin. }
  apply adds_in_order_cons in Hl as (Ho' & Hadds & Hedges & Hrest).
  simpl run_ops. rewrite exec_bind.
  apply elem_of_cons in Hin as [->|Hin].
  - apply fail_persists_list; try done; [by apply run_op_wf|].
    by apply op_settles.
  - apply IH; [done | by apply run_op_wf | done].
Qed.

Lemma no_effect l : ∀ h,
  forallb is_add l = true →
  (∀ o, o ∈ l → eval (run_op o) h ≠ 0) →
  exec (run_ops l) h = h.
Proof.
  induction l as [|o rest IH]; intros h Hl Hfail; [done|].
  simpl in Hl. apply andb_true_iff in Hl as [Ho Hrest].
  simpl run_ops. rewrite exec_bind.
  rewrite (op_fail_exec o h Ho) by (apply Hfail; left).
  apply IH; [done|]. intros o' Ho'. apply Hfail. by right.
Qed.

Lemma adds_in_order_adds l : adds_in_order l = true → forallb is_add l = true.
Proof.
  induction l as [|o l IH]; [done|].
  intros (Ho & Hl & _ & _)%adds_in_order_cons. simpl. by rewrite Ho, Hl.
Qed.

Lemma run_ops_idempotent l g :
  adds_in_order l = true → wf g →
  exec (run_ops l) (exec (run_ops l) g) = exec (run_ops l) g.
Proof.
  intros Hl Hwf. apply no_effect; [by apply adds_in_order_adds|].
  intros o Ho. by apply all_settled.
Qed.

Lemma add_names_ops l : ∀ g,
  exec (add_names l) g = exec (run_ops (AddVertex <$> l)) g.
Proof.
  induction l as [|s rest IH]; intros g; [done|].
  cbn [add_names fmap list_fmap run_ops]. rewrite !exec_bind.
  change (run_op (AddVertex s)) with (add_vertex s). apply IH.
Qed.

Lemma run_ops_app l1 l2 : ∀ g,
  exec (run_ops (l1 ++ l2)) g = exec (run_ops l2) (exec (run_ops l1) g).
Proof.
  induction l1 as [|o rest IH]; intros g; [done|].
  cbn [app run_ops]. rewrite !exec_bind. apply IH.
Qed.

Lemma insert_sample_graph_ops g :
  exec insert_sample_graph g = exec (run_ops sample_ops) g.
Proof.
  unfold insert_sample_graph, sample_ops.
  rewrite exec_bind, add_names_ops, run_ops_app.
  generalize (exec (run_ops (AddVertex <$> sample_names)) g). intros h.
  cbn [run_ops run_op].
  reflexivity.
Qed.

(** X26. Inserting the sample graph a second time changes nothing,
    whatever reachable graph it was first inserted into (even one that
    is nearly full or already holds some of its names). *)
Theorem insert_sample_graph_idempotent g :
  reachable g →
  exec insert_sample_graph (exec insert_sample_graph g)
    = exec insert_sample_graph g.
Proof.
  intros Hwf%reachable_wf.
  rewrite (insert_sample_graph_ops g).
  rewrite (insert_sample_graph_ops (exec (run_ops sample_ops) g)).
  apply run_ops_idempotent; [|exact Hwf].
  vm_compute; reflexivity.
Qed.

(** * Instances *)

Lemma symmetry_invariant_witness :
  reachable alice_graph ∧ 0 ≤ 0 < n alice_graph ∧ 0 ≤ 1 < n alice_graph ∧
  (0 ∈ hd_of alice_graph 1 ↔ 1 ∈ hd_of alice_graph 0).
Proof.
  assert (Hr : reachable alice_graph) by apply reachable_build.
  assert (Hn : n alice_graph = 3) by (vm_compute; reflexivity).
  assert (H0 : 0 ≤ 0 < n alice_graph) by lia.
  assert (H1 : 0 ≤ 1 < n alice_graph) by lia.
  split; [done|]. split; [done|]. split; [done|].
  apply symmetry_invariant; done.
Defined.

Lemma matrix_mirrors_lists_witness :
  reachable alice_graph ∧ 0 ≤ 0 < n alice_graph ∧ 0 ≤ 2 < n alice_graph ∧
  (cell alice_graph 0 2 = 1 ↔ 2 ∈ hd_of alice_graph 0) ∧
  (cell alice_graph 0 2 = 0 ↔ 2 ∉ hd_of alice_graph 0).
Proof.
  assert (Hr : reachable alice_graph) by apply reachable_build.
  assert (Hn : n alice_graph = 3) by (vm_compute; reflexivity).
  assert (H0 : 0 ≤ 0 < n alice_graph) by lia.
  assert (H2 : 0 ≤ 2 < n alice_graph) by lia.
  split; [done|]. split; [done|]. split; [done|].
  apply matrix_mirrors_lists; done.
Defined.

Lemma adjacency_entries_valid_witness :
  reachable alice_graph ∧ 0 ≤ 0 < n alice_graph ∧ 2 ∈ hd_of alice_graph 0 ∧
  0 ≤ 2 < n alice_graph.
Proof.
  assert (Hr : reachable alice_graph) by apply reachable_build.
  assert (Hn : n alice_graph = 3) by (vm_compute; reflexivity).
  assert (H0 : 0 ≤ 0 < n alice_graph) by lia.
  assert (Hh : hd_of alice_graph 0 = [2; 1]) by (vm_compute; reflexivity).
  assert (Hin : 2 ∈ hd_of alice_graph 0) by (rewrite Hh; left).
  split; [done|]. split; [done|]. split; [done|].
  apply (adjacency_entries_valid alice_graph 0 2); done.
Defined.

Lemma traversal_completeness_witness :
  valid_entries triangle_graph ∧
  0 ≤ 0 < n triangle_graph ∧
  n triangle_graph ≤ 20 ≤ alen out_buffer ∧
  ∃ rb rd,
    (∀ fuel, (Z.to_nat (n triangle_graph) < fuel)%nat →
       eval (bfs fuel 0 out_buffer 20) triangle_graph = Some rb ∧
       eval (dfs fuel 0 out_buffer 20) triangle_graph = Some rd) ∧
    NoDup (visit_sequence rb) ∧
    (∀ v, v ∈ visit_sequence rb ↔ reach triangle_graph 0 v) ∧
    visit_sequence rb !! 0%nat = Some 0 ∧
    NoDup (visit_sequence rd) ∧
    (∀ v, v ∈ visit_sequence rd ↔ reach triangle_graph 0 v).
Proof.
  assert (Hn : n triangle_graph = 3) by (vm_compute; reflexivity).
  assert (Hlen : alen out_buffer = 20) by (vm_compute; reflexivity).
  assert (Hval : valid_entries triangle_graph)
    by apply wf_valid_entries, reachable_wf, reachable_build.
  assert (H0 : 0 ≤ 0 < n triangle_graph) by lia.
  assert (Hb : n triangle_graph ≤ 20 ≤ alen out_buffer) by lia.
  split; [done|]. split; [done|]. split; [done|].
  apply traversal_completeness; done.
Defined.

Lemma add_vertex_duplicate_below_capacity_witness :
  has_name alice_graph "Bob" ∧
  exec (add_vertex "Bob") alice_graph = alice_graph ∧
  (n alice_graph < MAX_VERTICES → eval (add_vertex "Bob") alice_graph = -2) ∧
  (MAX_VERTICES ≤ n alice_graph → eval (add_vertex "Bob") alice_graph = -1).
Proof.
  assert (Hn : n alice_graph = 3) by (vm_compute; reflexivity).
  assert (Hnm : nm_of alice_graph 1 = Some "Bob") by (vm_compute; reflexivity).
  assert (Hname : has_name alice_graph "Bob").
  { exists 1. split; [lia | done]. }
  split; [done|]. apply add_vertex_duplicate_below_capacity; done.
Defined.

Lemma failed_mutation_leaves_graph_witness :
  eval (run_op (AddEdgeByIndex 0 0)) alice_graph ≠ 0 ∧
  exec (run_op (AddEdgeByIndex 0 0)) alice_graph = alice_graph.
Proof.
  assert (He : eval (run_op (AddEdgeByIndex 0 0)) alice_graph = -1)
    by (vm_compute; reflexivity).
  assert (Hne : eval (run_op (AddEdgeByIndex 0 0)) alice_graph ≠ 0) by lia.
  split; [done|]. apply failed_mutation_leaves_graph; done.
Defined.

Lemma queries_leave_graph_witness :
  valid_entries triangle_graph ∧ n triangle_graph ≤ alen out_buffer ∧
  exec (bfs 4 0 out_buffer 2) triangle_graph = triangle_graph ∧
  exec (dfs 4 0 out_buffer 2) triangle_graph = triangle_graph ∧
  exec (find_vertex_index "B") triangle_graph = triangle_graph ∧
  (∀ r, eval (bfs 4 0 out_buffer 2) triangle_graph = Some r →
        0 ≤ snd r ≤ alen out_buffer) ∧
  (∀ r, eval (dfs 4 0 out_buffer 2) triangle_graph = Some r →
        0 ≤ snd r ≤ alen out_buffer).
Proof.
  assert (Hval : valid_entries triangle_graph)
    by apply wf_valid_entries, reachable_wf, reachable_build.
  assert (Hn : n triangle_graph = 3) by (vm_compute; reflexivity).
  assert (Hlen : alen out_buffer = 20) by (vm_compute; reflexivity).
  assert (Hcap : n triangle_graph ≤ alen out_buffer) by lia.
  split; [done|]. split; [done|].
  apply queries_leave_graph; done.
Defined.

Lemma find_after_add_vertex_witness :
  shape alice_graph ∧ 0 ≤ n alice_graph ∧
  eval (add_vertex "Dave") alice_graph = 0 ∧
  n (exec (add_vertex "Dave") alice_graph) = n alice_graph + 1 ∧
  nm_of (exec (add_vertex "Dave") alice_graph) (n alice_graph)
    = Some "Dave" ∧
  eval (find_vertex_index "Dave") (exec (add_vertex "Dave") alice_graph)
    = n alice_graph ∧
  eval (find_vertex_index "Dave") (exec (add_vertex "Dave") alice_graph) =
    n (exec (add_vertex "Dave") alice_graph) - 1.
Proof.
  assert (Hs : shape alice_graph)
    by apply wf_shape, reachable_wf, reachable_build.
  assert (Hn : n alice_graph = 3) by (vm_compute; reflexivity).
  assert (Hn0 : 0 ≤ n alice_graph) by lia.
  assert (He : eval (add_vertex "Dave") alice_graph = 0)
    by (vm_compute; reflexivity).
  split; [done|]. split; [done|]. split; [done|].
  apply find_after_add_vertex; done.
Defined.

Lemma init_graph_resets_witness :
  shape uninit_graph ∧
  exec init_graph uninit_graph = empty_graph ∧
  wf (exec init_graph uninit_graph).
Proof.
  assert (Hs : shape uninit_graph) by apply uninit_graph_shape.
  split; [done|]. apply init_graph_resets; done.
Defined.

Lemma names_distinct_witness :
  reachable alice_graph ∧ 0 ≤ 1 < n alice_graph ∧
  nm_of alice_graph 1 = Some "Bob" ∧ 1 = 1.
Proof.
  assert (Hr : reachable alice_graph) by apply reachable_build.
  assert (Hn : n alice_graph = 3) by (vm_compute; reflexivity).
  assert (H1 : 0 ≤ 1 < n alice_graph) by lia.
  assert (Hnm : nm_of alice_graph 1 = Some "Bob") by (vm_compute; reflexivity).
  split; [done|]. split; [done|]. split; [done|].
  apply (names_distinct alice_graph 1 1 "Bob"); done.
Defined.

Lemma find_vertex_index_inverse_witness :
  reachable alice_graph ∧ 0 ≤ 1 < n alice_graph ∧
  nm_of alice_graph 1 = Some "Bob" ∧
  eval (find_vertex_index "Bob") alice_graph = 1.
Proof.
  assert (Hr : reachable alice_graph) by apply reachable_build.
  assert (Hn : n alice_graph = 3) by (vm_compute; reflexivity).
  assert (H1 : 0 ≤ 1 < n alice_graph) by lia.
  assert (Hnm : nm_of alice_graph 1 = Some "Bob") by (vm_compute; reflexivity).
  split; [done|]. split; [done|]. split; [done|].
  apply find_vertex_index_inverse; done.
Defined.

Lemma add_vertex_appends_witness :
  shape alice_graph ∧ 0 ≤ n alice_graph ∧
  (eval (add_vertex "Dave") alice_graph = 0 ↔
     n alice_graph < MAX_VERTICES ∧ ¬ has_name alice_graph "Dave") ∧
  (eval (add_vertex "Dave") alice_graph = 0 →
     n (exec (add_vertex "Dave") alice_graph) = n alice_graph + 1 ∧
     arr_get (vertices (exec (add_vertex "Dave") alice_graph)) (n alice_graph)
       = mkVertex (Some "Dave") [] ∧
     (∀ a, 0 ≤ a → a ≠ n alice_graph →
        arr_get (vertices (exec (add_vertex "Dave") alice_graph)) a
          = arr_get (vertices alice_graph) a) ∧
     adjMatrix (exec (add_vertex "Dave") alice_graph) = adjMatrix alice_graph).
Proof.
  assert (Hs : shape alice_graph)
    by apply wf_shape, reachable_wf, reachable_build.
  assert (Hn : n alice_graph = 3) by (vm_compute; reflexivity).
  assert (Hn0 : 0 ≤ n alice_graph) by lia.
  split; [done|]. split; [done|].
  apply add_vertex_appends; done.
Defined.

Lemma add_edge_by_index_adds_witness :
  wf alice_graph ∧
  (eval (add_edge_by_index 1 2) alice_graph = 0 ↔
     0 ≤ 1 < n alice_graph ∧ 0 ≤ 2 < n alice_graph ∧ 1 ≠ 2 ∧
     2 ∉ hd_of alice_graph 1) ∧
  (eval (add_edge_by_index 1 2) alice_graph = 0 →
     n (exec (add_edge_by_index 1 2) alice_graph) = n alice_graph ∧
     (∀ a, 0 ≤ a →
        nm_of (exec (add_edge_by_index 1 2) alice_graph) a
          = nm_of alice_graph a) ∧
     ∀ a b, 0 ≤ a →
       b ∈ hd_of (exec (add_edge_by_index 1 2) alice_graph) a ↔
       b ∈ hd_of alice_graph a ∨ (a = 1 ∧ b = 2) ∨ (a = 2 ∧ b = 1)).
Proof.
  assert (Hwf : wf alice_graph) by apply reachable_wf, reachable_build.
  split; [done|]. apply add_edge_by_index_adds; done.
Defined.

Lemma add_edge_by_index_twice_witness :
  wf alice_graph ∧ eval (add_edge_by_index 1 2) alice_graph = 0 ∧
  eval (add_edge_by_index 1 2) (exec (add_edge_by_index 1 2) alice_graph) = -1 ∧
  eval (add_edge_by_index 2 1) (exec (add_edge_by_index 1 2) alice_graph) = -1.
Proof.
  assert (Hwf : wf alice_graph) by apply reachable_wf, reachable_build.
  assert (He : eval (add_edge_by_index 1 2) alice_graph = 0)
    by (vm_compute; reflexivity).
  split; [done|]. split; [done|].
  apply add_edge_by_index_twice; done.
Defined.

Lemma add_remove_edge_round_trip_witness :
  wf alice_graph ∧ eval (add_edge_by_index 1 2) alice_graph = 0 ∧
  remove_edge_by_index 1 2 (exec (add_edge_by_index 1 2) alice_graph)
    = (0, alice_graph) ∧
  remove_edge_by_index 2 1 (exec (add_edge_by_index 1 2) alice_graph)
    = (0, alice_graph).
Proof.
  assert (Hwf : wf alice_graph) by apply reachable_wf, reachable_build.
  assert (He : eval (add_edge_by_index 1 2) alice_graph = 0)
    by (vm_compute; reflexivity).
  split; [done|]. split; [done|].
  apply add_remove_edge_round_trip; done.
Defined.

Lemma remove_edge_by_index_removes_witness :
  wf alice_graph ∧
  (eval (remove_edge_by_index 0 1) alice_graph = 0 ↔
     0 ≤ 0 < n alice_graph ∧ 0 ≤ 1 < n alice_graph ∧
     1 ∈ hd_of alice_graph 0) ∧
  (eval (remove_edge_by_index 0 1) alice_graph = 0 →
     n (exec (remove_edge_by_index 0 1) alice_graph) = n alice_graph ∧
     (∀ a b, 0 ≤ a →
        b ∈ hd_of (exec (remove_edge_by_index 0 1) alice_graph) a ↔
        b ∈ hd_of alice_graph a ∧ ¬ ((a = 0 ∧ b = 1) ∨ (a = 1 ∧ b = 0))) ∧
     eval (add_edge_by_index 0 1)
          (exec (remove_edge_by_index 0 1) alice_graph) = 0).
Proof.
  assert (Hwf : wf alice_graph) by apply reachable_wf, reachable_build.
  split; [done|]. apply remove_edge_by_index_removes; done.
Defined.

Lemma reachable_simple_graph_witness :
  reachable triangle_graph ∧ 0 ≤ 1 < n triangle_graph ∧
  (0 ≤ n triangle_graph ≤ MAX_VERTICES) ∧
  (1 ∉ hd_of triangle_graph 1) ∧ NoDup (hd_of triangle_graph 1).
Proof.
  assert (Hr : reachable triangle_graph) by apply reachable_build.
  assert (Hn : n triangle_graph = 3) by (vm_compute; reflexivity).
  assert (H1 : 0 ≤ 1 < n triangle_graph) by lia.
  split; [done|]. split; [done|].
  apply reachable_simple_graph; done.
Defined.

Lemma remove_vertex_by_index_compacts_witness :
  wf abcd_graph ∧ 0 ≤ 1 < n abcd_graph ∧
  eval (remove_vertex_by_index 1) abcd_graph = 0 ∧
  n (exec (remove_vertex_by_index 1) abcd_graph) = n abcd_graph - 1 ∧
  names (exec (remove_vertex_by_index 1) abcd_graph)
    = delete (Z.to_nat 1) (names abcd_graph) ∧
  ∀ a b, 0 ≤ a < n abcd_graph - 1 → 0 ≤ b < n abcd_graph - 1 →
    b ∈ hd_of (exec (remove_vertex_by_index 1) abcd_graph) a ↔
    shift_up 1 b ∈ hd_of abcd_graph (shift_up 1 a).
Proof.
  assert (Hwf : wf abcd_graph) by apply reachable_wf, reachable_build.
  assert (Hn : n abcd_graph = 4) by (vm_compute; reflexivity).
  assert (H1 : 0 ≤ 1 < n abcd_graph) by lia.
  split; [done|]. split; [done|].
  apply remove_vertex_by_index_compacts; done.
Defined.

Lemma remove_vertex_forgets_name_witness :
  reachable alice_graph ∧
  (¬ has_name alice_graph "Alice" →
     remove_vertex "Alice" alice_graph = (-1, alice_graph)) ∧
  (has_name alice_graph "Alice" →
     eval (remove_vertex "Alice") alice_graph = 0 ∧
     n (exec (remove_vertex "Alice") alice_graph) = n alice_graph - 1 ∧
     eval (find_vertex_index "Alice")
          (exec (remove_vertex "Alice") alice_graph) = -1).
Proof.
  assert (Hr : reachable alice_graph) by apply reachable_build.
  split; [done|]. apply remove_vertex_forgets_name; done.
Defined.

Lemma add_remove_vertex_round_trip_witness :
  reachable alice_graph ∧ eval (add_vertex "Dave") alice_graph = 0 ∧
  remove_vertex "Dave" (exec (add_vertex "Dave") alice_graph)
    = (0, alice_graph) ∧
  remove_vertex_by_index (n alice_graph) (exec (add_vertex "Dave") alice_graph)
    = (0, alice_graph).
Proof.
  assert (Hr : reachable alice_graph) by apply reachable_build.
  assert (He : eval (add_vertex "Dave") alice_graph = 0)
    by (vm_compute; reflexivity).
  split; [done|]. split; [done|].
  apply add_remove_vertex_round_trip; done.
Defined.

Lemma slots_past_count_cleared_witness :
  reachable bob_carol_graph ∧ n bob_carol_graph ≤ 2 < MAX_VERTICES ∧
  arr_get (vertices bob_carol_graph) 2 = mkVertex None [].
Proof.
  assert (Heq : exec (remove_vertex "Alice") alice_graph = bob_carol_graph)
    by (vm_compute; reflexivity).
  assert (Hr : reachable bob_carol_graph).
  { rewrite <-Heq. apply (reachable_step _ (RemoveVertex "Alice")).
    apply reachable_build. }
  assert (Hn : n bob_carol_graph = 2) by (vm_compute; reflexivity).
  assert (Hm : MAX_VERTICES = 20) by reflexivity.
  assert (H2 : n bob_carol_graph ≤ 2 < MAX_VERTICES) by lia.
  split; [done|]. split; [done|].
  apply slots_past_count_cleared; done.
Defined.

Lemma free_graph_keeps_matrix_witness :
  reachable alice_graph ∧
  exec free_graph alice_graph
    = mkGraph (blank_vertices 20) 0 (adjMatrix alice_graph) ∧
  (exec free_graph alice_graph = empty_graph ↔
   ∀ i, 0 ≤ i < n alice_graph → hd_of alice_graph i = []).
Proof.
  assert (Hr : reachable alice_graph) by apply reachable_build.
  split; [done|]. apply free_graph_keeps_matrix; done.
Defined.

Lemma edges_lists_each_edge_once_witness :
  reachable alice_graph ∧
  NoDup (edges alice_graph) ∧
  ((0, 2) ∈ edges alice_graph ↔
   0 ≤ 0 ∧ 0 < 2 ∧ 2 < n alice_graph ∧ 2 ∈ hd_of alice_graph 0).
Proof.
  assert (Hr : reachable alice_graph) by apply reachable_build.
  split; [done|]. apply edges_lists_each_edge_once; done.
Defined.

Lemma incidence_matrix_columns_witness :
  (1 < length (edges alice_graph))%nat ∧
  length (incidence_matrix alice_graph) = Z.to_nat (n alice_graph) ∧
  Forall (λ row, length row = length (edges alice_graph))
         (incidence_matrix alice_graph) ∧
  column_sum 1 (incidence_matrix alice_graph) = 2.
Proof.
  assert (Hl : length (edges alice_graph) = 2%nat) by (vm_compute; reflexivity).
  assert (Hj : (1 < length (edges alice_graph))%nat) by lia.
  split; [done|]. apply incidence_matrix_columns; done.
Defined.

Lemma edge_count_changes_by_one_witness :
  wf alice_graph ∧
  (eval (add_edge_by_index 1 2) alice_graph = 0 →
     length (edges (exec (add_edge_by_index 1 2) alice_graph))
       = S (length (edges alice_graph))) ∧
  (eval (remove_edge_by_index 1 2) alice_graph = 0 →
     S (length (edges (exec (remove_edge_by_index 1 2) alice_graph)))
       = length (edges alice_graph)).
Proof.
  assert (Hwf : wf alice_graph) by apply reachable_wf, reachable_build.
  split; [done|]. apply edge_count_changes_by_one; done.
Defined.

Lemma queue_fifo_witness :
  queue_ok (queue_push (queue_create 4) 5) ∧
  (queue_empty (queue_push (queue_create 4) 5) = true ↔
     queue_contents (queue_push (queue_create 4) 5) = []) ∧
  (q_tail (queue_push (queue_create 4) 5)
     < alen (q_data (queue_push (queue_create 4) 5)) →
     queue_ok (queue_push (queue_push (queue_create 4) 5) 7) ∧
     queue_contents (queue_push (queue_push (queue_create 4) 5) 7)
       = queue_contents (queue_push (queue_create 4) 5) ++ [7]) ∧
  (q_head (queue_push (queue_create 4) 5)
     < q_tail (queue_push (queue_create 4) 5) →
     queue_ok (snd (queue_pop (queue_push (queue_create 4) 5))) ∧
     queue_contents (queue_push (queue_create 4) 5)
       = fst (queue_pop (queue_push (queue_create 4) 5))
         :: queue_contents (snd (queue_pop (queue_push (queue_create 4) 5)))).
Proof.
  assert (Hh : q_head (queue_push (queue_create 4) 5) = 0)
    by (vm_compute; reflexivity).
  assert (Ht : q_tail (queue_push (queue_create 4) 5) = 1)
    by (vm_compute; reflexivity).
  assert (Hl : alen (q_data (queue_push (queue_create 4) 5)) = 4)
    by (vm_compute; reflexivity).
  assert (Hok : queue_ok (queue_push (queue_create 4) 5))
    by (unfold queue_ok; lia).
  split; [done|]. apply queue_fifo; done.
Defined.

Lemma bfs_writes_below_max_out_witness :
  eval (bfs 4 0 out_buffer 2) alice_graph = Some (arr_set out_buffer 1 2, 3) ∧
  alen (fst (arr_set out_buffer 1 2, 3)) = alen out_buffer ∧
  0 ≤ snd (arr_set out_buffer 1 2, 3) ∧
  ∀ i, 0 ≤ i → 2 ≤ i →
    arr_get (fst (arr_set out_buffer 1 2, 3)) i = arr_get out_buffer i.
Proof.
  assert (He : eval (bfs 4 0 out_buffer 2) alice_graph
               = Some (arr_set out_buffer 1 2, 3))
    by (vm_compute; reflexivity).
  split; [done|].
  apply (bfs_writes_below_max_out alice_graph 4 0 out_buffer 2); done.
Defined.

Lemma bfs_truncated_witness :
  valid_entries alice_graph ∧ 0 ≤ 0 < n alice_graph ∧
  2 ≤ alen out_buffer ∧ n alice_graph ≤ 20 ≤ alen out_buffer ∧
  n alice_graph < Z.of_nat 4 ∧
  ∃ r rf,
    eval (bfs 4 0 out_buffer 2) alice_graph = Some r ∧
    eval (bfs 4 0 out_buffer 20) alice_graph = Some rf ∧
    snd r = snd rf ∧
    snd rf = alen (visit_sequence rf) ∧
    NoDup (visit_sequence rf) ∧
    (∀ v, v ∈ visit_sequence rf ↔ reach alice_graph 0 v) ∧
    ∀ i, 0 ≤ i < snd r → i < 2 →
      arr_get (fst r) i = arr_get (visit_sequence rf) i.
Proof.
  assert (Hval : valid_entries alice_graph)
    by apply wf_valid_entries, reachable_wf, reachable_build.
  assert (Hn : n alice_graph = 3) by (vm_compute; reflexivity).
  assert (Hlen : alen out_buffer = 20) by (vm_compute; reflexivity).
  assert (H0 : 0 ≤ 0 < n alice_graph) by lia.
  assert (Hb : 2 ≤ alen out_buffer) by lia.
  assert (Hm : n alice_graph ≤ 20 ≤ alen out_buffer) by lia.
  assert (Hf : n alice_graph < Z.of_nat 4) by lia.
  split; [done|]. split; [done|]. split; [done|]. split; [done|].
  split; [done|].
  apply bfs_truncated; done.
Defined.

Lemma bfs_dfs_same_vertices_witness :
  valid_entries triangle_graph ∧ 0 ≤ 0 < n triangle_graph ∧
  n triangle_graph ≤ 20 ≤ alen out_buffer ∧
  n triangle_graph < Z.of_nat 4 ∧
  ∃ rb rd,
    eval (bfs 4 0 out_buffer 20) triangle_graph = Some rb ∧
    eval (dfs 4 0 out_buffer 20) triangle_graph = Some rd ∧
    visit_sequence rb ≡ₚ visit_sequence rd ∧
    snd rb = snd rd ∧ snd rb ≤ n triangle_graph ∧
    visit_sequence rb !! 0%nat = Some 0 ∧
    visit_sequence rd !! 0%nat = Some 0.
Proof.
  assert (Hval : valid_entries triangle_graph)
    by apply wf_valid_entries, reachable_wf, reachable_build.
  assert (Hn : n triangle_graph = 3) by (vm_compute; reflexivity).
  assert (Hlen : alen out_buffer = 20) by (vm_compute; reflexivity).
  assert (H0 : 0 ≤ 0 < n triangle_graph) by lia.
  assert (Hb : n triangle_graph ≤ 20 ≤ alen out_buffer) by lia.
  assert (Hf : n triangle_graph < Z.of_nat 4) by lia.
  split; [done|]. split; [done|]. split; [done|]. split; [done|].
  apply bfs_dfs_same_vertices; done.
Defined.

Lemma bfs_connectivity_mutual_witness :
  reachable abcd_graph ∧ 0 ≤ 0 < n abcd_graph ∧ 0 ≤ 2 < n abcd_graph ∧
  n abcd_graph < Z.of_nat 5 ∧
  ∃ ru rv,
    eval (bfs 5 0 out_buffer MAX_VERTICES) abcd_graph = Some ru ∧
    eval (bfs 5 2 out_buffer MAX_VERTICES) abcd_graph = Some rv ∧
    (2 ∈ visit_sequence ru ↔ 0 ∈ visit_sequence rv).
Proof.
  assert (Hr : reachable abcd_graph) by apply reachable_build.
  assert (Hn : n abcd_graph = 4) by (vm_compute; reflexivity).
  assert (H0 : 0 ≤ 0 < n abcd_graph) by lia.
  assert (H2 : 0 ≤ 2 < n abcd_graph) by lia.
  assert (Hf : n abcd_graph < Z.of_nat 5) by lia.
  split; [done|]. split; [done|]. split; [done|]. split; [done|].
  apply bfs_connectivity_mutual; done.
Defined.

Lemma neighbour_names_valid_witness :
  reachable alice_graph ∧ 0 ≤ 0 < n alice_graph ∧ 2 ∈ hd_of alice_graph 0 ∧
  nm_of alice_graph 0 = Some "Alice" ∧
  nm_of alice_graph 2 ≠ Some "Alice".
Proof.
  assert (Hr : reachable alice_graph) by apply reachable_build.
  assert (Hn : n alice_graph = 3) by (vm_compute; reflexivity).
  assert (H0 : 0 ≤ 0 < n alice_graph) by lia.
  assert (Hh : hd_of alice_graph 0 = [2; 1]) by (vm_compute; reflexivity).
  assert (Hin : 2 ∈ hd_of alice_graph 0) by (rewrite Hh; left).
  assert (Hnm : nm_of alice_graph 0 = Some "Alice")
    by (vm_compute; reflexivity).
  split; [done|]. split; [done|]. split; [done|]. split; [done|].
  apply (neighbour_names_valid alice_graph 0 2 "Alice"); done.
Defined.

Lemma edges_by_name_witness :
  reachable alice_graph ∧
  (eval (add_edge "Bob" "Carol") alice_graph = 0 ↔
     ∃ u v, 0 ≤ u < n alice_graph ∧ 0 ≤ v < n alice_graph ∧
            nm_of alice_graph u = Some "Bob" ∧
            nm_of alice_graph v = Some "Carol" ∧
            "Bob" ≠ "Carol" ∧ v ∉ hd_of alice_graph u) ∧
  (eval (remove_edge "Bob" "Carol") alice_graph = 0 ↔
     ∃ u v, 0 ≤ u < n alice_graph ∧ 0 ≤ v < n alice_graph ∧
            nm_of alice_graph u = Some "Bob" ∧
            nm_of alice_graph v = Some "Carol" ∧ v ∈ hd_of alice_graph u).
Proof.
  assert (Hr : reachable alice_graph) by apply reachable_build.
  split; [done|]. apply edges_by_name; done.
Defined.

Lemma insert_sample_graph_idempotent_witness :
  reachable alice_graph ∧
  exec insert_sample_graph (exec insert_sample_graph alice_graph)
    = exec insert_sample_graph alice_graph.
Proof.
  assert (Hr : reachable alice_graph) by apply reachable_build.
  split; [done|]. apply insert_sample_graph_idempotent; done.
Defined.
